(** * The streaming AI pipeline of the editor: history, lexer, transport

    A shallow embedding of the TypeScript sources of the AI assistant
    (history truncation, chat history, bracket-command lexer, debounced
    XML stream callbacks, retrying event-stream transport) together with
    the properties the specification states about them. *)

From Stdlib Require Import ZArith QArith Qminmax Qround Qpower Lia Lqa.
From stdpp Require Import base option list functions strings gmap.

(* ===================================================================== *)
(** * Property names every JavaScript object inherits *)
(* ===================================================================== *)

Module ObjectKeys.

(** The properties of [Object.prototype].  Reading one of them from an
    object literal such as [MODEL_TOKEN_LIMITS] yields a function or an
    object, not [undefined]. *)
Definition objectPrototypeKeys : list string :=
  [ "constructor"; "__proto__"; "hasOwnProperty"; "isPrototypeOf";
    "propertyIsEnumerable"; "toLocaleString"; "toString"; "valueOf";
    "__defineGetter__"; "__defineSetter__"; "__lookupGetter__";
    "__lookupSetter__" ].

End ObjectKeys.

(* ===================================================================== *)
(** * utils/historyTruncation.ts *)
(* ===================================================================== *)

Module HistoryTruncation.

(** [interface ChatMessage { role: string; content: string }] *)
Record ChatMessage := mkChatMessage { role : string; content : string }.

(** JavaScript numbers are doubles.  Every quantity below is an integer
    divided by the power of two 4, or a sum and difference of such values,
    so the double arithmetic is exact (as long as lengths stay below 2^51)
    and rationals represent it faithfully. *)
Definition CHARS_PER_TOKEN : Q := 4.
Definition RESPONSE_RESERVE : Q := 1000.

(** [const MODEL_TOKEN_LIMITS: Record<string, number>] *)
Definition MODEL_TOKEN_LIMITS : gmap string Q :=
  {[ "gpt-3.5-turbo" := 4096%Q; "gpt-4" := 8192%Q ]}.

(** [MODEL_TOKEN_LIMITS[modelName] || 4096] when it is a number: a
    missing key reads as [undefined], and [undefined] and [0] are falsy.
    For the names of [ObjectKeys.objectPrototypeKeys] the read yields an
    inherited function or object, which is truthy and no number; that
    case is [availableNumber] below. *)
Definition maxTokensOf (modelName : string) : Q :=
  match MODEL_TOKEN_LIMITS !! modelName with
  | Some v => if Qeq_bool v 0 then 4096%Q else v
  | None => 4096%Q
  end.

Definition ofLength (n : nat) : Q := inject_Z (Z.of_nat n).

(** [history[i].content.length / CHARS_PER_TOKEN] *)
Definition messageTokensOf (m : ChatMessage) : Q :=
  ofLength (String.length (content m)) / CHARS_PER_TOKEN.

(** [(systemPromptLength + codeLength) / CHARS_PER_TOKEN] *)
Definition usedTokens (systemPromptLength codeLength : Z) : Q :=
  inject_Z (systemPromptLength + codeLength) / CHARS_PER_TOKEN.

(** [maxTokens - usedTokens - RESPONSE_RESERVE] *)
Definition availableForHistory
    (modelName : string) (systemPromptLength codeLength : Z) : Q :=
  maxTokensOf modelName - usedTokens systemPromptLength codeLength
  - RESPONSE_RESERVE.

(** The value of the variable [availableForHistory] as a JavaScript
    number, [None] standing for NaN: for an inherited property name
    [maxTokens] is a function or an object, and subtracting a number from
    it gives NaN. *)
Definition availableNumber
    (modelName : string) (systemPromptLength codeLength : Z) : option Q :=
  if decide (modelName ∈ ObjectKeys.objectPrototypeKeys) then None
  else Some (availableForHistory modelName systemPromptLength codeLength).

Definition Qgt_bool (a b : Q) : bool := negb (Qle_bool a b).
Definition Qlt_bool (a b : Q) : bool := negb (Qle_bool b a).

(** The [for (let i = history.length - 1; i >= 0; i--)] loop.  The
    argument [k] is [i + 1], the number of indices still to visit; the
    result is the final value of [startIndex].  The index [i] is always in
    range here; an out-of-range read never happens in the source. *)
Fixpoint walkBackwards (history : list ChatMessage) (available : Q)
    (k : nat) (historyTokens : Q) : nat :=
  match k with
  | O => 0%nat
  | S i =>
      let messageTokens :=
        match history !! i with
        | Some m => messageTokensOf m
        | None => 0%Q
        end in
      if Qgt_bool (historyTokens + messageTokens) available
         && (Z.of_nat i <? Z.of_nat (length history) - 2)%Z
      then S i
      else walkBackwards history available i (historyTokens + messageTokens)
  end.

Definition truncateHistoryForTokenLimit (history : list ChatMessage)
    (modelName : string) (systemPromptLength codeLength : Z)
    : list ChatMessage :=
  match availableNumber modelName systemPromptLength codeLength with
  | Some available =>
      if Qlt_bool available 100 then
        match last history with
        | Some m => [m]
        | None => []
        end
      else
        drop (walkBackwards history available (length history) 0) history
  | None =>
      (* every comparison with NaN is false: [availableForHistory < 100]
         does not hold, the loop never sets [startIndex], and
         [history.slice(0)] is returned *)
      drop 0 history
  end.

(** The estimator the function itself uses, summed over a list. *)
Definition estimatedTokens (l : list ChatMessage) : Q :=
  foldr (fun m acc => messageTokensOf m + acc)%Q 0%Q l.





Definition threeShort : list ChatMessage :=
  [ mkChatMessage "system" "You are helpful.";
    mkChatMessage "user" "Hello";
    mkChatMessage "assistant" "Hi there" ].


End HistoryTruncation.

(* ===================================================================== *)
(** * ChatHistory: the bounded message log *)
(* ===================================================================== *)

Module ChatHistory.

Definition MAX_MESSAGES : nat := 50.
Definition TRUNCATE_TO : nat := 30.

Inductive ChatMessageType := User | Assistant | System.

Inductive ChatHistoryEvent := MessagesChanged | ActivitiesChanged | MetadataChanged.

#[global] Instance ChatMessageType_eq_dec : EqDecision ChatMessageType.
Proof. solve_decision. Defined.

(** Message objects live in the JavaScript heap and [add] mutates the
    object it is handed, so a message is a reference into a store of
    objects; the history is a list of references and two entries may be
    the same object. *)
Definition ref := nat.

Section WithExternals.

(** Values of the [metadata] record ([Record<string, unknown>]). *)
Context {Unknown : Type}.
(** [AiUtils.generateSnowflakeId] is imported from a module outside the
    sources at hand: it is taken as a generator threading its own state. *)
Context {IdGen : Type}.
Variable generateSnowflakeId : IdGen -> string * IdGen.

(** [PartialWithRequired<ChatMessage, 'content'>]: every field but
    [content] may be missing. *)
Record MessageObject := mkMessageObject {
  snowflakeId : option string;
  type : option ChatMessageType;
  content : string;
  metadata : option (gmap string Unknown)
}.

Record State := mkState {
  objects : ref -> MessageObject;      (* the heap of message objects *)
  messages : list ref;                 (* this._messages *)
  ids : IdGen;                         (* state of the id generator *)
  notified : list ChatHistoryEvent     (* notifyListeners calls, oldest first *)
}.

Inductive Completion (A : Type) := Returned (a : A) | Threw.
#[global] Arguments Returned {A} a.
#[global] Arguments Threw {A}.

(** [private truncateIfNeeded(): void] *)
Definition truncateIfNeeded (st : State) : State :=
  if decide (length (messages st) <= MAX_MESSAGES) then st
  else
    let firstMessage :=
      match messages st !! 0%nat with
      | Some r =>
          if decide (type (objects st r) = Some System) then [r] else []
      | None => []
      end in
    (* slice(-TRUNCATE_TO): the start index is max(length - 30, 0) *)
    let recentMessages :=
      drop (length (messages st) - TRUNCATE_TO) (messages st) in
    mkState (objects st) (firstMessage ++ recentMessages) (ids st) (notified st).

(** [add(message)]; the argument is [None] for [null] or [undefined]. *)
Definition add (message : option ref) (st : State)
    : Completion (option string) * State :=
  match message with
  | None => (Threw, st)
  | Some r =>
      let '(id, ids') := generateSnowflakeId (ids st) in
      let o := objects st r in
      let o1 := mkMessageObject (Some id) (type o) (content o) (metadata o) in
      let o2 :=
        match type o1 with
        | None => mkMessageObject (snowflakeId o1) (Some User) (content o1) (metadata o1)
        | Some _ => o1
        end in
      let o3 :=
        match metadata o2 with
        | None => mkMessageObject (snowflakeId o2) (type o2) (content o2) (Some ∅)
        | Some _ => o2
        end in
      let st1 :=
        mkState (<[r := o3]> (objects st)) (messages st ++ [r]) ids'
                (notified st ++ [MessagesChanged]) in
      let st2 := truncateIfNeeded st1 in
      (* return message.snowflakeId *)
      (Returned (snowflakeId (objects st2 r)), st2)
  end.

(** A sequence of [add] calls, exceptions caught by the caller. *)
Definition addAll (calls : list (option ref)) (st : State) : State :=
  foldl (fun s message => (add message s).2) st calls.

(** [new ChatHistory([])] over a given heap. *)
Definition emptyHistory (heap : ref -> MessageObject) (g : IdGen) : State :=
  mkState heap [] g [].

End WithExternals.

#[global] Arguments MessageObject : clear implicits.
#[global] Arguments State : clear implicits.

(** A concrete instance: counter-based ids, unit metadata values; object
    number 0 is a system prompt, every other object a bare content-only
    message. *)
Definition counterIds (n : nat) : string * nat :=
  (String.string_of_list_ascii (replicate (S n) (Ascii.ascii_of_nat 35)), S n).

Definition sampleHeap : ref -> MessageObject unit :=
  fun r =>
    match r with
    | O => mkMessageObject (Some "caller-id") (Some System) "system prompt" None
    | _ => mkMessageObject None None "turn" None
    end.

Definition sampleCalls (n : nat) : list (option ref) := Some <$> seq 0 n.

End ChatHistory.

(* ===================================================================== *)
(** * _backend/commandLexer.ts: the bracket-command lexer *)
(* ===================================================================== *)

Module CommandLexer.

(** Characters are code units below 256. *)
Definition LF : Ascii.ascii := Ascii.ascii_of_nat 10.
Definition quote : Ascii.ascii := Ascii.ascii_of_nat 34.
Definition backslash : Ascii.ascii := Ascii.ascii_of_nat 92.
Definition openBracket : Ascii.ascii := Ascii.ascii_of_nat 91.
Definition closeBracket : Ascii.ascii := Ascii.ascii_of_nat 93.

(** [/[A-Z]/.test(ch)] *)
Definition isUppercase (ch : Ascii.ascii) : bool :=
  (65 <=? Ascii.nat_of_ascii ch)%nat && (Ascii.nat_of_ascii ch <=? 90)%nat.

(** White space and line terminators stripped by [String.prototype.trim],
    among the code units below 256. *)
Definition isWhiteSpace (ch : Ascii.ascii) : bool :=
  let n := Ascii.nat_of_ascii ch in
  ((9 <=? n)%nat && (n <=? 13)%nat) || (n =? 32)%nat || (n =? 160)%nat.

Fixpoint trimStart (s : string) : string :=
  match s with
  | EmptyString => EmptyString
  | String ch s' => if isWhiteSpace ch then trimStart s' else s
  end.

Definition reverse (s : string) : string :=
  String.string_of_list_ascii (rev (String.list_ascii_of_string s)).

Definition trim (s : string) : string :=
  reverse (trimStart (reverse (trimStart s))).

(** [/^[A-Z]/.test(s)] *)
Definition startsUppercase (s : string) : bool :=
  match s with
  | EmptyString => false
  | String ch _ => isUppercase ch
  end.

(** [export class ReActCommand] *)
Record ReActCommand := mkReActCommand { type : string; args : list string }.

#[global] Instance ReActCommand_eq_dec : EqDecision ReActCommand.
Proof. solve_decision. Defined.

(** [peek]: the character at the position, [None] for the empty string
    returned at and beyond the end of the input. *)
Definition peek (input : string) (position : nat) : option Ascii.ascii :=
  String.get position input.

(** Every [while] loop below is bounded by [fuel]; running out of it is
    [None].  [next] is the successor on positions. *)

(** [while (this._position < input.length &&
            !uppercaseRegex.test(this.peek(input))) this.next(input)] *)
Fixpoint skipToUppercase (fuel : nat) (input : string) (position : nat)
    : option nat :=
  match fuel with
  | O => None
  | S fuel' =>
      match peek input position with
      | None => Some position
      | Some ch =>
          if isUppercase ch then Some position
          else skipToUppercase fuel' input (S position)
      end
  end.

(** The loop of [readUntil]; it ends at the end of the input or before an
    unescaped stop character. *)
Fixpoint readUntilLoop (fuel : nat) (input : string)
    (stopChars : list Ascii.ascii) (position : nat)
    (value : string) (escaped : bool) : option (string * nat) :=
  match fuel with
  | O => None
  | S fuel' =>
      match peek input position with
      | None => Some (value, position)
      | Some ch =>
          if Ascii.eqb ch LF then
            readUntilLoop fuel' input stopChars (S position)
              (value ++ String ch EmptyString)%string escaped
          else if existsb (Ascii.eqb ch) stopChars && negb escaped then
            Some (value, position)
          else if Ascii.eqb ch backslash && negb escaped then
            readUntilLoop fuel' input stopChars (S position) value true
          else
            readUntilLoop fuel' input stopChars (S position)
              (value ++ String ch EmptyString)%string false
      end
  end.

(** [private readUntil(input, stopChars): string] *)
Definition readUntil (fuel : nat) (input : string)
    (stopChars : list Ascii.ascii) (position : nat) : option (string * nat) :=
  '(value, position') ← readUntilLoop fuel input stopChars position EmptyString false;
  Some (trim value, position').

(** [while (this.peek(input) !== ']') { ... }] *)
Fixpoint readArgs (fuel : nat) (input : string) (position : nat)
    (args : list string) : option (list string * nat) :=
  match fuel with
  | O => None
  | S fuel' =>
      match peek input position with
      | None => Some (args, position)       (* position >= length: break *)
      | Some ch =>
          if Ascii.eqb ch closeBracket then Some (args, position)
          else if Ascii.eqb ch quote then
            '(arg, position') ← readUntil fuel' input [quote] (S position);
            readArgs fuel' input (S position') (args ++ [arg])
          else readArgs fuel' input (S position) args
      end
  end.

(** The first part of one turn of the outer loop: the command type, the
    arguments, and the position where the argument loop stopped. *)
Definition scanCommand (fuel : nat) (input : string) (position : nat)
    : option (string * list string * nat) :=
  p1 ← skipToUppercase fuel input position;
  '(value, p2) ← readUntil fuel input [openBracket] p1;
  let commandType := trim value in
  let p3 :=
    match peek input p2 with
    | Some ch => if Ascii.eqb ch openBracket then S p2 else p2
    | None => p2
    end in
  '(args, p4) ← readArgs fuel input p3 [];
  Some (commandType, args, p4).

(** [this.peek(input) === ']'] *)
Definition atCloseBracket (input : string) (position : nat) : bool :=
  match peek input position with
  | Some ch => Ascii.eqb ch closeBracket
  | None => false
  end.

(** The [else] branch: the last command, if there is one, gets the
    type and arguments just read. *)
Definition overwriteLast (commands : list ReActCommand)
    (commandType : string) (args : list string) : list ReActCommand :=
  if (0 <? length commands)%nat
  then <[(length commands - 1)%nat := mkReActCommand commandType args]> commands
  else commands.

(** One turn of the outer loop of [tokenize]. *)
Definition tokenizeStep (fuel : nat) (input : string) (position : nat)
    (commands : list ReActCommand) : option (nat * list ReActCommand) :=
  '(commandType, args, p4) ← scanCommand fuel input position;
  if atCloseBracket input p4 then
    Some (S p4,
          if negb (String.eqb commandType EmptyString)
             && startsUppercase commandType
          then commands ++ [mkReActCommand commandType args]
          else commands)
  else
    Some (p4, overwriteLast commands commandType args).

(** [while (this._position < input.length) { ... }] *)
Fixpoint tokenizeLoop (fuel : nat) (input : string) (position : nat)
    (commands : list ReActCommand) : option (list ReActCommand) :=
  match fuel with
  | O => None
  | S fuel' =>
      if (position <? String.length input)%nat then
        '(position', commands') ←
          tokenizeStep (S (String.length input)) input position commands;
        tokenizeLoop fuel' input position' commands'
      else Some commands
  end.

(** [tokenize(input)] starts from position 0 and no commands.  The fuel
    given is always enough (see [tokenizeRun_total]). *)
Definition tokenizeRun (input : string) : option (list ReActCommand) :=
  tokenizeLoop (S (String.length input)) input 0 [].

Definition tokenize (input : string) : list ReActCommand :=
  default [] (tokenizeRun input).

(** The states in which the outer loop tests its condition. *)
Inductive reaches (input : string) : nat -> list ReActCommand -> Prop :=
  | reaches_start : reaches input 0 []
  | reaches_step position commands position' commands' :
      reaches input position commands ->
      (position < String.length input)%nat ->
      tokenizeStep (S (String.length input)) input position commands
        = Some (position', commands') ->
      reaches input position' commands'.

(** [private hasCommandChanged(oldCmd, newCmd): boolean] *)
Definition hasCommandChanged (oldCmd newCmd : ReActCommand) : bool :=
  if negb (String.eqb (type oldCmd) (type newCmd)) then true
  else if negb (length (args oldCmd) =? length (args newCmd))%nat then true
  else
    existsb (fun i => negb (bool_decide (args oldCmd !! i = args newCmd !! i)))
            (seq 0 (length (args oldCmd))).

(** The lexer object: [_buffer] and [_commands] ([_position] is reset by
    every [tokenize] and carries nothing from call to call).  Each
    [tokenize] builds fresh command objects, so the previous list is not
    touched by the next pass. *)
Record Lexer := mkLexer { buffer : string; commands : list ReActCommand }.

Definition newLexer : Lexer := mkLexer EmptyString [].

(** [public append(ch: string): ReActCommand[]] *)
Definition append (lexer : Lexer) (ch : string) : list ReActCommand * Lexer :=
  let buffer' := (buffer lexer ++ ch)%string in
  let previousCommands := commands lexer in
  let previousCount := length previousCommands in
  let commands' := tokenize buffer' in
  let newCommands :=
    if (previousCount <? length commands')%nat
    then drop previousCount commands' else [] in
  let checkLength := Nat.min previousCount (length commands') in
  let changedCommands :=
    omap (fun i =>
            match previousCommands !! i, commands' !! i with
            | Some oldCmd, Some newCmd =>
                if hasCommandChanged oldCmd newCmd then Some newCmd else None
            | _, _ => None
            end)
         (seq 0 checkLength) in
  (newCommands ++ changedCommands, mkLexer buffer' commands').

Definition appendAll (lexer : Lexer) (chunks : list string) : Lexer :=
  foldl (fun lx ch => (append lx ch).2) lexer chunks.

(** The text appended so far: [this._buffer += ch] for every chunk. *)
Definition accumulated (chunks : list string) : string :=
  foldl String.append EmptyString chunks.

(** The positions of the new command list that the change-reporting rule
    of the specification selects: first those beyond the previous list,
    then those whose command differs from the previous one there. *)
Definition reportedPositions (previous current : list ReActCommand) : list nat :=
  seq (length previous) (length current - length previous)
  ++ filter (fun i => previous !! i <> current !! i)
            (seq 0 (Nat.min (length previous) (length current))).

(** Sample input: the complete command A with the argument x, a space,
    then the command B whose argument list stops after the argument y
    with neither closing quote nor closing bracket. *)
Definition q : string := String quote EmptyString.

Definition completeThenOpen : string :=
  String.concat q ["A["; "x"; "] B["; "y"].

End CommandLexer.

(* ===================================================================== *)
(** * context/ai-query.ts: debounced callbacks of chatStreamXml *)
(* ===================================================================== *)

Module AiQuery.

(** What the XML parser reports to the three closures handed to its
    constructor.  A content report carries the value [Date.now()] returns
    when the closure runs, so the clock is an input of the model. *)
Inductive ParserEvent :=
  | Content (now : Z) (tagName text : string)
  | TagOpen (tagName : string) (attributes : list (string * string))
  | TagEnd (tagName fullText : string).

(** Calls made to the caller's callbacks. *)
Inductive Callback :=
  | OnStream (tagName text : string)
  | OnTagOpen (tagName : string) (attributes : list (string * string))
  | OnTagEnd (tagName fullText : string).

#[global] Instance Callback_eq_dec : EqDecision Callback.
Proof. solve_decision. Defined.

(** Which of the optional callbacks the caller supplied. *)
Record Handlers := mkHandlers {
  hasOnStream : bool; hasOnTagOpen : bool; hasOnTagEnd : bool
}.

Record DebounceState := mkDebounce {
  streamBuffer : option (string * string);  (* { tagName, text } | null *)
  lastUpdateTime : Z
}.

Definition UPDATE_INTERVAL : Z := 16.

Definition initialDebounce : DebounceState := mkDebounce None 0.

(** [const flushBuffer = () => { ... }] *)
Definition flushBuffer (h : Handlers) (st : DebounceState)
    : list Callback * DebounceState :=
  (match streamBuffer st with
   | Some (tagName, text) => if hasOnStream h then [OnStream tagName text] else []
   | None => []
   end,
   mkDebounce None (lastUpdateTime st)).

(** The three closures given to [new Parser(...)]. *)
Definition handle (h : Handlers) (ev : ParserEvent) (st : DebounceState)
    : list Callback * DebounceState :=
  match ev with
  | Content now tagName text =>
      if (now - lastUpdateTime st <? UPDATE_INTERVAL)%Z
      then ([], mkDebounce (Some (tagName, text)) (lastUpdateTime st))
      else (if hasOnStream h then [OnStream tagName text] else [],
            mkDebounce (streamBuffer st) now)
  | TagOpen tagName attributes =>
      (if hasOnTagOpen h then [OnTagOpen tagName attributes] else [], st)
  | TagEnd tagName fullText =>
      let '(flushed, st') := flushBuffer h st in
      (flushed ++ (if hasOnTagEnd h then [OnTagEnd tagName fullText] else []),
       st')
  end.

Fixpoint handleAll (h : Handlers) (evs : list ParserEvent) (st : DebounceState)
    : list Callback * DebounceState :=
  match evs with
  | [] => ([], st)
  | ev :: evs' =>
      let '(out, st1) := handle h ev st in
      let '(outs, st2) := handleAll h evs' st1 in
      (out ++ outs, st2)
  end.

(** The callback trace of one [chatStreamXml] call whose parser reports
    [evs] and whose [await Ai.chatStream(...)] resolves: the events are
    handled in order and the buffer is flushed once more after the
    await. *)
Definition chatStreamXml (h : Handlers) (evs : list ParserEvent) : list Callback :=
  let '(outs, st) := handleAll h evs initialDebounce in
  outs ++ (flushBuffer h st).1.

(** The trace of a call whose [await Ai.chatStream(...)] rejects after
    the parser has reported [evs]: the call rejects with it (there is no
    [try] around the await) and the final [flushBuffer()] is never
    reached. *)
Definition chatStreamXmlRejected (h : Handlers) (evs : list ParserEvent)
    : list Callback :=
  (handleAll h evs initialDebounce).1.

Definition allHandlers : Handlers := mkHandlers true true true.

(** Three content updates of one tag, the second one inside the 16 ms
    window of the first, the third one outside it, then the tag end. *)
Definition staleUpdateStream : list ParserEvent :=
  [ Content 1000 "code" "a";
    Content 1005 "code" "ab";
    Content 1020 "code" "abc";
    TagEnd "code" "abc" ].

End AiQuery.

(* ===================================================================== *)
(** * JavaScript values produced by JSON.parse *)
(* ===================================================================== *)

Module Js.

#[warnings="-register-all"]
Inductive JsValue :=
  | Undefined
  | Null
  | Bool (b : bool)
  | Number (n : Q)
  | Str (s : string)
  | Arr (items : list JsValue)
  | Obj (fields : list (string * JsValue)).

(** The property names the stream handlers read.  None of them exists on
    the prototypes of arrays, strings, numbers or booleans, so on such
    values they read as [undefined]. *)
Inductive PropName := choices | delta | content.

Definition propKey (p : PropName) : string :=
  match p with choices => "choices" | delta => "delta" | content => "content" end.

(** Own property of an object literal (the parser keeps one entry per key). *)
Definition ownField (fields : list (string * JsValue)) (key : string) : JsValue :=
  match List.find (fun kv => String.eqb kv.1 key) fields with
  | Some kv => kv.2
  | None => Undefined
  end.

(** [v.p]; [None] stands for the TypeError raised on [undefined] and [null]. *)
Definition getProp (v : JsValue) (p : PropName) : option JsValue :=
  match v with
  | Undefined | Null => None
  | Obj fields => Some (ownField fields (propKey p))
  | _ => Some Undefined
  end.

(** [v[0]] *)
Definition getIndex0 (v : JsValue) : option JsValue :=
  match v with
  | Undefined | Null => None
  | Obj fields => Some (ownField fields "0")
  | Arr items => Some (default Undefined (items !! 0%nat))
  | Str (String c _) => Some (Str (String c EmptyString))
  | _ => Some Undefined
  end.

(** ToBoolean *)
Definition truthy (v : JsValue) : bool :=
  match v with
  | Undefined | Null => false
  | Bool b => b
  | Number n => negb (Qeq_bool n 0)
  | Str s => negb (String.eqb s "")
  | Arr _ | Obj _ => true
  end.

Section ToString.
(** Number formatting is the engine's; it is taken as given. *)
Variable numberToString : Q -> string.

(** ToString, as applied by [text += value]. *)
Fixpoint toString (v : JsValue) : string :=
  match v with
  | Undefined => "undefined"
  | Null => "null"
  | Bool true => "true"
  | Bool false => "false"
  | Number n => numberToString n
  | Str s => s
  | Arr items =>
      String.concat ","
        (List.map (fun x => match x with
                            | Undefined | Null => EmptyString
                            | _ => toString x
                            end) items)
  | Obj _ => "[object Object]"
  end.
End ToString.

(** [json.choices[0].delta.content]; [None] when the chain throws. *)
Definition deltaContent (json : JsValue) : option JsValue :=
  c ← getProp json choices;
  c0 ← getIndex0 c;
  d ← getProp c0 delta;
  getProp d content.

(** [a && b] on values: [a] when it is falsy, otherwise [b]. *)
Definition andThen (a : option JsValue) (b : JsValue -> option JsValue)
    : option JsValue :=
  v ← a; if truthy v then b v else Some v.

(** [json.choices && json.choices[0] && json.choices[0].delta &&
    json.choices[0].delta.content] *)
Definition guardedDeltaContent (json : JsValue) : option JsValue :=
  andThen (getProp json choices) (fun c =>
  andThen (getIndex0 c) (fun c0 =>
  andThen (getProp c0 delta) (fun d =>
  getProp d content))).

End Js.

(* ===================================================================== *)
(** * Double-precision rounding *)
(* ===================================================================== *)

Module Double.

(** JavaScript numbers are IEEE 754 doubles: the result of an arithmetic
    operation is the exact result rounded to the nearest number with a
    53-bit significand, ties going to the even significand.  The exponent
    range is not modelled (no overflow to Infinity, no subnormal
    numbers); the delays computed below are far from both. *)

(** The integer nearest to [x], ties to even. *)
Definition roundHalfEven (x : Q) : Z :=
  let f := Qfloor x in
  match (x - inject_Z f ?= 1 # 2)%Q with
  | Lt => f
  | Gt => (f + 1)%Z
  | Eq => if Z.even f then f else (f + 1)%Z
  end.

(** For [0 < x], the exponent [k] with [2^k <= x < 2^(k+1)]. *)
Definition exponentOf (x : Q) : Z :=
  let k := (Z.log2 (Qnum x) - Z.log2 (Zpos (Qden x)))%Z in
  if Qle_bool (2 ^ k) x then k else (k - 1)%Z.

(** For [0 < x]: the significand [x / 2^e] lies in [[2^52, 2^53)] and is
    rounded to an integer. *)
Definition roundPositive (x : Q) : Q :=
  let e := (exponentOf x - 52)%Z in
  (inject_Z (roundHalfEven (x / 2 ^ e)) * 2 ^ e)%Q.

Definition round (x : Q) : Q :=
  match (x ?= 0)%Q with
  | Eq => 0%Q
  | Gt => roundPositive x
  | Lt => (- roundPositive (- x))%Q
  end.

End Double.

(* ===================================================================== *)
(** * The event-stream transport (directChatOpenAi) *)
(* ===================================================================== *)

Module AiApi.
Import Js.

(** ** Retry configuration and backoff *)

Record RetryConfig := mkRetryConfig {
  maxRetries : Z;
  initialDelayMs : Q;
  maxDelayMs : Q;
  backoffMultiplier : Q;
  jitterMs : Q
}.

Definition RETRY_CONFIG : RetryConfig := mkRetryConfig 3 1000 10000 2 500.

(** [calculateRetryDelay(attemptNumber)].  The value [Math.random()]
    returns is the argument [random].  Every arithmetic operation yields
    a double: the power, the two products and the final sum are rounded
    ([Math.min] returns one of its arguments).  A power too large for a
    double is Infinity in the source and a large number here; the
    minimum is [maxDelayMs] in both cases. *)
Definition calculateRetryDelay (cfg : RetryConfig) (attemptNumber : Z)
    (random : Q) : Q :=
  let delay :=
    Qmin (Double.round
            (initialDelayMs cfg
             * Double.round (backoffMultiplier cfg ^ attemptNumber)))
         (maxDelayMs cfg) in
  let jitter := Double.round (random * jitterMs cfg) in
  Double.round (delay + jitter).

(** [min(maxDelayMs, initialDelayMs * backoffMultiplier^n)], computed
    exactly. *)
Definition cappedBackoff (cfg : RetryConfig) (attemptNumber : Z) : Q :=
  Qmin (maxDelayMs cfg)
       (initialDelayMs cfg * backoffMultiplier cfg ^ attemptNumber).

(** The delay as the specification words it: the capped power plus a
    jitter taken from [[0, jitterMs)]. *)
Definition delayIsBasePlusJitter (cfg : RetryConfig) (attemptNumber : Z)
    (random : Q) : Prop :=
  exists jitter : Q,
    (0 <= jitter)%Q /\ (jitter < jitterMs cfg)%Q /\
    (calculateRetryDelay cfg attemptNumber random
     == cappedBackoff cfg attemptNumber + jitter)%Q.

(** Two values [Math.random()] can return: [1 - 2^-52], and the largest
    double below 1, [1 - 2^-53]. *)
Definition almostOne : Q := 1 - (1 # 4503599627370496).
Definition largestBelowOne : Q := 1 - (1 # 9007199254740992).

(** ** [onopen] *)

Record Response := mkResponse {
  status : Z;
  contentType : option string     (* headers.get('content-type') *)
}.

(** [response.ok] *)
Definition ok (r : Response) : bool := (200 <=? status r)%Z && (status r <=? 299)%Z.

Definition EventStreamContentType : string := "text/event-stream".

(** [haystack.includes(needle)] *)
Definition includes (haystack needle : string) : bool :=
  match String.index 0 needle haystack with Some _ => true | None => false end.

Inductive OpenResult := Opened | Thrown (errText : string).

Definition classifyStatus (r : Response) : OpenResult :=
  if (400 <=? status r)%Z && (status r <? 500)%Z && negb (status r =? 429)%Z
  then Thrown "FatalError"
  else Thrown "RetriableError".

(** The text of the TypeError raised by [null.includes(...)] differs
    between engines; all that matters is that it is neither of the two
    strings [onopen] throws. *)
Definition nullHeaderError : string := "TypeError".

Definition onopen (r : Response) : OpenResult :=
  if ok r then
    match contentType r with
    | None => Thrown nullHeaderError
    | Some ct => if includes ct EventStreamContentType then Opened
                 else classifyStatus r
    end
  else classifyStatus r.

(** ** [onerror] *)

Record RetryState := mkRetryState { tries : Z; currentAttempt : Z }.

Inductive OnError := RetryAfter (delay : Q) | Rethrow (thrown : string).

Definition fatalToast : string :=
  "AI request failed. Please check your API key and try again.".
Definition busyToast : string :=
  "AI service is experiencing high traffic. Please try again in a few moments.".
Definition busyError : string :=
  "Apologies, the AI service is currently facing heavy traffic, causing delays in processing requests. Please be patient and try again later.".
Definition networkToast : string :=
  "Network connection failed. Please check your internet connection.".

(** [onerror(err)], with [errText = err.toString()] and [random] the
    value of [Math.random()] should a delay be computed.  The result is
    the returned delay or the thrown value, the new counters and the
    toasts shown. *)
Definition onerror (cfg : RetryConfig) (errText : string) (random : Q)
    (st : RetryState) : OnError * RetryState * list string :=
  if decide (errText = "FatalError") then
    (Rethrow errText, st, [fatalToast])
  else if decide (errText = "RetriableError") then
    if (tries st <=? 0)%Z then (Rethrow busyError, st, [busyToast])
    else
      let st' := mkRetryState (tries st - 1) (currentAttempt st + 1) in
      (RetryAfter (calculateRetryDelay cfg (currentAttempt st') random), st', [])
  else
    if (tries st <=? 0)%Z then (Rethrow errText, st, [networkToast])
    else
      let st' := mkRetryState (tries st - 1) (currentAttempt st + 1) in
      (RetryAfter (calculateRetryDelay cfg (currentAttempt st') random), st', []).

(** ** The retry loop of [fetchEventSource]

    The library is a dependency, not part of the sources.  Its documented
    contract is all that is used: each connection attempt fetches and
    calls [onopen]; an error goes to [onerror]; a number returned by
    [onerror] is the time to wait before the next attempt, and an
    exception thrown by it stops the operation and rejects the promise
    ("rethrow to stop the operation" in the source). *)

Inductive Attempt :=
  | FetchFails (errText : string)   (* fetch itself rejects *)
  | Responds (r : Response)         (* a response whose body, once the
                                       stream is opened, is read to its end *)
  | RespondsThenFails (r : Response) (errText : string).
                                    (* a response whose body cannot be read
                                       to its end: no body at all, or a
                                       connection that drops; [errText] is
                                       the error the library then catches *)

(** The error, if any, with which the connection attempt ends.  An error
    raised after [onopen] has accepted the response goes to [onerror]
    like any other. *)
Definition attemptError (a : Attempt) : option string :=
  match a with
  | FetchFails e => Some e
  | Responds r => match onopen r with Opened => None | Thrown e => Some e end
  | RespondsThenFails r e =>
      match onopen r with Opened => Some e | Thrown e' => Some e' end
  end.

Inductive Outcome := Resolved | Rejected (thrown : string).

Record Run := mkRun {
  attempts : nat;           (* connection attempts made *)
  outcome : Outcome;
  delays : list Q;          (* waits between attempts, in order *)
  toasts : list string
}.

(** [n] attempts have been made so far; attempt number [n] (from 0) asks
    the transport what happens.  The counters [tries] and
    [currentAttempt] live across the attempts. *)
Fixpoint fetchLoop (cfg : RetryConfig) (fuel : nat)
    (transport : nat -> Attempt) (random : nat -> Q)
    (n : nat) (st : RetryState) (waits : list Q) (shown : list string)
    : option Run :=
  match fuel with
  | O => None
  | S fuel' =>
      match attemptError (transport n) with
      | None => Some (mkRun (S n) Resolved waits shown)
      | Some e =>
          let '(res, st', ts) := onerror cfg e (random n) st in
          match res with
          | Rethrow t => Some (mkRun (S n) (Rejected t) waits (shown ++ ts))
          | RetryAfter d =>
              fetchLoop cfg fuel' transport random (S n) st'
                        (waits ++ [d]) (shown ++ ts)
          end
      end
  end.

(** [let tries = RETRY_CONFIG.maxRetries; let currentAttempt = 0;
    await fetchEventSource(...)] *)
Definition directChatOpenAi (cfg : RetryConfig)
    (transport : nat -> Attempt) (random : nat -> Q) : option Run :=
  fetchLoop cfg (S (Z.to_nat (maxRetries cfg))) transport random 0
            (mkRetryState (maxRetries cfg) 0) [] [].

(** ** [onmessage] *)

Section Messages.
(** [JSON.parse] is the engine's; [None] stands for its SyntaxError. *)
Variable JSON_parse : string -> option JsValue.
Variable numberToString : Q -> string.

Record StreamState := mkStreamState {
  fullText : string;
  completionTokenCount : nat;
  aborted : bool                (* controller.abort() has been called *)
}.

Inductive Effect :=
  | StreamCall (text : string) (fragment : JsValue)  (* onStream(fullText, delta) *)
  | ConsoleError
  | ToastError (message : string).

Definition invalidResponseToast : string :=
  "Received invalid response from AI service. Please try again.".

Definition isStreamCall (e : Effect) : bool :=
  match e with StreamCall _ _ => true | _ => false end.

(** [onmessage(ev)] with [data = ev.data].  The caller's [onStream] is
    taken not to throw. *)
Definition onmessage (hasOnStream : bool) (data : string) (st : StreamState)
    : list Effect * StreamState :=
  if decide (data = "[DONE]") then
    ([], mkStreamState (fullText st) (completionTokenCount st) true)
  else
    match JSON_parse data with
    | None => ([ConsoleError; ToastError invalidResponseToast], st)
    | Some json =>
        match deltaContent json with
        | None => ([ConsoleError; ToastError invalidResponseToast], st)
        | Some d =>
            if truthy d then
              let text := (fullText st ++ toString numberToString d)%string in
              (if hasOnStream then [StreamCall text d] else [],
               mkStreamState text (S (completionTokenCount st)) (aborted st))
            else ([], st)
        end
    end.

(** The events the library hands to [onmessage], in order. *)
Fixpoint deliver (hasOnStream : bool) (events : list string) (st : StreamState)
    : list Effect * StreamState :=
  match events with
  | [] => ([], st)
  | data :: rest =>
      let '(out, st1) := onmessage hasOnStream data st in
      let '(outs, st2) := deliver hasOnStream rest st1 in
      (out ++ outs, st2)
  end.

(** The library reads the response body chunk by chunk and hands the
    events a chunk completes to [onmessage] one after the other, in one
    synchronous pass.  [controller.abort()] makes the next read fail, and
    the library then resolves without calling [onerror]: the events of the
    chunk under way are all handed over, later chunks are never read. *)
Fixpoint deliverChunks (hasOnStream : bool) (chunks : list (list string))
    (st : StreamState) : list Effect * StreamState :=
  match chunks with
  | [] => ([], st)
  | events :: rest =>
      let '(out, st1) := deliver hasOnStream events st in
      if aborted st1 then (out, st1)
      else
        let '(outs, st2) := deliverChunks hasOnStream rest st1 in
        (out ++ outs, st2)
  end.

(** The sentinel as the specification words it: the stream is over once
    it has been observed, so nothing that follows it is passed to
    [onStream]. *)
Definition nothingForwardedAfterDone (hasOnStream : bool)
    (pre post : list string) (st : StreamState) : Prop :=
  filter isStreamCall
    (deliverChunks hasOnStream [pre ++ "[DONE]" :: post] st).1
  = filter isStreamCall
      (deliverChunks hasOnStream [pre ++ ["[DONE]"]] st).1.

(** An event that is not parseable JSON or lacks the
    [choices[0].delta.content] shape: parsing throws, or the property
    chain throws, or it ends in [undefined]. *)
Definition malformed (data : string) : Prop :=
  JSON_parse data = None
  \/ exists json, JSON_parse data = Some json /\
       (deltaContent json = None \/ deltaContent json = Some Undefined).

End Messages.

Definition initialStream : StreamState := mkStreamState "" 0 false.

(** Sample transports: a server that always answers 503, one that answers
    503 once and then opens the event stream, and one that answers 401. *)
Definition alwaysBusy : nat -> Attempt :=
  fun _ => Responds (mkResponse 503 None).

Definition busyOnce : nat -> Attempt :=
  fun k => match k with
           | O => Responds (mkResponse 503 None)
           | _ => Responds (mkResponse 200 (Some "text/event-stream; charset=utf-8"))
           end.

Definition unauthorized : nat -> Attempt :=
  fun _ => Responds (mkResponse 401 (Some "application/json")).

(** A server that answers 503, then accepts the request with an empty
    body (204), then answers 401. *)
Definition busyEmptyUnauthorized : nat -> Attempt :=
  fun k => match k with
           | O => Responds (mkResponse 503 None)
           | S O => RespondsThenFails
                      (mkResponse 204 (Some "text/event-stream"))
                      "TypeError: Cannot read properties of null"
           | _ => Responds (mkResponse 401 (Some "application/json"))
           end.

Definition noJitter : nat -> Q := fun _ => 0%Q.

(** A stand-in for [JSON.parse] on four event payloads: a well-formed
    delta, [null], an object without choices, and text that is no JSON. *)
Definition dq : string := String (Ascii.ascii_of_nat 34) EmptyString.

Definition helloEvent : string :=
  String.concat dq
    ["{"; "choices"; ":[{"; "delta"; ":{"; "content"; ":"; "Hello"; "}}]}"].

Definition sampleParse (data : string) : option JsValue :=
  if decide (data = helloEvent) then
    Some (Obj [("choices", Arr [Obj [("delta", Obj [("content", Str "Hello")])]])])
  else if decide (data = "null") then Some Null
  else if decide (data = "{}") then Some (Obj [])
  else None.

Definition sampleNumberToString (n : Q) : string := "0".

End AiApi.

(* ===================================================================== *)
(** * The OpenRouter node: reading the streamed response (browser path) *)
(* ===================================================================== *)

Module OpenRouterNode.
Import Js.

Definition LF : Ascii.ascii := Ascii.ascii_of_nat 10.

(** [s.split('\n')], with [cur] the piece being collected. *)
Fixpoint splitFrom (s cur : string) : list string :=
  match s with
  | EmptyString => [cur]
  | String c s' =>
      if Ascii.eqb c LF then cur :: splitFrom s' EmptyString
      else splitFrom s' (cur ++ String c EmptyString)%string
  end.

Definition split (s : string) : list string := splitFrom s EmptyString.

Section Node.
Variable JSON_parse : string -> option JsValue.
Variable numberToString : Q -> string.

(** The fields of [this._internal] the reader touches. *)
Record Internal := mkInternal {
  streamingText : string;
  fullResponse : string;
  messages : list (string * string);    (* { role, content } *)
  userMessage : string
}.

Inductive NodeEffect :=
  | FlagOutputDirty (output : string)
  | SendSignalOnOutput (output : string).

(** What the [[DONE]] branch does before it returns. *)
Definition complete (st : Internal) : list NodeEffect * Internal :=
  ([FlagOutputDirty "fullResponse"; SendSignalOnOutput "completed"],
   mkInternal (streamingText st) (streamingText st)
     (messages st ++ [("user", userMessage st);
                       ("assistant", streamingText st)])
     (userMessage st)).

(** The body of the [for] loop for one line; the boolean tells whether
    the callback returned from inside the loop. *)
Definition handleLine (line : string) (st : Internal)
    : bool * list NodeEffect * Internal :=
  if String.prefix "data: " line then
    let data := String.substring 6 (String.length line - 6) line in
    if decide (data = "[DONE]") then
      let '(out, st') := complete st in (true, out, st')
    else
      match JSON_parse data with
      | None => (false, [], st)              (* catch (e) { } *)
      | Some json =>
          match guardedDeltaContent json with
          | None => (false, [], st)          (* catch (e) { } *)
          | Some d =>
              if truthy d then
                (false,
                 [FlagOutputDirty "response"; SendSignalOnOutput "streaming"],
                 mkInternal
                   (streamingText st ++ toString numberToString d)%string
                   (fullResponse st) (messages st) (userMessage st))
              else (false, [], st)
          end
      end
  else (false, [], st).

(** [for (var i = 0; i < lines.length; i++) { ... }] *)
Fixpoint processLines (lines : list string) (st : Internal)
    : bool * list NodeEffect * Internal :=
  match lines with
  | [] => (false, [], st)
  | line :: rest =>
      let '(returned, out, st1) := handleLine line st in
      if returned then (true, out, st1)
      else
        let '(returned', outs, st2) := processLines rest st1 in
        (returned', out ++ outs, st2)
  end.

(** [readChunk()]: the decoded chunks the reader still has to deliver are
    the list [chunks]; the empty list is [result.done]. *)
Fixpoint readChunk (chunks : list string) (buffer : string) (st : Internal)
    : list NodeEffect * Internal :=
  match chunks with
  | [] => ([], st)
  | chunk :: rest =>
      let lines := split (buffer ++ chunk)%string in
      (* buffer = lines.pop(); [split] never returns the empty list *)
      let buffer' := List.last lines EmptyString in
      let lines' := removelast lines in
      let '(returned, out, st1) := processLines lines' st in
      if returned then (out, st1)
      else
        let '(outs, st2) := readChunk rest buffer' st1 in
        (out ++ outs, st2)
  end.

End Node.

Definition doneLine : string := "data: [DONE]".

End OpenRouterNode.

(* ===================================================================== *)
(** * ChatHistory: activities, updateLast, clear, removeLast, JSON *)
(* ===================================================================== *)

Module ChatHistoryOps.
Import ChatHistory.

(** [type ChatHistoryActivity = { id; name; status? }] *)
Record ChatHistoryActivity := mkActivity {
  activityId : string;
  activityName : string;
  activityStatus : option string
}.

#[global] Instance ChatHistoryActivity_eq_dec : EqDecision ChatHistoryActivity.
Proof. solve_decision. Defined.

Section WithExternals.
Context {Unknown IdGen : Type}.

(** The whole object: the message log modelled above (with the heap, the
    id generator and the log of notifications), [_activities] and
    [_metadata]. *)
Record History := mkHistory {
  log : State Unknown IdGen;
  activities : list ChatHistoryActivity;
  historyMetadata : gmap string Unknown
}.

Definition notify (e : ChatHistoryEvent) (st : State Unknown IdGen)
    : State Unknown IdGen :=
  mkState (objects st) (messages st) (ids st) (notified st ++ [e]).

(** [addActivity(activity)] *)
Definition addActivity (activity : ChatHistoryActivity) (h : History) : History :=
  mkHistory (notify ActivitiesChanged (log h))
            (activities h ++ [activity]) (historyMetadata h).

(** [removeActivity(activityId)] *)
Definition removeActivity (id : string) (h : History) : History :=
  let filtered := filter (fun x => activityId x <> id) (activities h) in
  if decide (length filtered <> length (activities h))
  then mkHistory (notify ActivitiesChanged (log h)) filtered (historyMetadata h)
  else mkHistory (log h) filtered (historyMetadata h).

(** [clearActivities()] *)
Definition clearActivities (h : History) : History :=
  if decide (length (activities h) = 0%nat) then h
  else mkHistory (notify ActivitiesChanged (log h)) [] (historyMetadata h).

(** The argument of [updateLast]:
    [Partial<Pick<ChatMessage, 'content' | 'metadata'>>]. *)
Record UpdateData := mkUpdateData {
  newContent : option string;
  newMetadata : option (gmap string Unknown)
}.

(** [if (data.content)]: a present, non-empty string. *)
Definition contentGiven (d : UpdateData) : option string :=
  match newContent d with
  | Some s => if decide (s = EmptyString) then None else Some s
  | None => None
  end.

(** [updateLast(data?)]; [None] is a call without argument.  Reading a
    field of [undefined] (no argument, or no last message while there is
    something to store) raises a TypeError before anything is changed. *)
Definition updateLast (data : option UpdateData) (st : State Unknown IdGen)
    : Completion unit * State Unknown IdGen :=
  match data with
  | None => (Threw, st)
  | Some d =>
      match last (messages st) with
      | None =>
          match contentGiven d, newMetadata d with
          | None, None => (Returned (), notify MessagesChanged st)
          | _, _ => (Threw, st)
          end
      | Some r =>
          let o := objects st r in
          let o1 :=
            match contentGiven d with
            | Some s => mkMessageObject (snowflakeId o) (type o) s (metadata o)
            | None => o
            end in
          let o2 :=
            match newMetadata d with
            | Some m =>
                (* { ...old, ...data.metadata }: the new entries win *)
                mkMessageObject (snowflakeId o1) (type o1) (content o1)
                  (Some (m ∪ default ∅ (metadata o1)))
            | None => o1
            end in
          (Returned (),
           notify MessagesChanged
             (mkState (<[r := o2]> (objects st)) (messages st) (ids st)
                      (notified st)))
      end
  end.

(** [clear()]: [this._messages.length = 0] *)
Definition clear (st : State Unknown IdGen) : State Unknown IdGen :=
  mkState (objects st) [] (ids st) (notified st).

(** [removeLast()]: [this._messages.pop()] *)
Definition removeLast (st : State Unknown IdGen) : State Unknown IdGen :=
  mkState (objects st) (removelast (messages st)) (ids st) (notified st).

(** The value [toJSON] returns and [fromJSON] reads; a field is [None]
    when it is missing, [undefined] or [null]. *)
Record HistoryJson := mkHistoryJson {
  jsonHistory : option (list ref);
  jsonMetadata : option (gmap string Unknown)
}.

(** [toJSON()] *)
Definition toJSON (h : History) : HistoryJson :=
  mkHistoryJson (Some (messages (log h))) (Some (historyMetadata h)).

(** [constructor(items, metadata = {})], over the ambient heap and id
    generator: [items || []], [metadata || {}], no activities. *)
Definition construct (heap : ref -> MessageObject Unknown) (g : IdGen)
    (items : option (list ref)) (metadata : option (gmap string Unknown))
    : History :=
  mkHistory (mkState heap (default [] items) g [])
            [] (default ∅ metadata).

(** [static fromJSON(json: any)]: [json?.history], [json?.metadata]. *)
Definition fromJSON (heap : ref -> MessageObject Unknown) (g : IdGen)
    (json : option HistoryJson) : History :=
  construct heap g (json ≫= jsonHistory) (json ≫= jsonMetadata).

End WithExternals.

#[global] Arguments History : clear implicits.
#[global] Arguments UpdateData : clear implicits.
#[global] Arguments HistoryJson : clear implicits.

End ChatHistoryOps.

(* ===================================================================== *)
(** * context/ai-query.ts: chatReAct, and measures on lexer input *)
(* ===================================================================== *)

Module ReAct.
Import Js AiApi CommandLexer.

(** A command as [tokenize] pushes it: [commandType !== ''] and
    [/^[A-Z]/.test(commandType)]. *)
Definition wellFormed (c : ReActCommand) : Prop :=
  type c <> EmptyString /\ startsUppercase (type c) = true.

(** The number of positions of the input that hold a closing bracket. *)
Definition closeBracketsBefore (input : string) (position : nat) : nat :=
  length (filter (fun i => atCloseBracket input i = true) (seq 0 position)).

Definition countCloseBrackets (input : string) : nat :=
  closeBracketsBefore input (String.length input).

Section ChatReAct.
Variable JSON_parse : string -> option JsValue.
Variable numberToString : Q -> string.

(** The [onStream] callback of [chatReAct]:
    [(_, text) => { if (text) { fullText += text; parser.append(text); } }] *)
Definition onStreamReAct (acc : string * Lexer) (text : JsValue)
    : string * Lexer :=
  if truthy text then
    ((acc.1 ++ toString numberToString text)%string,
     (append acc.2 (toString numberToString text)).2)
  else acc.

Definition onEffectReAct (acc : string * Lexer) (e : Effect) : string * Lexer :=
  match e with
  | StreamCall _ fragment => onStreamReAct acc fragment
  | _ => acc
  end.

(** [chatReAct]: the lexer is fed by the [onStream] calls the transport
    makes for the events of the stream; the result is
    [{ commands: parser.commands, fullText }]. *)
Definition chatReAct (events : list string) : list ReActCommand * string :=
  let calls := (deliver JSON_parse numberToString true events initialStream).1 in
  let acc := foldl onEffectReAct (EmptyString, newLexer) calls in
  (commands acc.2, acc.1).

End ChatReAct.

End ReAct.

(* ===================================================================== *)
(** * Views of a delivered stream, and retryDatabaseFetch *)
(* ===================================================================== *)

Module StreamViews.
Import Js AiApi.

(** The fragments and the texts passed to [onStream], in call order. *)
Definition fragmentsOf (out : list Effect) : list JsValue :=
  omap (fun e => match e with StreamCall _ d => Some d | _ => None end) out.

Definition callTexts (out : list Effect) : list string :=
  omap (fun e => match e with StreamCall t _ => Some t | _ => None end) out.

Section Join.
Variable numberToString : Q -> string.

(** [fullText += delta], fragment after fragment. *)
Definition joinFragments (text : string) (fragments : list JsValue) : string :=
  foldl (fun t d => (t ++ toString numberToString d)%string) text fragments.

(** The text after each fragment. *)
Fixpoint runningTexts (text : string) (fragments : list JsValue) : list string :=
  match fragments with
  | [] => []
  | d :: rest =>
      let text' := (text ++ toString numberToString d)%string in
      text' :: runningTexts text' rest
  end.
End Join.

End StreamViews.

Module DatabaseSchemaExtractor.

(** [retryDatabaseFetch(maxRetries = 2)].  The outcome of the call
    [schema._fetch()] made in attempt [k] is [fetch k] ([true]: it
    resolves, [false]: it throws).  [remaining] counts the turns the
    [for (attempt = 0; attempt <= maxRetries; attempt++)] loop can still
    take.  The result is the returned boolean, the number of fetches made
    and the waits in milliseconds, in order. *)
Fixpoint retryLoop (remaining : nat) (attempt : nat) (maxRetries : Z)
    (fetch : nat -> bool) (waits : list Z) : bool * nat * list Z :=
  match remaining with
  | O => (false, attempt, waits)
  | S remaining' =>
      if fetch attempt then (true, S attempt, waits)
      else
        let waits' :=
          if (Z.of_nat attempt <? maxRetries)%Z
          then waits ++ [(1000 * 2 ^ Z.of_nat attempt)%Z]
          else waits in
        retryLoop remaining' (S attempt) maxRetries fetch waits'
  end.

Definition retryDatabaseFetch (maxRetries : Z) (fetch : nat -> bool)
    : bool * nat * list Z :=
  retryLoop (Z.to_nat (maxRetries + 1)) 0 maxRetries fetch [].

Definition sumZ (l : list Z) : Z := foldr Z.add 0%Z l.

End DatabaseSchemaExtractor.

(* ===================================================================== *)
(** * Views of parser events; the rest of the OpenRouter node *)
(* ===================================================================== *)

Module AiQueryViews.
Import AiQuery.

Definition isStream (c : Callback) : bool :=
  match c with OnStream _ _ => true | _ => false end.

Definition isContent (ev : ParserEvent) : bool :=
  match ev with Content _ _ _ => true | _ => false end.

(** The callback a parser event stands for when nothing is held back. *)
Definition directCallback (ev : ParserEvent) : Callback :=
  match ev with
  | Content _ tagName text => OnStream tagName text
  | TagOpen tagName attributes => OnTagOpen tagName attributes
  | TagEnd tagName fullText => OnTagEnd tagName fullText
  end.

(** The call a flush would make in this state. *)
Definition held (st : DebounceState) : list Callback :=
  match streamBuffer st with
  | Some (t, x) => [OnStream t x]
  | None => []
  end.

(** Every content event comes at least [UPDATE_INTERVAL] after the
    content event before it (after [last] for the first one). *)
Fixpoint wellSpaced (last : Z) (evs : list ParserEvent) : Prop :=
  match evs with
  | [] => True
  | Content now _ _ :: rest =>
      (UPDATE_INTERVAL <= now - last)%Z /\ wellSpaced now rest
  | _ :: rest => wellSpaced last rest
  end.

End AiQueryViews.

Module OpenRouterNodeMore.
Import Js OpenRouterNode.

Section Node.
Variable JSON_parse : string -> option JsValue.
Variable numberToString : Q -> string.

(** The settings of [this._internal] that [sendMessage] reads besides
    the fields of [Internal]. *)
Record Settings := mkSettings { apiKey : string; systemPrompt : string }.

(** [sendMessage()] up to the request: the effects, the new internal
    state, and the messages of the request body ([None]: no request is
    made). *)
Definition sendMessage (cfg : Settings) (st : Internal)
    : list NodeEffect * Internal * option (list (string * string)) :=
  if decide (apiKey cfg = EmptyString) then
    ([SendSignalOnOutput "error"], st, None)
  else if decide (userMessage st = EmptyString) then
    ([SendSignalOnOutput "error"], st, None)
  else
    let copy := messages st in
    let withSystem :=
      if decide (systemPrompt cfg = EmptyString) then copy
      else ("system", systemPrompt cfg) :: copy in
    let request := withSystem ++ [("user", userMessage st)] in
    ([],
     mkInternal EmptyString (fullResponse st) (messages st) (userMessage st),
     Some request).

(** The cloud-runtime branch: the whole response text is split and every
    line is handled; deltas raise no signal there. *)
Definition handleLineCloud (line : string) (st : Internal)
    : bool * list NodeEffect * Internal :=
  if String.prefix "data: " line then
    let data := String.substring 6 (String.length line - 6) line in
    if decide (data = "[DONE]") then
      let '(out, st') := complete st in (true, out, st')
    else
      match JSON_parse data with
      | None => (false, [], st)
      | Some json =>
          match guardedDeltaContent json with
          | None => (false, [], st)
          | Some d =>
              if truthy d then
                (false, [],
                 mkInternal
                   (streamingText st ++ toString numberToString d)%string
                   (fullResponse st) (messages st) (userMessage st))
              else (false, [], st)
          end
      end
  else (false, [], st).

Fixpoint processLinesCloud (lines : list string) (st : Internal)
    : bool * list NodeEffect * Internal :=
  match lines with
  | [] => (false, [], st)
  | line :: rest =>
      let '(returned, out, st1) := handleLineCloud line st in
      if returned then (true, out, st1)
      else
        let '(returned', outs, st2) := processLinesCloud rest st1 in
        (returned', out ++ outs, st2)
  end.

(** [response.text().then(function (text) { ... })] *)
Definition readTextCloud (text : string) (st : Internal)
    : list NodeEffect * Internal :=
  let '(returned, out, st1) := processLinesCloud (split text) st in
  if returned then (out, st1)
  else
    (out ++ [FlagOutputDirty "response"; FlagOutputDirty "fullResponse";
             SendSignalOnOutput "completed"],
     st1).

End Node.

Definition completedSignal : NodeEffect := SendSignalOnOutput "completed".

(** The text of a list of chunks. *)
Definition joinChunks (chunks : list string) : string :=
  foldr String.append EmptyString chunks.

(** No line feed in the string. *)
Fixpoint noLineFeed (s : string) : Prop :=
  match s with
  | EmptyString => True
  | String c s' => Ascii.eqb c LF = false /\ noLineFeed s'
  end.

End OpenRouterNodeMore.

(* ===================================================================== *)
(** * Properties of history truncation *)
(* ===================================================================== *)

Module TruncationProps.
Import HistoryTruncation.

Lemma Qgt_bool_true (a b : Q) : Qgt_bool a b = true -> (b < a)%Q.
Proof.
  unfold Qgt_bool. intros H. apply negb_true_iff in H.
  destruct (Qlt_le_dec b a) as [Hlt|Hle]; [exact Hlt|].
  apply Qle_bool_iff in Hle. congruence.
Qed.

Lemma Qgt_bool_false (a b : Q) : Qgt_bool a b = false -> (a <= b)%Q.
Proof.
  unfold Qgt_bool. intros H. apply negb_false_iff in H.
  by apply Qle_bool_iff.
Qed.

Lemma messageTokensOf_nonneg (m : ChatMessage) : (0 <= messageTokensOf m)%Q.
Proof.
  unfold messageTokensOf, ofLength, CHARS_PER_TOKEN.
  apply Qle_shift_div_l; [reflexivity|].
  rewrite Qmult_0_l.
  change 0%Q with (inject_Z 0). rewrite <- Zle_Qle. lia.
Qed.

Lemma estimatedTokens_cons (m : ChatMessage) (l : list ChatMessage) :
  estimatedTokens (m :: l) = (messageTokensOf m + estimatedTokens l)%Q.
Proof. reflexivity. Qed.

Lemma estimatedTokens_nonneg (l : list ChatMessage) : (0 <= estimatedTokens l)%Q.
Proof.
  induction l as [|m l IH]; [apply Qle_refl|].
  rewrite estimatedTokens_cons.
  pose proof (messageTokensOf_nonneg m). lra.
Qed.

Lemma availableNumber_cases (modelName : string)
    (systemPromptLength codeLength : Z) :
  ((modelName ∈ ObjectKeys.objectPrototypeKeys)
   /\ availableNumber modelName systemPromptLength codeLength = None)
  \/ ((modelName ∉ ObjectKeys.objectPrototypeKeys)
      /\ availableNumber modelName systemPromptLength codeLength
         = Some (availableForHistory modelName systemPromptLength codeLength)).
Proof.
  unfold availableNumber.
  destruct (decide (modelName ∈ ObjectKeys.objectPrototypeKeys));
    [by left|by right].
Qed.

Lemma not_objectPrototypeKey (modelName : string) :
  forallb (fun k => negb (String.eqb modelName k))
    ObjectKeys.objectPrototypeKeys = true ->
  modelName ∉ ObjectKeys.objectPrototypeKeys.
Proof.
  intros Hall Hin. rewrite forallb_forall in Hall.
  apply list_elem_of_In in Hin. specialize (Hall _ Hin).
  by rewrite String.eqb_refl in Hall.
Qed.

(** The loop invariant: [historyTokens] is the estimate of the suffix
    already accepted, and that suffix is within budget as soon as it
    holds three messages or more. *)
Lemma walkBackwards_spec (history : list ChatMessage) (available : Q) :
  forall (k : nat) (historyTokens : Q),
    (k <= length history)%nat ->
    (historyTokens == estimatedTokens (drop k history))%Q ->
    ((3 <= length history - k)%nat -> (historyTokens <= available)%Q) ->
    let s := walkBackwards history available k historyTokens in
    (s <= k)%nat /\
    (s = 0%nat \/ (s + 2 <= length history)%nat) /\
    ((estimatedTokens (drop s history) <= available)%Q
     \/ (length history - s <= 2)%nat).
Proof.
  induction k as [|i IH]; intros ht Hk Hht Hbud; simpl.
  - split; [lia|]. split; [by left|].
    rewrite drop_0 in Hht |- *.
    destruct (decide (3 <= length history)%nat) as [H3|H3].
    + left. rewrite <- Hht. apply Hbud. lia.
    + right. lia.
  - destruct (lookup_lt_is_Some_2 history i ltac:(lia)) as [m Hm].
    rewrite Hm.
    destruct (Qgt_bool (ht + messageTokensOf m) available
              && (Z.of_nat i <? Z.of_nat (length history) - 2)%Z) eqn:Hc.
    + apply andb_true_iff in Hc as [_ Hi]. apply Z.ltb_lt in Hi.
      split; [lia|]. split; [right; lia|].
      destruct (decide (3 <= length history - S i)%nat) as [H3|H3].
      * left. rewrite <- Hht. by apply Hbud.
      * right. lia.
    + assert (Hdrop : drop i history = m :: drop (S i) history)
        by (by apply drop_S).
      specialize (IH (ht + messageTokensOf m)%Q ltac:(lia)).
      destruct IH as (Hs & Hz & Hres).
      * rewrite Hdrop, estimatedTokens_cons, Hht. lra.
      * intros H3. apply andb_false_iff in Hc as [Hc|Hc].
        -- by apply Qgt_bool_false.
        -- apply Z.ltb_ge in Hc. lia.
      * split; [lia|]. split; [exact Hz|exact Hres].
Qed.




End TruncationProps.

(* ===================================================================== *)
(** * Properties of ChatHistory *)
(* ===================================================================== *)

Module ChatHistoryProps.
Import ChatHistory.

Section WithExternals.
Context {Unknown IdGen : Type}.
Variable generateSnowflakeId : IdGen -> string * IdGen.

Local Abbreviation State := (State Unknown IdGen).
Local Abbreviation add := (add generateSnowflakeId).
Local Abbreviation addAll := (addAll generateSnowflakeId).

Lemma truncateIfNeeded_objects (st : State) :
  objects (truncateIfNeeded st) = objects st.
Proof. unfold truncateIfNeeded. by case_decide. Qed.

Lemma truncateIfNeeded_small (st : State) :
  length (messages st) <= MAX_MESSAGES -> truncateIfNeeded st = st.
Proof. intros H. unfold truncateIfNeeded. by rewrite decide_True. Qed.

(** What a triggered truncation leaves: the head, if it is a System
    message, then the last [TRUNCATE_TO] entries. *)
Lemma truncateIfNeeded_large (st : State) (hd : ref) :
  MAX_MESSAGES < length (messages st) ->
  messages st !! 0%nat = Some hd ->
  exists older recent,
    messages st = older ++ recent /\ length recent = TRUNCATE_TO /\
    messages (truncateIfNeeded st) =
      (if decide (type (objects st hd) = Some System) then [hd] else [])
      ++ recent.
Proof.
  intros Hlen Hhd. unfold truncateIfNeeded.
  rewrite decide_False by lia. rewrite Hhd. simpl.
  exists (take (length (messages st) - TRUNCATE_TO) (messages st)),
         (drop (length (messages st) - TRUNCATE_TO) (messages st)).
  split; [by rewrite take_drop|]. split; [|done].
  rewrite length_drop. unfold MAX_MESSAGES, TRUNCATE_TO in *. lia.
Qed.

Lemma truncateIfNeeded_bound (st : State) :
  length (messages st) <= S MAX_MESSAGES ->
  length (messages (truncateIfNeeded st)) <= MAX_MESSAGES.
Proof.
  intros H. unfold truncateIfNeeded. case_decide; [done|]. simpl.
  rewrite length_app, length_drop.
  assert (length (messages st) = 51) as -> by (unfold MAX_MESSAGES in *; lia).
  unfold MAX_MESSAGES, TRUNCATE_TO.
  destruct (messages st !! 0%nat); [case_decide|]; simpl; lia.
Qed.

Lemma add_messages (r : ref) (st : State) :
  exists st1 : State,
    messages st1 = messages st ++ [r] /\
    objects st1 = objects (add (Some r) st).2 /\
    (add (Some r) st).2 = truncateIfNeeded st1.
Proof.
  unfold add. destruct (generateSnowflakeId (ids st)) as [id ids'].
  eexists (mkState _ _ _ _). split; [reflexivity|].
  split; [|reflexivity]. simpl. by rewrite truncateIfNeeded_objects.
Qed.

Lemma add_bound (message : option ref) (st : State) :
  length (messages st) <= MAX_MESSAGES ->
  length (messages (add message st).2) <= MAX_MESSAGES.
Proof.
  intros H. destruct message as [r|]; [|done].
  destruct (add_messages r st) as (st1 & Hm & _ & ->).
  apply truncateIfNeeded_bound. rewrite Hm, length_app. simpl. lia.
Qed.

Lemma addAll_snoc (calls : list (option ref)) (message : option ref) (st : State) :
  addAll (calls ++ [message]) st = (add message (addAll calls st)).2.
Proof. unfold ChatHistory.addAll. by rewrite foldl_app. Qed.

Lemma addAll_bound (calls : list (option ref)) (st : State) :
  length (messages st) <= MAX_MESSAGES ->
  length (messages (addAll calls st)) <= MAX_MESSAGES.
Proof.
  intros H. induction calls as [|message calls IH] using rev_ind; [done|].
  rewrite addAll_snoc. by apply add_bound.
Qed.

(** The type of an object that already has one survives [add]. *)
Lemma add_keeps_type (r hd : ref) (st : State) (t : ChatMessageType) :
  type (objects st hd) = Some t ->
  type (objects (add (Some r) st).2 hd) = Some t.
Proof.
  intros Ht. unfold add. destruct (generateSnowflakeId (ids st)) as [id ids'].
  simpl. rewrite truncateIfNeeded_objects. simpl.
  destruct (decide (r = hd)) as [->|Hne].
  - rewrite fn_lookup_insert. rewrite Ht. simpl.
    by destruct (metadata (objects st hd)).
  - by rewrite fn_lookup_insert_ne.
Qed.

(** C2: starting from an empty history, after any sequence of [add]
    calls the history holds at most [MAX_MESSAGES] = 50 messages; a
    further [add] that triggers truncation leaves the first message of
    the over-long list exactly when it is of type System, followed by the
    [TRUNCATE_TO] = 30 most recent messages; and adding a 51st message
    to a history that starts with a System message yields 31 messages
    starting with that same System message. *)
Theorem history_bound_and_truncation
    (heap : ref -> MessageObject Unknown) (g : IdGen)
    (calls : list (option ref)) (r : ref) :
  let st := addAll calls (emptyHistory heap g) in
  let st' := (add (Some r) st).2 in
  length (messages st) <= MAX_MESSAGES
  /\ length (messages st') <= MAX_MESSAGES
  /\ (forall hd : ref,
        MAX_MESSAGES < length (messages st ++ [r]) ->
        (messages st ++ [r]) !! 0%nat = Some hd ->
        exists older recent,
          messages st ++ [r] = older ++ recent /\
          length recent = TRUNCATE_TO /\
          messages st' =
            (if decide (type (objects st' hd) = Some System)
             then [hd] else []) ++ recent)
  /\ (forall hd : ref,
        length (messages st) = MAX_MESSAGES ->
        messages st !! 0%nat = Some hd ->
        type (objects st hd) = Some System ->
        length (messages st') = 31 /\
        messages st' !! 0%nat = Some hd /\
        type (objects st' hd) = Some System).
Proof.
  intros st st'.
  assert (Hst : length (messages st) <= MAX_MESSAGES)
    by (apply addAll_bound; simpl; unfold MAX_MESSAGES; lia).
  assert (Htrig : forall hd : ref,
        MAX_MESSAGES < length (messages st ++ [r]) ->
        (messages st ++ [r]) !! 0%nat = Some hd ->
        exists older recent,
          messages st ++ [r] = older ++ recent /\
          length recent = TRUNCATE_TO /\
          messages st' =
            (if decide (type (objects st' hd) = Some System)
             then [hd] else []) ++ recent).
  { intros hd Hlen Hhd. subst st'.
    destruct (add_messages r st) as (st1 & Hm & Ho & ->).
    rewrite <- Hm in Hlen, Hhd |- *.
    destruct (truncateIfNeeded_large st1 hd Hlen Hhd)
      as (older & recent & H1 & H2 & H3).
    exists older, recent. by rewrite truncateIfNeeded_objects. }
  split; [exact Hst|]. split; [by apply add_bound|]. split; [exact Htrig|].
  intros hd Hlen Hhd Hsys.
  assert (Hsys' : type (objects st' hd) = Some System)
    by (by apply add_keeps_type).
  destruct (Htrig hd) as (older & recent & H1 & H2 & H3).
  - rewrite length_app. simpl. lia.
  - by apply lookup_app_l_Some.
  - rewrite H3, decide_True by done.
    split; [simpl; rewrite H2; reflexivity|]. by split.
Qed.

(** C10: [add] stores the identifier produced by this call's invocation
    of the generator in the message object, whatever identifier the
    caller had put there, and returns it; a missing type becomes User and
    missing metadata the empty mapping, present ones are kept; [add] of
    null or undefined throws and leaves the whole state as it was. *)
Theorem add_assigns_generated_id (st : State) (r : ref) :
  let id := (generateSnowflakeId (ids st)).1 in
  let st' := (add (Some r) st).2 in
  (add (Some r) st).1 = Returned (Some id)
  /\ snowflakeId (objects st' r) = Some id
  /\ type (objects st' r) = Some (default User (type (objects st r)))
  /\ metadata (objects st' r) = Some (default ∅ (metadata (objects st r)))
  /\ content (objects st' r) = content (objects st r)
  /\ ids st' = (generateSnowflakeId (ids st)).2
  /\ add None st = (Threw, st).
Proof.
  unfold add. destruct (generateSnowflakeId (ids st)) as [id ids'].
  simpl. rewrite !truncateIfNeeded_objects. simpl.
  rewrite fn_lookup_insert.
  assert (Hids : forall s : State, ids (truncateIfNeeded s) = ids s)
    by (intros s; unfold truncateIfNeeded; by case_decide).
  rewrite Hids. simpl.
  destruct (type (objects st r)), (metadata (objects st r)); simpl; done.
Qed.

End WithExternals.

Lemma history_bound_and_truncation_witness :
  let st := addAll counterIds (sampleCalls 50) (emptyHistory sampleHeap 0%nat) in
  let st' := (add counterIds (Some 50%nat) st).2 in
  (exists older recent,
      messages st ++ [50%nat] = older ++ recent /\
      length recent = TRUNCATE_TO /\
      messages st' =
        (if decide (type (objects st' 0%nat) = Some System)
         then [0%nat] else []) ++ recent)
  /\ length (messages st') = 31
  /\ messages st' !! 0%nat = Some 0%nat
  /\ type (objects st' 0%nat) = Some System.
Proof.
  destruct (history_bound_and_truncation counterIds sampleHeap 0%nat
              (sampleCalls 50) 50%nat) as (_ & _ & Htrig & Hsys).
  split.
  - apply Htrig.
    + vm_compute. lia.
    + vm_compute. reflexivity.
  - apply Hsys; vm_compute; reflexivity.
Defined.

End ChatHistoryProps.

(* ===================================================================== *)
(** * Properties of the debounced XML stream callbacks *)
(* ===================================================================== *)

Module AiQueryProps.
Import AiQuery.

(** Tag-open and tag-end callbacks are made at once, whatever the
    debounce state, and a tag end is preceded by the flush of the buffer. *)
Lemma structural_events_immediate (st : DebounceState)
    (tagName fullText : string) (attributes : list (string * string)) :
  (handle allHandlers (TagOpen tagName attributes) st).1
    = [OnTagOpen tagName attributes]
  /\ (handle allHandlers (TagEnd tagName fullText) st).1
    = (flushBuffer allHandlers st).1 ++ [OnTagEnd tagName fullText]
  /\ streamBuffer (handle allHandlers (TagEnd tagName fullText) st).2 = None.
Proof. by destruct st as [[[t x]|] last]. Qed.

(** A content update arriving inside the window is held back and
    replaces whatever was held before. *)
Lemma content_within_interval_buffered (st : DebounceState)
    (now : Z) (tagName text : string) :
  (now - lastUpdateTime st < UPDATE_INTERVAL)%Z ->
  handle allHandlers (Content now tagName text) st
  = ([], mkDebounce (Some (tagName, text)) (lastUpdateTime st)).
Proof. intros H. simpl. apply Z.ltb_lt in H. by rewrite H. Qed.

(** A content update delivered directly leaves an older held-back
    update in the buffer. *)
Lemma direct_delivery_keeps_buffer (st : DebounceState)
    (now : Z) (tagName text : string) :
  (UPDATE_INTERVAL <= now - lastUpdateTime st)%Z ->
  handle allHandlers (Content now tagName text) st
  = ([OnStream tagName text], mkDebounce (streamBuffer st) now).
Proof. intros H. simpl. apply Z.ltb_ge in H. by rewrite H. Qed.

(** Whenever an update is held in the buffer and a later update is
    delivered directly, the tag end that follows delivers the held-back
    update after the later one. *)
Lemma held_update_follows_later_one (st : DebounceState)
    (heldTag heldText : string) (now : Z) (tagName text endTag fullText : string) :
  streamBuffer st = Some (heldTag, heldText) ->
  (UPDATE_INTERVAL <= now - lastUpdateTime st)%Z ->
  (handleAll allHandlers [Content now tagName text; TagEnd endTag fullText] st).1
  = [OnStream tagName text; OnStream heldTag heldText; OnTagEnd endTag fullText].
Proof.
  intros Hheld Hlate. simpl. apply Z.ltb_ge in Hlate. rewrite Hlate. simpl.
  by rewrite Hheld.
Qed.

(** C3 (the code departs from it): the update "ab" is held back at
    1005 ms, the newer update "abc" is delivered directly at 1020 ms
    without clearing the buffer, and the flush before the tag end then
    delivers the stale "ab" after the newer "abc". *)
Theorem stale_update_delivered_after_newer :
  chatStreamXml allHandlers staleUpdateStream
  = [ OnStream "code" "a";
      OnStream "code" "abc";
      OnStream "code" "ab";
      OnTagEnd "code" "abc" ].
Proof. reflexivity. Qed.

End AiQueryProps.

(* ===================================================================== *)
(** * Properties of double-precision rounding *)
(* ===================================================================== *)

Module DoubleProps.
Import Double.

Lemma pow2_pos (k : Z) : (0 < 2 ^ k)%Q.
Proof. by apply Qpower_0_lt. Qed.

Lemma pow2_add (a b : Z) : (2 ^ (a + b) == 2 ^ a * 2 ^ b)%Q.
Proof. by apply Qpower_plus. Qed.

Lemma pow2_le (a b : Z) : (a <= b)%Z -> (2 ^ a <= 2 ^ b)%Q.
Proof. intros H. by apply Qpower_le_compat_l. Qed.

Lemma pow2_lt (a b : Z) : (a < b)%Z -> (2 ^ a < 2 ^ b)%Q.
Proof. intros H. by apply Qpower_lt_compat_l. Qed.

Lemma pow2_Z (k : Z) : (0 <= k)%Z -> (2 ^ k == inject_Z (2 ^ k))%Q.
Proof. intros H. by rewrite Zpower_Qpower. Qed.

Lemma roundHalfEven_bounds (x : Q) :
  (Qfloor x <= roundHalfEven x <= Qfloor x + 1)%Z.
Proof.
  unfold roundHalfEven.
  destruct (x - inject_Z (Qfloor x) ?= 1 # 2)%Q; [|lia|lia].
  destruct (Z.even (Qfloor x)); lia.
Qed.

Lemma roundHalfEven_Z (z : Z) : roundHalfEven (inject_Z z) = z.
Proof.
  unfold roundHalfEven. rewrite Qfloor_Z.
  assert (H : (inject_Z z - inject_Z z ?= 1 # 2)%Q = Lt)
    by (apply (proj1 (Qlt_alt _ _)); lra).
  by rewrite H.
Qed.

Lemma roundHalfEven_mono (x y : Q) :
  (x <= y)%Q -> (roundHalfEven x <= roundHalfEven y)%Z.
Proof.
  intros Hxy.
  pose proof (Qfloor_resp_le _ _ Hxy) as Hf.
  pose proof (roundHalfEven_bounds x) as Hx.
  pose proof (roundHalfEven_bounds y) as Hy.
  destruct (decide (Qfloor x = Qfloor y)) as [Heq|Hne]; [|lia].
  unfold roundHalfEven in *. rewrite <- Heq in *.
  set (f := Qfloor x) in *.
  destruct (x - inject_Z f ?= 1 # 2)%Q eqn:Hcx;
    destruct (y - inject_Z f ?= 1 # 2)%Q eqn:Hcy;
    try lia.
  - apply (proj2 (Qeq_alt _ _)) in Hcx. apply (proj2 (Qlt_alt _ _)) in Hcy. lra.
  - apply (proj2 (Qgt_alt _ _)) in Hcx. apply (proj2 (Qeq_alt _ _)) in Hcy. lra.
  - apply (proj2 (Qgt_alt _ _)) in Hcx. apply (proj2 (Qlt_alt _ _)) in Hcy. lra.
Qed.

Lemma exponentOf_spec (x : Q) :
  (0 < x)%Q -> (2 ^ exponentOf x <= x)%Q /\ (x < 2 ^ (exponentOf x + 1))%Q.
Proof.
  intros Hx. destruct x as [p q]. unfold exponentOf. simpl Qnum. simpl Qden.
  assert (Hp : (0 < p)%Z).
  { unfold Qlt in Hx. simpl in Hx. lia. }
  set (a := Z.log2 p). set (b := Z.log2 (Z.pos q)).
  destruct (Z.log2_spec p Hp) as [Ha1 Ha2]. fold a in Ha1, Ha2.
  destruct (Z.log2_spec (Z.pos q) ltac:(lia)) as [Hb1 Hb2]. fold b in Hb1, Hb2.
  assert (Ha0 : (0 <= a)%Z) by apply Z.log2_nonneg.
  assert (Hb0 : (0 <= b)%Z) by apply Z.log2_nonneg.
  assert (Hval : (p # q == inject_Z p / inject_Z (Z.pos q))%Q).
  { rewrite Qmake_Qdiv. reflexivity. }
  assert (Hq : (0 < inject_Z (Z.pos q))%Q).
  { change 0%Q with (inject_Z 0). rewrite <- Zlt_Qlt. lia. }
  (* the two outer bounds *)
  assert (Hlow : (2 ^ (a - b - 1) < p # q)%Q).
  { rewrite Hval. apply Qlt_shift_div_l; [exact Hq|].
    replace (a - b - 1)%Z with (a + - (b + 1))%Z by lia.
    rewrite pow2_add, Qpower_opp.
    rewrite (pow2_Z a), (pow2_Z (b + 1)) by lia.
    assert (H1 : (inject_Z (Z.pos q) < inject_Z (2 ^ (b + 1)))%Q)
      by (rewrite <- Zlt_Qlt; replace (b + 1)%Z with (Z.succ b) by lia; lia).
    assert (H2 : (inject_Z (2 ^ a) <= inject_Z p)%Q) by (by rewrite <- Zle_Qle).
    assert (H3 : (0 < inject_Z (2 ^ a))%Q).
    { change 0%Q with (inject_Z 0). rewrite <- Zlt_Qlt. lia. }
    assert (H4 : (0 < inject_Z (2 ^ (b + 1)))%Q) by lra.
    apply Qlt_le_trans with (inject_Z (2 ^ a)); [|exact H2].
    rewrite <- Qmult_assoc.
    rewrite <- (Qmult_1_r (inject_Z (2 ^ a))) at 2.
    apply Qmult_lt_l; [exact H3|].
    rewrite Qmult_comm. apply Qlt_shift_div_r; [exact H4|]. lra. }
  assert (Hhigh : (p # q < 2 ^ (a - b + 1))%Q).
  { rewrite Hval. apply Qlt_shift_div_r; [exact Hq|].
    replace (a - b + 1)%Z with ((a + 1) + - b)%Z by lia.
    rewrite pow2_add, Qpower_opp.
    rewrite (pow2_Z (a + 1)), (pow2_Z b) by lia.
    assert (H1 : (inject_Z (2 ^ b) <= inject_Z (Z.pos q))%Q)
      by (by rewrite <- Zle_Qle).
    assert (H2 : (inject_Z p < inject_Z (2 ^ (a + 1)))%Q)
      by (rewrite <- Zlt_Qlt; replace (a + 1)%Z with (Z.succ a) by lia; lia).
    assert (H3 : (0 < inject_Z (2 ^ b))%Q).
    { change 0%Q with (inject_Z 0). rewrite <- Zlt_Qlt. lia. }
    assert (H4 : (0 < inject_Z (2 ^ (a + 1)))%Q).
    { change 0%Q with (inject_Z 0). rewrite <- Zlt_Qlt. lia. }
    apply Qlt_le_trans with (inject_Z (2 ^ (a + 1))); [exact H2|].
    rewrite <- Qmult_assoc.
    rewrite <- (Qmult_1_r (inject_Z (2 ^ (a + 1)))) at 1.
    apply Qmult_le_l; [exact H4|].
    rewrite Qmult_comm. apply Qle_shift_div_l; [exact H3|]. lra. }
  destruct (Qle_bool (2 ^ (a - b)) (p # q)) eqn:Hc.
  - apply Qle_bool_iff in Hc. split; [exact Hc|exact Hhigh].
  - split.
    + apply Qlt_le_weak. exact Hlow.
    + replace (a - b - 1 + 1)%Z with (a - b)%Z by lia.
      destruct (Qlt_le_dec (p # q) (2 ^ (a - b))) as [Hlt|Hle]; [exact Hlt|].
      apply Qle_bool_iff in Hle. congruence.
Qed.

Lemma exponentOf_mono (x y : Q) :
  (0 < x)%Q -> (x <= y)%Q -> (exponentOf x <= exponentOf y)%Z.
Proof.
  intros Hx Hxy.
  destruct (exponentOf_spec x Hx) as [Hx1 _].
  destruct (exponentOf_spec y ltac:(lra)) as [_ Hy2].
  assert (H : (2 ^ exponentOf x < 2 ^ (exponentOf y + 1))%Q) by lra.
  apply Qpower_lt_compat_l_inv in H; [lia|reflexivity].
Qed.

Lemma roundPositive_upper (x : Q) :
  (0 < x)%Q -> (roundPositive x <= 2 ^ (exponentOf x + 1))%Q.
Proof.
  intros Hx. destruct (exponentOf_spec x Hx) as [_ H2].
  unfold roundPositive. set (e := (exponentOf x - 52)%Z).
  pose proof (pow2_pos e) as He.
  assert (Hq : (x / 2 ^ e <= inject_Z (2 ^ 53))%Q).
  { apply Qle_shift_div_r; [exact He|].
    rewrite <- (pow2_Z 53) by lia. rewrite <- pow2_add.
    replace (53 + e)%Z with (exponentOf x + 1)%Z by (unfold e; lia). lra. }
  apply roundHalfEven_mono in Hq. rewrite roundHalfEven_Z in Hq.
  rewrite Zle_Qle in Hq.
  replace (exponentOf x + 1)%Z with (53 + e)%Z by (unfold e; lia).
  rewrite pow2_add, (pow2_Z 53) by lia.
  apply Qmult_le_compat_r; [exact Hq|lra].
Qed.

Lemma roundPositive_lower (x : Q) :
  (0 < x)%Q -> (2 ^ exponentOf x <= roundPositive x)%Q.
Proof.
  intros Hx. destruct (exponentOf_spec x Hx) as [H1 _].
  unfold roundPositive. set (e := (exponentOf x - 52)%Z).
  pose proof (pow2_pos e) as He.
  assert (Hq : (inject_Z (2 ^ 52) <= x / 2 ^ e)%Q).
  { apply Qle_shift_div_l; [exact He|].
    rewrite <- (pow2_Z 52) by lia. rewrite <- pow2_add.
    replace (52 + e)%Z with (exponentOf x) by (unfold e; lia). lra. }
  apply roundHalfEven_mono in Hq. rewrite roundHalfEven_Z in Hq.
  rewrite Zle_Qle in Hq.
  replace (exponentOf x) with (52 + e)%Z at 1 by (unfold e; lia).
  rewrite pow2_add, (pow2_Z 52) by lia.
  apply Qmult_le_compat_r; [exact Hq|lra].
Qed.

Lemma roundPositive_mono (x y : Q) :
  (0 < x)%Q -> (x <= y)%Q -> (roundPositive x <= roundPositive y)%Q.
Proof.
  intros Hx Hxy.
  pose proof (exponentOf_mono x y Hx Hxy) as He.
  destruct (decide (exponentOf x = exponentOf y)) as [Heq|Hne].
  - unfold roundPositive. rewrite <- Heq.
    set (e := (exponentOf x - 52)%Z). pose proof (pow2_pos e) as Hpos.
    apply Qmult_le_compat_r; [|lra].
    rewrite <- Zle_Qle. apply roundHalfEven_mono.
    unfold Qdiv. apply Qmult_le_compat_r; [exact Hxy|].
    apply Qlt_le_weak, Qinv_lt_0_compat, Hpos.
  - apply Qle_trans with (2 ^ (exponentOf x + 1))%Q;
      [by apply roundPositive_upper|].
    apply Qle_trans with (2 ^ exponentOf y)%Q;
      [apply pow2_le; lia|apply roundPositive_lower; lra].
Qed.

Lemma round_pos (x : Q) : (0 < x)%Q -> round x = roundPositive x.
Proof.
  intros H. unfold round.
  assert (Hc : (x ?= 0)%Q = Gt) by (by apply (proj1 (Qgt_alt _ _))).
  by rewrite Hc.
Qed.

Lemma round_zero (x : Q) : (x == 0)%Q -> round x = 0%Q.
Proof.
  intros H. unfold round.
  assert (Hc : (x ?= 0)%Q = Eq) by (by apply (proj1 (Qeq_alt _ _))).
  by rewrite Hc.
Qed.

(** Rounding is monotone on the non-negative numbers. *)
Lemma round_mono (x y : Q) :
  (0 <= x)%Q -> (x <= y)%Q -> (round x <= round y)%Q.
Proof.
  intros Hx Hxy.
  destruct (Qlt_le_dec 0 x) as [Hpos|Hzero].
  - rewrite !round_pos by lra. by apply roundPositive_mono.
  - rewrite (round_zero x) by lra.
    destruct (Qlt_le_dec 0 y) as [Hy|Hy].
    + rewrite round_pos by exact Hy.
      pose proof (roundPositive_lower y Hy). pose proof (pow2_pos (exponentOf y)).
      lra.
    + rewrite (round_zero y) by lra. lra.
Qed.

Lemma round_Qeq (x y : Q) :
  (0 <= x)%Q -> (x == y)%Q -> (round x == round y)%Q.
Proof. intros Hx Hxy. apply Qle_antisym; apply round_mono; lra. Qed.

End DoubleProps.

(* ===================================================================== *)
(** * Properties of the retry policy and of the message handler *)
(* ===================================================================== *)

Module AiApiProps.
Import Js AiApi.

(** ** Retry *)

Lemma onerror_retriable_retry (cfg : RetryConfig) (random : Q) (st : RetryState) :
  (0 < tries st)%Z ->
  onerror cfg "RetriableError" random st
  = (RetryAfter (calculateRetryDelay cfg (currentAttempt st + 1) random),
     mkRetryState (tries st - 1) (currentAttempt st + 1), []).
Proof.
  intros H. unfold onerror. simpl.
  destruct (Z.leb_spec (tries st) 0); [lia|reflexivity].
Qed.

Lemma onerror_retriable_exhausted (cfg : RetryConfig) (random : Q) (st : RetryState) :
  (tries st <= 0)%Z ->
  onerror cfg "RetriableError" random st = (Rethrow busyError, st, [busyToast]).
Proof.
  intros H. unfold onerror. simpl.
  destruct (Z.leb_spec (tries st) 0); [reflexivity|lia].
Qed.

Lemma onerror_fatal (cfg : RetryConfig) (random : Q) (st : RetryState) :
  onerror cfg "FatalError" random st = (Rethrow "FatalError", st, [fatalToast]).
Proof. reflexivity. Qed.

(** With a transport that only ever fails retriably, the loop makes one
    attempt per remaining try and one more, then rejects. *)
Lemma fetchLoop_always_retriable (cfg : RetryConfig)
    (transport : nat -> Attempt) (random : nat -> Q) :
  (forall k, attemptError (transport k) = Some "RetriableError") ->
  forall (fuel n : nat) (st : RetryState) (waits : list Q) (shown : list string),
    (0 <= tries st)%Z ->
    (Z.to_nat (tries st) < fuel)%nat ->
    exists ws,
      length ws = Z.to_nat (tries st) /\
      fetchLoop cfg fuel transport random n st waits shown
      = Some (mkRun (n + Z.to_nat (tries st) + 1) (Rejected busyError)
                    (waits ++ ws) (shown ++ [busyToast])).
Proof.
  intros Hall. induction fuel as [|fuel IH]; intros n st waits shown Hge Hfuel.
  - lia.
  - simpl. rewrite Hall.
    destruct (decide (tries st <= 0)%Z) as [Hz|Hpos].
    + rewrite onerror_retriable_exhausted by done.
      exists []. assert (Z.to_nat (tries st) = 0%nat) as -> by lia.
      split; [done|]. rewrite app_nil_r. do 3 f_equal. lia.
    + rewrite onerror_retriable_retry by lia.
      destruct (IH (S n) (mkRetryState (tries st - 1) (currentAttempt st + 1))
                  (waits ++ [calculateRetryDelay cfg (currentAttempt st + 1)
                                                 (random n)])
                  (shown ++ [])) as (ws & Hlen & Hrun); simpl; [lia|lia|].
      exists (calculateRetryDelay cfg (currentAttempt st + 1) (random n) :: ws).
      split; [simpl in *; lia|].
      rewrite Hrun. simpl. rewrite app_nil_r, <- app_assoc. simpl.
      do 3 f_equal. lia.
Qed.

(** The loop never runs out of fuel: every retry uses up one try. *)
Lemma fetchLoop_total (cfg : RetryConfig)
    (transport : nat -> Attempt) (random : nat -> Q) :
  forall (fuel n : nat) (st : RetryState) (waits : list Q) (shown : list string),
    (Z.to_nat (tries st) < fuel)%nat ->
    exists run, fetchLoop cfg fuel transport random n st waits shown = Some run.
Proof.
  induction fuel as [|fuel IH]; intros n st waits shown Hfuel; [lia|].
  simpl. destruct (attemptError (transport n)) as [e|]; [|by eexists].
  unfold onerror.
  destruct (decide (e = "FatalError")); [by eexists|].
  destruct (decide (e = "RetriableError")).
  all: destruct (Z.leb_spec (tries st) 0); [by eexists|].
  all: apply IH; simpl; lia.
Qed.

Lemma directChatOpenAi_total (cfg : RetryConfig)
    (transport : nat -> Attempt) (random : nat -> Q) :
  exists run, directChatOpenAi cfg transport random = Some run.
Proof. apply fetchLoop_total. simpl. lia. Qed.

Lemma onopen_client_error (r : Response) :
  (400 <= status r < 500)%Z -> status r <> 429%Z ->
  onopen r = Thrown "FatalError".
Proof.
  intros Hr Hne. unfold onopen, ok, classifyStatus.
  destruct (Z.leb_spec 200 (status r)), (Z.leb_spec (status r) 299); try lia.
  all: simpl.
  all: destruct (Z.leb_spec 400 (status r)), (Z.ltb_spec (status r) 500),
         (Z.eqb_spec (status r) 429); simpl; try lia; reflexivity.
Qed.

Lemma onerror_other_retry (cfg : RetryConfig) (e : string) (random : Q)
    (st : RetryState) :
  e <> "FatalError" -> (0 < tries st)%Z ->
  onerror cfg e random st
  = (RetryAfter (calculateRetryDelay cfg (currentAttempt st + 1) random),
     mkRetryState (tries st - 1) (currentAttempt st + 1), []).
Proof.
  intros Hne Hpos. unfold onerror. rewrite decide_False by done.
  destruct (decide (e = "RetriableError")).
  all: destruct (Z.leb_spec (tries st) 0); [lia|reflexivity].
Qed.

(** A fatal error on attempt [n + k], after [k] failed attempts that
    were retried, ends the loop there. *)
Lemma fetchLoop_fatal_after (cfg : RetryConfig)
    (transport : nat -> Attempt) (random : nat -> Q) (errors : nat -> string) :
  forall (k fuel n : nat) (st : RetryState) (waits : list Q)
         (shown : list string),
    (forall j, (j < k)%nat ->
       attemptError (transport (n + j)%nat) = Some (errors (n + j)%nat)
       /\ errors (n + j)%nat <> "FatalError") ->
    attemptError (transport (n + k)%nat) = Some "FatalError" ->
    (Z.of_nat k <= tries st)%Z ->
    (k < fuel)%nat ->
    exists ws,
      length ws = k /\
      fetchLoop cfg fuel transport random n st waits shown
      = Some (mkRun (n + k + 1) (Rejected "FatalError")
                    (waits ++ ws) (shown ++ [fatalToast])).
Proof.
  induction k as [|k IH]; intros fuel n st waits shown Hpre Hfatal Htries Hfuel.
  - destruct fuel as [|fuel]; [lia|]. simpl.
    rewrite Nat.add_0_r in Hfatal. rewrite Hfatal, onerror_fatal.
    exists []. split; [done|]. rewrite app_nil_r. do 3 f_equal. lia.
  - destruct fuel as [|fuel]; [lia|]. simpl.
    destruct (Hpre 0%nat ltac:(lia)) as [He Hne].
    rewrite Nat.add_0_r in He, Hne. rewrite He.
    rewrite onerror_other_retry by (done || lia).
    destruct (IH fuel (S n)
                (mkRetryState (tries st - 1) (currentAttempt st + 1))
                (waits ++ [calculateRetryDelay cfg (currentAttempt st + 1)
                                               (random n)])
                (shown ++ [])) as (ws & Hlen & Hrun).
    + intros j Hj. replace (S n + j)%nat with (n + S j)%nat by lia.
      apply Hpre. lia.
    + replace (S n + k)%nat with (n + S k)%nat by lia. exact Hfatal.
    + simpl. lia.
    + lia.
    + exists (calculateRetryDelay cfg (currentAttempt st + 1) (random n) :: ws).
      split; [simpl; lia|].
      rewrite Hrun. rewrite app_nil_r, <- app_assoc. simpl.
      do 3 f_equal. lia.
Qed.

(** C5: a transport whose every connection attempt fails retriably is
    tried [maxRetries + 1] times (4 with [RETRY_CONFIG]) and the operation
    is then rejected with the service-busy message; one that fails
    retriably once and then opens is tried exactly twice and the
    operation resolves after the single wait that preceded the second
    attempt; a Fatal classification on whatever attempt, the first or
    one that follows retried failures, is the last attempt: the failure
    is rethrown with the counters untouched, no retry and no further wait
    follow; every 4xx response other than 429 is classified Fatal. *)
Theorem retry_ceiling (cfg : RetryConfig)
    (transport : nat -> Attempt) (random : nat -> Q) :
  (0 <= maxRetries cfg)%Z ->
  ((forall k, attemptError (transport k) = Some "RetriableError") ->
   exists run, directChatOpenAi cfg transport random = Some run /\
     attempts run = S (Z.to_nat (maxRetries cfg)) /\
     outcome run = Rejected busyError /\
     length (delays run) = Z.to_nat (maxRetries cfg) /\
     toasts run = [busyToast])
  /\ ((1 <= maxRetries cfg)%Z ->
      attemptError (transport 0%nat) = Some "RetriableError" ->
      attemptError (transport 1%nat) = None ->
      directChatOpenAi cfg transport random
      = Some (mkRun 2 Resolved [calculateRetryDelay cfg 1 (random 0%nat)] []))
  /\ (forall (k : nat) (errors : nat -> string),
      (Z.of_nat k <= maxRetries cfg)%Z ->
      (forall j, (j < k)%nat ->
         attemptError (transport j) = Some (errors j)
         /\ errors j <> "FatalError") ->
      attemptError (transport k) = Some "FatalError" ->
      exists run, directChatOpenAi cfg transport random = Some run /\
        attempts run = S k /\
        outcome run = Rejected "FatalError" /\
        length (delays run) = k /\
        toasts run = [fatalToast])
  /\ (forall (r : Response) (e : string),
      (400 <= status r < 500)%Z -> status r <> 429%Z ->
      attemptError (Responds r) = Some "FatalError"
      /\ attemptError (RespondsThenFails r e) = Some "FatalError")
  /\ (forall (draw : Q) (st : RetryState),
      onerror cfg "FatalError" draw st
      = (Rethrow "FatalError", st, [fatalToast])).
Proof.
  intros Hmax. split; [|split; [|split; [|split]]].
  - intros Hall.
    destruct (fetchLoop_always_retriable cfg transport random Hall
                (S (Z.to_nat (maxRetries cfg))) 0
                (mkRetryState (maxRetries cfg) 0) [] [])
      as (ws & Hlen & Hrun); simpl; [lia|lia|].
    eexists. split; [exact Hrun|]. simpl. split; [lia|]. by repeat split.
  - intros H1 Hfirst Hsecond. unfold directChatOpenAi.
    destruct (Z.to_nat (maxRetries cfg)) as [|m] eqn:Hm; [lia|].
    simpl. rewrite Hfirst.
    rewrite onerror_retriable_retry by (simpl; lia). simpl.
    by rewrite Hsecond.
  - intros k errors Hk Hpre Hfatal.
    destruct (fetchLoop_fatal_after cfg transport random errors k
                (S (Z.to_nat (maxRetries cfg))) 0
                (mkRetryState (maxRetries cfg) 0) [] [])
      as (ws & Hlen & Hrun); simpl; [done|done|lia|lia|].
    eexists. split; [exact Hrun|]. simpl. split; [lia|]. by repeat split.
  - intros r e Hstatus Hne. unfold attemptError.
    by rewrite (onopen_client_error r Hstatus Hne).
  - intros draw st. apply onerror_fatal.
Qed.

(** Three allowed retries: a 503, then an accepted response without a
    body (an unknown error, retried with the same counters), then a 401,
    which ends the run on the third attempt after two waits. *)
Lemma retry_ceiling_witness :
  (exists run, directChatOpenAi RETRY_CONFIG alwaysBusy noJitter = Some run /\
     attempts run = 4%nat /\
     outcome run = Rejected busyError /\
     length (delays run) = 3%nat /\
     toasts run = [busyToast])
  /\ directChatOpenAi (mkRetryConfig 2 1000 10000 2 500) busyOnce noJitter
     = Some (mkRun 2 Resolved
               [calculateRetryDelay (mkRetryConfig 2 1000 10000 2 500) 1 0] [])
  /\ (exists run,
        directChatOpenAi RETRY_CONFIG busyEmptyUnauthorized noJitter = Some run /\
        attempts run = 3%nat /\
        outcome run = Rejected "FatalError" /\
        length (delays run) = 2%nat /\
        toasts run = [fatalToast])
  /\ directChatOpenAi RETRY_CONFIG unauthorized noJitter
     = Some (mkRun 1 (Rejected "FatalError") [] [fatalToast]).
Proof.
  split; [|split; [|split]].
  - apply (retry_ceiling RETRY_CONFIG alwaysBusy noJitter); [simpl; lia|].
    intros k. reflexivity.
  - apply (retry_ceiling (mkRetryConfig 2 1000 10000 2 500) busyOnce noJitter);
      [simpl; lia|simpl; lia|reflexivity|reflexivity].
  - destruct (retry_ceiling RETRY_CONFIG busyEmptyUnauthorized noJitter)
      as (_ & _ & Hfatal & _); [simpl; lia|].
    apply (Hfatal 2%nat
             (fun j => match j with
                       | O => "RetriableError"
                       | _ => "TypeError: Cannot read properties of null"
                       end)).
    + simpl. lia.
    + intros [|[|j]] Hj; [split; [reflexivity|discriminate]..|lia].
    + reflexivity.
  - destruct (retry_ceiling RETRY_CONFIG unauthorized noJitter)
      as (_ & _ & Hfatal & _); [simpl; lia|].
    destruct (Hfatal 0%nat (fun _ => "")) as (run & Hrun & _);
      [simpl; lia|intros j Hj; lia|reflexivity|].
    rewrite Hrun. vm_compute in Hrun. injection Hrun as <-. reflexivity.
Defined.

(** ** Backoff *)

(** With the configuration of the source and an attempt number that is
    not negative, the capped power is one of five integers, each a double,
    as is each of them plus [jitterMs]; the rounded computation yields the
    same value as the exact one. *)
Lemma base_fixed (n : Z) :
  (0 <= n)%Z ->
  exists b : Q,
    (Qmin (Double.round
             (initialDelayMs RETRY_CONFIG
              * Double.round (backoffMultiplier RETRY_CONFIG ^ n)))
          (maxDelayMs RETRY_CONFIG) == b)%Q
    /\ (cappedBackoff RETRY_CONFIG n == b)%Q
    /\ (Double.round b == b)%Q
    /\ (Double.round (b + 500) == b + 500)%Q
    /\ (1000 <= b)%Q /\ (b <= 10000)%Q.
Proof.
  intros Hn. destruct (Z_lt_le_dec n 4) as [Hlt|Hge].
  - assert (Hc : n = 0%Z \/ n = 1%Z \/ n = 2%Z \/ n = 3%Z) by lia.
    destruct Hc as [-> | [-> | [-> | ->]]].
    + exists 1000%Q. repeat split; vm_compute; first [reflexivity|discriminate].
    + exists 2000%Q. repeat split; vm_compute; first [reflexivity|discriminate].
    + exists 4000%Q. repeat split; vm_compute; first [reflexivity|discriminate].
    + exists 8000%Q. repeat split; vm_compute; first [reflexivity|discriminate].
  - exists 10000%Q.
    assert (H16 : (16 <= 2 ^ n)%Q).
    { change 16%Q with (2 ^ 4)%Q. by apply DoubleProps.pow2_le. }
    split; [|split].
    + simpl initialDelayMs. simpl backoffMultiplier. simpl maxDelayMs.
      pose proof (DoubleProps.round_mono 16 (2 ^ n) ltac:(lra) H16) as Hr.
      assert (Hr16 : (Double.round 16 == 16)%Q) by (vm_compute; reflexivity).
      set (p := Double.round (2 ^ n)) in *.
      pose proof (DoubleProps.round_mono 16000 (1000 * p)
                    ltac:(lra) ltac:(lra)) as Hr'.
      assert (Hr16000 : (Double.round 16000 == 16000)%Q)
        by (vm_compute; reflexivity).
      apply Q.min_r. lra.
    + unfold cappedBackoff. simpl initialDelayMs. simpl backoffMultiplier.
      simpl maxDelayMs. apply Q.min_l. lra.
    + repeat split; vm_compute; first [reflexivity|discriminate].
Qed.

Lemma jitter_bounds_closed (random : Q) :
  (0 <= random)%Q -> (random <= 1)%Q ->
  (0 <= Double.round (random * 500))%Q
  /\ (Double.round (random * 500) <= 500)%Q.
Proof.
  intros H0 H1.
  pose proof (DoubleProps.round_mono 0 (random * 500)
                ltac:(lra) ltac:(lra)) as Hlow.
  pose proof (DoubleProps.round_mono (random * 500) 500
                ltac:(lra) ltac:(lra)) as Hhigh.
  assert (Hz : (Double.round 0 == 0)%Q) by (vm_compute; reflexivity).
  assert (Hm : (Double.round 500 == 500)%Q) by (vm_compute; reflexivity).
  split; lra.
Qed.

Lemma jitter_bounds (random : Q) :
  (0 <= random)%Q -> (random <= largestBelowOne)%Q ->
  (0 <= Double.round (random * 500))%Q
  /\ (Double.round (random * 500) < 500)%Q.
Proof.
  intros H0 H1.
  assert (Hl : (largestBelowOne < 1)%Q) by (vm_compute; reflexivity).
  pose proof (DoubleProps.round_mono 0 (random * 500)
                ltac:(lra) ltac:(lra)) as Hlow.
  pose proof (DoubleProps.round_mono (random * 500) (largestBelowOne * 500)
                ltac:(lra) ltac:(lra)) as Hhigh.
  assert (Hz : (Double.round 0 == 0)%Q) by (vm_compute; reflexivity).
  assert (Hm : (Double.round (largestBelowOne * 500) < 500)%Q)
    by (vm_compute; reflexivity).
  split; lra.
Qed.

(** The computed delay lies between the capped power and the capped power
    plus [jitterMs], both ends included. *)
Lemma delay_bounds (n : Z) (random : Q) :
  (0 <= n)%Z -> (0 <= random)%Q -> (random <= 1)%Q ->
  (calculateRetryDelay RETRY_CONFIG n random
   == Double.round (cappedBackoff RETRY_CONFIG n
                    + Double.round (random * 500)))%Q
  /\ (cappedBackoff RETRY_CONFIG n
      <= calculateRetryDelay RETRY_CONFIG n random)%Q
  /\ (calculateRetryDelay RETRY_CONFIG n random
      <= cappedBackoff RETRY_CONFIG n + 500)%Q.
Proof.
  intros Hn H0 H1.
  destruct (base_fixed n Hn) as (b & Hc & He & Hrb & Hrb5 & Hb1 & Hb2).
  destruct (jitter_bounds_closed random H0 H1) as [Hj0 Hj1].
  unfold calculateRetryDelay. simpl jitterMs.
  set (c := Qmin _ _) in *. set (j := Double.round (random * 500)) in *.
  pose proof (DoubleProps.round_mono b (c + j) ltac:(lra) ltac:(lra)) as Hlow.
  pose proof (DoubleProps.round_mono (c + j) (b + 500)
                ltac:(lra) ltac:(lra)) as Hhigh.
  split; [|split].
  - apply DoubleProps.round_Qeq; lra.
  - lra.
  - lra.
Qed.

(** C8 (as stated) fails: on the second retry with the draw
    [1 - 2^-52] the jitter is [500 - 2^-43], and the sum
    [4000 + 500 - 2^-43] is rounded to the double 4500, which is the
    capped power plus the whole of [jitterMs], not plus a number below
    it. *)
Lemma delay_reaches_base_plus_jitterMs :
  ~ delayIsBasePlusJitter RETRY_CONFIG 2 almostOne.
Proof.
  intros (jitter & H0 & H1 & Heq).
  assert (Hd : (calculateRetryDelay RETRY_CONFIG 2 almostOne == 4500)%Q)
    by (vm_compute; reflexivity).
  assert (Hb : (cappedBackoff RETRY_CONFIG 2 == 4000)%Q)
    by (vm_compute; reflexivity).
  simpl jitterMs in H1. lra.
Qed.

(** C8 (amended): for every attempt number [n] that is not negative and
    every draw [random] of [Math.random()] (a double in [[0, 1)], so at
    most [1 - 2^-53]), the computed delay is the double nearest to
    [min(maxDelayMs, initialDelayMs * backoffMultiplier^n) + jitter],
    where the jitter, the double nearest to [random * jitterMs], lies in
    [[0, jitterMs)]; the delay lies between the capped power and the
    capped power plus [jitterMs], both ends included; and [onerror] leaves
    both counters alone on the Fatal branch, so the attempt counter only
    ever changes, by one, on the Retriable and Unknown branches. *)
Theorem backoff_delay_and_attempt_counter
    (n : Z) (random : Q) (errText : string) (draw : Q) (st : RetryState) :
  (0 <= n)%Z -> (0 <= random)%Q -> (random <= largestBelowOne)%Q ->
  let base := cappedBackoff RETRY_CONFIG n in
  let jitter := Double.round (random * jitterMs RETRY_CONFIG) in
  (calculateRetryDelay RETRY_CONFIG n random == Double.round (base + jitter))%Q
  /\ (0 <= jitter)%Q /\ (jitter < jitterMs RETRY_CONFIG)%Q
  /\ (base <= calculateRetryDelay RETRY_CONFIG n random)%Q
  /\ (calculateRetryDelay RETRY_CONFIG n random
      <= base + jitterMs RETRY_CONFIG)%Q
  /\ (errText = "FatalError" ->
      onerror RETRY_CONFIG errText draw st
      = (Rethrow errText, st, [fatalToast]))
  /\ (currentAttempt (onerror RETRY_CONFIG errText draw st).1.2
        <> currentAttempt st ->
      errText <> "FatalError" /\
      onerror RETRY_CONFIG errText draw st
      = (RetryAfter (calculateRetryDelay RETRY_CONFIG (currentAttempt st + 1) draw),
         mkRetryState (tries st - 1) (currentAttempt st + 1), []))
  /\ (errText <> "FatalError" -> (0 < tries st)%Z ->
      currentAttempt (onerror RETRY_CONFIG errText draw st).1.2
      = (currentAttempt st + 1)%Z).
Proof.
  intros Hn H0 H1 base jitter.
  assert (Hl : (largestBelowOne < 1)%Q) by (vm_compute; reflexivity).
  destruct (delay_bounds n random Hn H0 ltac:(lra)) as (Hd & Hlow & Hhigh).
  destruct (jitter_bounds random H0 H1) as [Hj0 Hj1].
  split; [exact Hd|]. split; [exact Hj0|]. split; [exact Hj1|].
  split; [exact Hlow|]. split; [exact Hhigh|].
  split; [|split].
  - intros ->. reflexivity.
  - unfold onerror.
    destruct (decide (errText = "FatalError")); [simpl; congruence|].
    destruct (decide (errText = "RetriableError")).
    all: destruct (Z.leb_spec (tries st) 0); simpl; [congruence|].
    all: intros _; split; [done|reflexivity].
  - intros Hne Hpos. unfold onerror.
    rewrite decide_False by done.
    destruct (decide (errText = "RetriableError")).
    all: destruct (Z.leb_spec (tries st) 0); [lia|reflexivity].
Qed.

(** The upper end is reached: second retry, draw [1 - 2^-52]. *)
Lemma backoff_delay_and_attempt_counter_witness :
  (calculateRetryDelay RETRY_CONFIG 2 almostOne == 4000 + 500)%Q
  /\ (Double.round (almostOne * 500) < 500)%Q
  /\ onerror RETRY_CONFIG "FatalError" 0 (mkRetryState 3 0)
     = (Rethrow "FatalError", mkRetryState 3 0, [fatalToast])
  /\ currentAttempt (onerror RETRY_CONFIG "TypeError: Failed to fetch" 0
                       (mkRetryState 3 0)).1.2 = 1%Z.
Proof.
  destruct (backoff_delay_and_attempt_counter 2 almostOne "FatalError" 0
              (mkRetryState 3 0)) as (Hd & _ & Hj & _ & _ & Hf & _);
    [lia|vm_compute; discriminate|vm_compute; discriminate|].
  destruct (backoff_delay_and_attempt_counter 2 almostOne
              "TypeError: Failed to fetch" 0 (mkRetryState 3 0))
    as (_ & _ & _ & _ & _ & _ & _ & Hu);
    [lia|vm_compute; discriminate|vm_compute; discriminate|].
  split; [|split; [|split]].
  - rewrite Hd. vm_compute. reflexivity.
  - exact Hj.
  - apply Hf. reflexivity.
  - apply Hu; [discriminate|simpl; lia].
Defined.

End AiApiProps.

(* ===================================================================== *)
(** * Properties of the stream handlers: sentinel and malformed events *)
(* ===================================================================== *)

Module StreamProps.
Import Js AiApi.

Section Messages.
Variable JSON_parse : string -> option JsValue.
Variable numberToString : Q -> string.
Variable hasOnStream : bool.

Local Abbreviation onmessage := (onmessage JSON_parse numberToString hasOnStream).
Local Abbreviation deliver := (deliver JSON_parse numberToString hasOnStream).
Local Abbreviation malformed := (malformed JSON_parse).

Lemma deliver_app (pre post : list string) (st : StreamState) :
  deliver (pre ++ post) st
  = ((deliver pre st).1 ++ (deliver post (deliver pre st).2).1,
     (deliver post (deliver pre st).2).2).
Proof.
  revert st. induction pre as [|data pre IH]; intros st; simpl.
  - by destruct (deliver post st).
  - destruct (onmessage data st) as [out st1]. rewrite IH.
    destruct (deliver pre st1) as [o1 s1]. simpl.
    destruct (deliver post s1) as [o2 s2]. simpl. by rewrite app_assoc.
Qed.

(** The handler never reads the abort flag: it only carries it along. *)
Lemma onmessage_abort_flag (data : string) (t : string) (c : nat) (a : bool) :
  exists out t' c' a',
    onmessage data (mkStreamState t c a) = (out, mkStreamState t' c' a') /\
    onmessage data (mkStreamState t c true) = (out, mkStreamState t' c' true).
Proof.
  unfold AiApi.onmessage. simpl.
  destruct (decide (data = "[DONE]")); [by repeat eexists|].
  destruct (JSON_parse data) as [json|]; [|by repeat eexists].
  destruct (deltaContent json) as [d|]; [|by repeat eexists].
  destruct (truthy d); by repeat eexists.
Qed.

Lemma deliver_abort_flag (events : list string) :
  forall (t : string) (c : nat) (a : bool),
  exists out t' c' a',
    deliver events (mkStreamState t c a) = (out, mkStreamState t' c' a') /\
    deliver events (mkStreamState t c true) = (out, mkStreamState t' c' true).
Proof.
  induction events as [|data events IH]; intros t c a; simpl.
  - by repeat eexists.
  - destruct (onmessage_abort_flag data t c a) as (o & t1 & c1 & a1 & -> & ->).
    destruct (IH t1 c1 a1) as (os & t2 & c2 & a2 & -> & ->).
    by repeat eexists.
Qed.

Lemma onmessage_malformed (data : string) (st : StreamState) :
  data <> "[DONE]" -> malformed data ->
  onmessage data st = ([ConsoleError; ToastError invalidResponseToast], st)
  \/ onmessage data st = ([], st).
Proof.
  intros Hne Hbad. unfold AiApi.onmessage. rewrite decide_False by done.
  destruct Hbad as [->|(json & -> & [->| ->])]; auto.
Qed.

(** C9: an event (other than the sentinel) whose data does not parse, or
    whose parsed value lacks [choices[0].delta.content], changes neither
    the accumulated text nor the token count nor the abort flag and makes
    no [onStream] call; the handler returns normally, and the rest of the
    stream is processed exactly as if the event had not been there. *)
Theorem malformed_event_is_skipped
    (data : string) (pre post : list string) (st : StreamState) :
  data <> "[DONE]" -> malformed data ->
  (onmessage data st).2 = st
  /\ filter isStreamCall (onmessage data st).1 = []
  /\ (deliver (pre ++ data :: post) st).2 = (deliver (pre ++ post) st).2
  /\ filter isStreamCall (deliver (pre ++ data :: post) st).1
     = filter isStreamCall (deliver (pre ++ post) st).1.
Proof.
  intros Hne Hbad.
  assert (Hone : forall s, (onmessage data s).2 = s /\
                           filter isStreamCall (onmessage data s).1 = []).
  { intros s. destruct (onmessage_malformed data s Hne Hbad) as [-> | ->]; done. }
  split; [apply Hone|]. split; [apply Hone|].
  rewrite !deliver_app. simpl.
  destruct (deliver pre st) as [o1 s1]. simpl.
  destruct (Hone s1) as [Hs Hf].
  destruct (onmessage data s1) as [o s1']. simpl in *. subst s1'.
  destruct (deliver post s1) as [o2 s2]. simpl.
  split; [done|]. by rewrite !filter_app, Hf.
Qed.

End Messages.

Lemma malformed_event_is_skipped_witness :
  let run := deliver sampleParse sampleNumberToString true in
  (run [helloEvent; "null"; helloEvent] initialStream).2
  = (run [helloEvent; helloEvent] initialStream).2
  /\ filter isStreamCall (run [helloEvent; "not json"; helloEvent] initialStream).1
     = filter isStreamCall (run [helloEvent; helloEvent] initialStream).1
  /\ (onmessage sampleParse sampleNumberToString true "{}" initialStream).2
     = initialStream.
Proof.
  split; [|split].
  - apply (malformed_event_is_skipped sampleParse sampleNumberToString true
             "null" [helloEvent] [helloEvent] initialStream).
    + discriminate.
    + right. exists Null. split; [reflexivity|]. left. reflexivity.
  - apply (malformed_event_is_skipped sampleParse sampleNumberToString true
             "not json" [helloEvent] [helloEvent] initialStream).
    + discriminate.
    + left. reflexivity.
  - apply (malformed_event_is_skipped sampleParse sampleNumberToString true
             "{}" [] [] initialStream).
    + discriminate.
    + right. exists (Obj []). split; [reflexivity|]. left. reflexivity.
Defined.

End StreamProps.

(* ===================================================================== *)
(** * Properties of the bracket-command lexer *)
(* ===================================================================== *)

Module LexerProps.
Import CommandLexer.

(** ** Positions *)

Lemma peek_Some_lt (input : string) (position : nat) (ch : Ascii.ascii) :
  peek input position = Some ch -> (position < String.length input)%nat.
Proof.
  unfold peek. revert position.
  induction input as [|c input IH]; intros [|n]; simpl; try done; try lia.
  intros H. apply IH in H. lia.
Qed.

Lemma peek_None_ge (input : string) (position : nat) :
  peek input position = None -> (String.length input <= position)%nat.
Proof.
  unfold peek. revert position.
  induction input as [|c input IH]; intros [|n]; simpl; try done; try lia.
  intros H. apply IH in H. lia.
Qed.

Lemma peek_lt_Some (input : string) (position : nat) :
  (position < String.length input)%nat ->
  exists ch, peek input position = Some ch.
Proof.
  intros H. destruct (peek input position) as [ch|] eqn:Hp; [by exists ch|].
  apply peek_None_ge in Hp. lia.
Qed.

Lemma uppercase_not_openBracket (ch : Ascii.ascii) :
  isUppercase ch = true -> Ascii.eqb ch openBracket = false.
Proof.
  intros Hup. destruct (Ascii.eqb_spec ch openBracket) as [->|]; [|done].
  vm_compute in Hup. discriminate.
Qed.

(** ** Every inner loop ends, and moves forward *)

Lemma skipToUppercase_total (input : string) :
  forall (fuel position : nat),
    (String.length input - position < fuel)%nat ->
    exists p1, skipToUppercase fuel input position = Some p1 /\
      (position <= p1)%nat /\
      (peek input p1 = None \/
       exists ch, peek input p1 = Some ch /\ isUppercase ch = true).
Proof.
  induction fuel as [|fuel IH]; intros position Hfuel; [lia|]. simpl.
  destruct (peek input position) as [ch|] eqn:Hp.
  - destruct (isUppercase ch) eqn:Hup.
    + exists position. split; [done|]. split; [lia|]. right. by exists ch.
    + apply peek_Some_lt in Hp.
      destruct (IH (S position)) as (p1 & -> & Hle & Hend); [lia|].
      exists p1. split; [done|]. split; [lia|done].
  - exists position. split; [done|]. split; [lia|by left].
Qed.

Lemma readUntilLoop_total (input : string) (stopChars : list Ascii.ascii) :
  forall (fuel position : nat) (value : string) (escaped : bool),
    (String.length input - position < fuel)%nat ->
    exists v p2,
      readUntilLoop fuel input stopChars position value escaped = Some (v, p2) /\
      (position <= p2)%nat /\
      (forall ch, peek input position = Some ch ->
                  existsb (Ascii.eqb ch) stopChars = false ->
                  (position < p2)%nat).
Proof.
  induction fuel as [|fuel IH]; intros position value escaped Hfuel; [lia|].
  simpl. destruct (peek input position) as [ch|] eqn:Hp.
  - pose proof (peek_Some_lt _ _ _ Hp) as Hlt.
    destruct (Ascii.eqb ch LF).
    { destruct (IH (S position) (value ++ String ch EmptyString)%string escaped)
        as (v & p2 & -> & Hle & _); [lia|].
      exists v, p2. split; [done|]. split; [lia|]. intros; lia. }
    destruct (existsb (Ascii.eqb ch) stopChars) eqn:Hstop; simpl.
    + destruct escaped; simpl.
      * destruct (IH (S position) (value ++ String ch EmptyString)%string false)
          as (v & p2 & Hrun & Hle & _); [lia|].
        exists v, p2.
        destruct (Ascii.eqb ch backslash); simpl; rewrite Hrun.
        all: split; [done|]; split; [lia|]; intros; lia.
      * exists value, position. split; [done|]. split; [lia|].
        intros ch' [= <-] Hno. congruence.
    + destruct (Ascii.eqb ch backslash && negb escaped).
      * destruct (IH (S position) value true) as (v & p2 & -> & Hle & _); [lia|].
        exists v, p2. split; [done|]. split; [lia|]. intros; lia.
      * destruct (IH (S position) (value ++ String ch EmptyString)%string false)
          as (v & p2 & -> & Hle & _); [lia|].
        exists v, p2. split; [done|]. split; [lia|]. intros; lia.
  - exists value, position. split; [done|]. split; [lia|]. intros ch [=].
Qed.

Lemma readUntil_total (input : string) (stopChars : list Ascii.ascii)
    (fuel position : nat) :
  (String.length input - position < fuel)%nat ->
  exists v p2,
    readUntil fuel input stopChars position = Some (v, p2) /\
    (position <= p2)%nat /\
    (forall ch, peek input position = Some ch ->
                existsb (Ascii.eqb ch) stopChars = false ->
                (position < p2)%nat).
Proof.
  intros Hfuel. unfold readUntil.
  destruct (readUntilLoop_total input stopChars fuel position EmptyString false
              Hfuel) as (v & p2 & -> & Hle & Hmove).
  exists (trim v), p2. by simpl.
Qed.

(** The argument loop stops at a closing bracket or at the end of the
    input, nowhere else. *)
Lemma readArgs_total (input : string) :
  forall (fuel position : nat) (args : list string),
    (String.length input - position < fuel)%nat ->
    exists args' p4,
      readArgs fuel input position args = Some (args', p4) /\
      (position <= p4)%nat /\
      (atCloseBracket input p4 = false -> (String.length input <= p4)%nat).
Proof.
  induction fuel as [|fuel IH]; intros position args Hfuel; [lia|].
  simpl. destruct (peek input position) as [ch|] eqn:Hp.
  - pose proof (peek_Some_lt _ _ _ Hp) as Hlt.
    destruct (Ascii.eqb ch closeBracket) eqn:Hclose.
    { exists args, position. split; [done|]. split; [lia|].
      unfold atCloseBracket. rewrite Hp. congruence. }
    destruct (Ascii.eqb ch quote).
    + destruct (readUntil_total input [quote] fuel (S position))
        as (arg & p & -> & Hle & _); [lia|]. simpl.
      destruct (IH (S p) (args ++ [arg])) as (args' & p4 & -> & Hle' & Hend);
        [lia|].
      exists args', p4. split; [done|]. split; [lia|done].
    + destruct (IH (S position) args) as (args' & p4 & -> & Hle' & Hend); [lia|].
      exists args', p4. split; [done|]. split; [lia|done].
  - exists args, position. split; [done|]. split; [lia|].
    intros _. by apply peek_None_ge.
Qed.

(** One turn of the outer loop always completes and always advances;
    when it does not end on a closing bracket it has used up the input. *)
Lemma scanCommand_total (input : string) (fuel position : nat) :
  (String.length input < fuel)%nat ->
  (position < String.length input)%nat ->
  exists commandType args p4,
    scanCommand fuel input position = Some (commandType, args, p4) /\
    (position < p4)%nat /\
    (atCloseBracket input p4 = false -> (String.length input <= p4)%nat).
Proof.
  intros Hfuel Hlt. unfold scanCommand.
  destruct (skipToUppercase_total input fuel position)
    as (p1 & -> & Hle1 & Hat); [lia|]. simpl.
  destruct (readUntil_total input [openBracket] fuel p1)
    as (value & p2 & -> & Hle2 & Hmove); [lia|]. simpl.
  set (p3 := match peek input p2 with
             | Some ch => if Ascii.eqb ch openBracket then S p2 else p2
             | None => p2
             end).
  assert (Hle3 : (p2 <= p3)%nat).
  { subst p3. destruct (peek input p2) as [ch|]; [|lia].
    destruct (Ascii.eqb ch openBracket); lia. }
  destruct (readArgs_total input fuel p3 [])
    as (args & p4 & -> & Hle4 & Hend); [lia|]. simpl.
  exists (trim value), args, p4. split; [done|]. split; [|done].
  destruct Hat as [Hnone|(ch & Hp & Hup)].
  - apply peek_None_ge in Hnone. lia.
  - assert (p1 < p2)%nat; [|lia].
    apply (Hmove ch Hp). simpl.
    by rewrite uppercase_not_openBracket.
Qed.

Lemma tokenizeStep_total (input : string) (fuel position : nat)
    (commands : list ReActCommand) :
  (String.length input < fuel)%nat ->
  (position < String.length input)%nat ->
  exists position' commands',
    tokenizeStep fuel input position commands = Some (position', commands') /\
    (position < position')%nat.
Proof.
  intros Hfuel Hlt. unfold tokenizeStep.
  destruct (scanCommand_total input fuel position Hfuel Hlt)
    as (commandType & args & p4 & -> & Hmove & _). simpl.
  destruct (atCloseBracket input p4); eexists _, _; (split; [done|lia]).
Qed.

Lemma tokenizeLoop_total (input : string) :
  forall (fuel position : nat) (commands : list ReActCommand),
    (String.length input - position < fuel)%nat ->
    exists result, tokenizeLoop fuel input position commands = Some result.
Proof.
  induction fuel as [|fuel IH]; intros position commands Hfuel; [lia|].
  simpl. destruct (Nat.ltb_spec position (String.length input)) as [Hlt|Hge].
  - destruct (tokenizeStep_total input (S (String.length input)) position
                commands (Nat.lt_succ_diag_r _) Hlt)
      as (position' & commands' & -> & Hmove).
    apply IH. lia.
  - by eexists.
Qed.

(** [tokenize] is total: the fuel it is given never runs out. *)
Lemma tokenizeRun_total (input : string) :
  tokenizeRun input = Some (tokenize input).
Proof.
  unfold tokenize.
  destruct (tokenizeLoop_total input (S (String.length input)) 0 [])
    as (result & Hrun); [lia|].
  unfold tokenizeRun. by rewrite Hrun.
Qed.

(** A state the loop reaches is where the whole run continues from. *)
Lemma reaches_loop (input : string) (position : nat)
    (commands : list ReActCommand) :
  reaches input position commands ->
  exists k, (k <= position)%nat /\
    forall fuel, tokenizeLoop (k + fuel) input 0 []
                 = tokenizeLoop fuel input position commands.
Proof.
  induction 1 as [|position commands position' commands' _ IH Hlt Hstep].
  - exists 0%nat. split; [lia|done].
  - destruct IH as (k & Hk & Hrun).
    destruct (tokenizeStep_total input (S (String.length input)) position
                commands (Nat.lt_succ_diag_r _) Hlt)
      as (p & c & Hstep' & Hmove).
    rewrite Hstep in Hstep'. injection Hstep' as <- <-.
    exists (S k). split; [lia|]. intros fuel.
    replace (S k + fuel)%nat with (k + S fuel)%nat by lia.
    rewrite Hrun. simpl.
    destruct (Nat.ltb_spec position (String.length input)); [|lia].
    by rewrite Hstep.
Qed.

Lemma overwriteLast_length (commands : list ReActCommand)
    (commandType : string) (args : list string) :
  length (overwriteLast commands commandType args) = length commands.
Proof.
  unfold overwriteLast. destruct (0 <? length commands)%nat; [|done].
  by rewrite length_insert.
Qed.

Lemma overwriteLast_snoc (earlier : list ReActCommand) (lastCommand : ReActCommand)
    (commandType : string) (args : list string) :
  overwriteLast (earlier ++ [lastCommand]) commandType args
  = earlier ++ [mkReActCommand commandType args].
Proof.
  unfold overwriteLast. rewrite length_app. simpl.
  destruct (Nat.ltb_spec 0 (length earlier + 1)); [|lia].
  replace (length earlier + 1 - 1)%nat with (length earlier + 0)%nat by lia.
  by rewrite insert_app_r.
Qed.

(** C6: when a turn of the tokenizer loop runs out of input before it
    finds the closing bracket of the argument list, the tokenization ends
    there; no command is added for the fragment, and the type and the
    arguments read so far replace those of the last command of the list,
    if there is one.  (Every [tokenize] starts again from position 0, so
    the fragment is read afresh by the next pass.) *)
Theorem unterminated_arguments_overwrite_last
    (input : string) (position : nat) (commands : list ReActCommand)
    (commandType : string) (args : list string) (p4 : nat) :
  reaches input position commands ->
  (position < String.length input)%nat ->
  scanCommand (S (String.length input)) input position
    = Some (commandType, args, p4) ->
  atCloseBracket input p4 = false ->
  tokenizeRun input = Some (tokenize input)
  /\ tokenize input = overwriteLast commands commandType args
  /\ length (tokenize input) = length commands
  /\ (commands = [] -> tokenize input = [])
  /\ (forall earlier lastCommand,
        commands = earlier ++ [lastCommand] ->
        tokenize input = earlier ++ [mkReActCommand commandType args]).
Proof.
  intros Hreach Hlt Hscan Hopen.
  assert (Hrun : tokenizeRun input
                 = Some (overwriteLast commands commandType args)).
  { destruct (reaches_loop input position commands Hreach) as (k & Hk & Hfrom).
    unfold tokenizeRun.
    replace (S (String.length input))
      with (k + S (S (String.length input - S k)))%nat by lia.
    rewrite Hfrom.
    destruct (scanCommand_total input (S (String.length input)) position
                (Nat.lt_succ_diag_r _) Hlt) as (ty & a & p & Hscan' & _ & Hend).
    rewrite Hscan in Hscan'. injection Hscan' as <- <- <-.
    specialize (Hend Hopen).
    cbn [tokenizeLoop].
    destruct (Nat.ltb_spec position (String.length input)); [|lia].
    unfold tokenizeStep. rewrite Hscan. simpl. rewrite Hopen. simpl.
    destruct (Nat.ltb_spec p4 (String.length input)); [lia|done]. }
  assert (Htok : tokenize input = overwriteLast commands commandType args)
    by (unfold tokenize; by rewrite Hrun).
  split; [by rewrite Htok|]. split; [exact Htok|].
  rewrite Htok. split; [apply overwriteLast_length|].
  split; [by intros ->|].
  intros earlier lastCommand ->. apply overwriteLast_snoc.
Qed.

Lemma unterminated_arguments_overwrite_last_witness :
  tokenize completeThenOpen = [mkReActCommand "B" ["y"]].
Proof.
  destruct (unterminated_arguments_overwrite_last completeThenOpen 6
              [mkReActCommand "A" ["x"]] "B" ["y"] 12)
    as (_ & _ & _ & _ & Hlast).
  - apply (reaches_step completeThenOpen 0 [] 6 [mkReActCommand "A" ["x"]]).
    + apply reaches_start.
    + vm_compute. lia.
    + vm_compute. reflexivity.
  - vm_compute. lia.
  - vm_compute. reflexivity.
  - vm_compute. reflexivity.
  - apply (Hlast [] (mkReActCommand "A" ["x"])). reflexivity.
Defined.

(** ** Sample tokenizations *)

Example tokenize_two_commands :
  tokenize (String.concat q ["A["; "x"; "] B["; "y"; "]"])
  = [mkReActCommand "A" ["x"]; mkReActCommand "B" ["y"]].
Proof. reflexivity. Qed.

Example tokenize_escaped_quote :
  tokenize (String.concat q ["say Foo["; "a\"; "b"; ", "; " c "; "]"])
  = [mkReActCommand "Foo" [String.concat q ["a"; "b"]; "c"]].
Proof. reflexivity. Qed.

(** Text after the last closing bracket is an unfinished turn as well:
    it overwrites the last command. *)
Example tokenize_trailing_space :
  tokenize (String.concat q ["A["; "x"; "] "]) = [mkReActCommand "" []].
Proof. reflexivity. Qed.

(** ** Change reporting *)

Lemma hasCommandChanged_false (oldCmd newCmd : ReActCommand) :
  hasCommandChanged oldCmd newCmd = false <-> oldCmd = newCmd.
Proof.
  unfold hasCommandChanged. destruct oldCmd as [t1 a1], newCmd as [t2 a2]. simpl.
  destruct (String.eqb_spec t1 t2) as [->|Hne]; simpl;
    [|split; [done|congruence]].
  destruct (Nat.eqb_spec (length a1) (length a2)) as [Hlen|Hlen]; simpl;
    [|split; [done|intros [= ->]; done]].
  split.
  - intros Hsame. f_equal. apply list_eq. intros i.
    destruct (decide (i < length a1)%nat) as [Hi|Hi].
    + destruct (decide (a1 !! i = a2 !! i)) as [|Hdiff]; [done|].
      assert (existsb
                (fun i => negb (bool_decide (a1 !! i = a2 !! i)))
                (seq 0 (length a1)) = true); [|congruence].
      apply existsb_exists. exists i. split; [apply in_seq; lia|].
      by rewrite bool_decide_eq_false_2.
    + rewrite !lookup_ge_None_2 by lia. done.
  - intros [= ->].
    destruct (existsb _ _) eqn:Hex; [|done].
    apply existsb_exists in Hex as (i & _ & Hi).
    by rewrite bool_decide_eq_true_2 in Hi.
Qed.

Lemma omap_lookup_from (current : list ReActCommand) :
  forall (count start : nat),
    (start + count = length current)%nat ->
    omap (fun i => current !! i) (seq start count) = drop start current.
Proof.
  induction count as [|count IH]; intros start Hlen; simpl.
  - by rewrite drop_ge by lia.
  - destruct (lookup_lt_is_Some_2 current start ltac:(lia)) as [c Hc].
    rewrite Hc. rewrite (drop_S _ _ _ Hc). f_equal. apply IH. lia.
Qed.

Lemma changed_are_filtered (previous current : list ReActCommand)
    (positions : list nat) :
  Forall (fun i => (i < Nat.min (length previous) (length current))%nat)
         positions ->
  omap (fun i =>
          match previous !! i, current !! i with
          | Some oldCmd, Some newCmd =>
              if hasCommandChanged oldCmd newCmd then Some newCmd else None
          | _, _ => None
          end) positions
  = omap (fun i => current !! i)
         (filter (fun i => previous !! i <> current !! i) positions).
Proof.
  induction 1 as [|i positions Hi _ IH]; [done|].
  rewrite filter_cons. simpl.
  destruct (lookup_lt_is_Some_2 previous i ltac:(lia)) as [o Ho].
  destruct (lookup_lt_is_Some_2 current i ltac:(lia)) as [n Hn].
  rewrite Ho, Hn.
  destruct (hasCommandChanged o n) eqn:Hch.
  - rewrite decide_True.
    + simpl. rewrite Hn. f_equal. exact IH.
    + intros [= ->].
      pose proof (proj2 (hasCommandChanged_false n n) eq_refl). congruence.
  - apply hasCommandChanged_false in Hch as ->.
    rewrite decide_False by (intros H; by apply H). exact IH.
Qed.

Lemma append_fields (lexer : Lexer) (ch : string) :
  buffer (append lexer ch).2 = (buffer lexer ++ ch)%string
  /\ commands (append lexer ch).2 = tokenize (buffer lexer ++ ch).
Proof. done. Qed.

Lemma appendAll_snoc (lexer : Lexer) (chunks : list string) (ch : string) :
  appendAll lexer (chunks ++ [ch]) = (append (appendAll lexer chunks) ch).2.
Proof. unfold appendAll. by rewrite foldl_app. Qed.

Lemma accumulated_snoc (chunks : list string) (ch : string) :
  accumulated (chunks ++ [ch]) = (accumulated chunks ++ ch)%string.
Proof. unfold accumulated. by rewrite foldl_app. Qed.

(** After any appends the buffer is the whole text and the command list
    is its one-pass tokenization. *)
Lemma appendAll_state (chunks : list string) :
  buffer (appendAll newLexer chunks) = accumulated chunks
  /\ commands (appendAll newLexer chunks) = tokenize (accumulated chunks).
Proof.
  induction chunks as [|ch chunks [IHb IHc]] using rev_ind.
  - split; reflexivity.
  - rewrite appendAll_snoc, accumulated_snoc.
    destruct (append_fields (appendAll newLexer chunks) ch) as [-> ->].
    by rewrite IHb.
Qed.

(** C4: after any sequence of appends, a further append reports exactly
    the commands of the new list at the positions beyond the previous
    list and at the positions where the command differs from the previous
    one: no reported position holds a command with the same type and
    arguments as before, every position beyond the previous length is
    reported, and each reported command is the command at its position
    in the one-pass tokenization of the whole accumulated text. *)
Theorem append_reports_new_and_changed (chunks : list string) (ch : string) :
  let lexer := appendAll newLexer chunks in
  let previous := commands lexer in
  let reported := (append lexer ch).1 in
  let current := commands (append lexer ch).2 in
  previous = tokenize (accumulated chunks)
  /\ buffer (append lexer ch).2 = accumulated (chunks ++ [ch])
  /\ current = tokenize (accumulated (chunks ++ [ch]))
  /\ tokenizeRun (accumulated (chunks ++ [ch])) = Some current
  /\ reported
     = omap (fun i => current !! i) (reportedPositions previous current)
  /\ Forall (fun i => (i < length current)%nat /\ previous !! i <> current !! i)
            (reportedPositions previous current)
  /\ (forall i, (length previous <= i < length current)%nat ->
                i ∈ reportedPositions previous current)
  /\ (forall i c, previous !! i = Some c -> current !! i = Some c ->
                  i ∉ reportedPositions previous current).
Proof.
  intros lexer previous reported current.
  destruct (appendAll_state chunks) as [Hbuf Hcmds].
  assert (Hcur : current = tokenize (accumulated (chunks ++ [ch]))).
  { subst current. rewrite accumulated_snoc.
    destruct (append_fields lexer ch) as [_ ->]. subst lexer. by rewrite Hbuf. }
  split; [exact Hcmds|].
  split.
  { rewrite accumulated_snoc. destruct (append_fields lexer ch) as [-> _].
    subst lexer. by rewrite Hbuf. }
  split; [exact Hcur|].
  split; [rewrite Hcur; apply tokenizeRun_total|].
  split.
  { subst reported. unfold append. simpl. fold lexer previous.
    change (tokenize (buffer lexer ++ ch)) with current.
    unfold reportedPositions. rewrite omap_app. f_equal.
    - destruct (Nat.ltb_spec (length previous) (length current)) as [Hlt|Hge].
      + symmetry. apply omap_lookup_from. lia.
      + replace (length current - length previous)%nat with 0%nat by lia. done.
    - apply changed_are_filtered. apply Forall_forall.
      intros i Hi. apply elem_of_seq in Hi. lia. }
  split.
  { apply Forall_forall. intros i Hi. unfold reportedPositions in Hi.
    apply elem_of_app in Hi as [Hi|Hi].
    - apply elem_of_seq in Hi. split; [lia|].
      rewrite (lookup_ge_None_2 previous) by lia.
      destruct (lookup_lt_is_Some_2 current i ltac:(lia)) as [c ->]. done.
    - apply list_elem_of_filter in Hi as [Hne Hi].
      apply elem_of_seq in Hi. split; [lia|done]. }
  split.
  { intros i Hi. unfold reportedPositions. apply elem_of_app. left.
    apply elem_of_seq. lia. }
  intros i c Hp Hc Hin. unfold reportedPositions in Hin.
  apply lookup_lt_Some in Hp as Hlt.
  apply elem_of_app in Hin as [Hin|Hin].
  - apply elem_of_seq in Hin. lia.
  - apply list_elem_of_filter in Hin as [Hne _]. apply Hne. by rewrite Hp, Hc.
Qed.

Lemma append_reports_new_and_changed_witness :
  let lexer := appendAll newLexer [String.concat q ["A["; "x"; "] B["]] in
  let ch := String.concat q [""; "y"; "]"] in
  commands lexer = [mkReActCommand "B" []]
  /\ (append lexer ch).1 = [mkReActCommand "B" ["y"]; mkReActCommand "A" ["x"]]
  /\ 1%nat ∈ reportedPositions (commands lexer) (commands (append lexer ch).2).
Proof.
  destruct (append_reports_new_and_changed
              [String.concat q ["A["; "x"; "] B["]]
              (String.concat q [""; "y"; "]"]))
    as (_ & _ & _ & _ & Hrep & _ & Hnew & _).
  split; [reflexivity|]. split.
  - rewrite Hrep. reflexivity.
  - apply Hnew. vm_compute. lia.
Defined.

End LexerProps.

(* ===================================================================== *)
(** * Further properties of history truncation *)
(* ===================================================================== *)

Module TruncationMore.
Import HistoryTruncation TruncationProps.

Lemma estimatedTokens_drop_le (history : list ChatMessage) (k : nat) :
  (estimatedTokens (drop k history) <= estimatedTokens history)%Q.
Proof.
  revert k. induction history as [|m history IH]; intros [|k]; simpl;
    try apply Qle_refl.
  fold (estimatedTokens (drop k history)). fold (estimatedTokens history).
  pose proof (IH k). pose proof (messageTokensOf_nonneg m). lra.
Qed.

(** The walk never cuts when the whole history is within the budget. *)
Lemma walkBackwards_fits (history : list ChatMessage) (available : Q) :
  (estimatedTokens history <= available)%Q ->
  forall (k : nat) (historyTokens : Q),
    (k <= length history)%nat ->
    (historyTokens == estimatedTokens (drop k history))%Q ->
    walkBackwards history available k historyTokens = 0%nat.
Proof.
  intros Hfit. induction k as [|i IH]; intros ht Hk Hht; [done|]. simpl.
  destruct (lookup_lt_is_Some_2 history i ltac:(lia)) as [m Hm]. rewrite Hm.
  assert (Hdrop : drop i history = m :: drop (S i) history) by (by apply drop_S).
  assert (Hsum : (ht + messageTokensOf m == estimatedTokens (drop i history))%Q)
    by (rewrite Hdrop, estimatedTokens_cons, Hht; lra).
  destruct (Qgt_bool (ht + messageTokensOf m) available) eqn:Hgt.
  - apply Qgt_bool_true in Hgt.
    pose proof (estimatedTokens_drop_le history i). lra.
  - simpl. apply IH; [lia|exact Hsum].
Qed.

(** Walking a suffix that the walk over the whole list had accepted
    accepts it again. *)
Lemma walkBackwards_on_suffix (history : list ChatMessage) (available : Q)
    (s : nat) :
  forall (k : nat) (historyTokens : Q),
    (k + s <= length history)%nat ->
    (walkBackwards history available (k + s) historyTokens <= s)%nat ->
    walkBackwards (drop s history) available k historyTokens = 0%nat.
Proof.
  induction k as [|i IH]; intros ht Hk Hcut; [done|].
  simpl in *. rewrite lookup_drop, length_drop.
  replace (s + i)%nat with (i + s)%nat by lia.
  destruct (history !! (i + s)%nat) as [m|]; simpl in *.
  - destruct (Qgt_bool (ht + messageTokensOf m) available); simpl in *.
    + destruct (Z.ltb_spec (Z.of_nat (i + s)) (Z.of_nat (length history) - 2)).
      * lia.
      * destruct (Z.ltb_spec (Z.of_nat i) (Z.of_nat (length history - s) - 2));
          [lia|]. by apply IH; [lia|].
    + by apply IH; [lia|].
  - destruct (Qgt_bool (ht + 0) available); simpl in *.
    + destruct (Z.ltb_spec (Z.of_nat (i + s)) (Z.of_nat (length history) - 2)).
      * lia.
      * destruct (Z.ltb_spec (Z.of_nat i) (Z.of_nat (length history - s) - 2));
          [lia|]. by apply IH; [lia|].
    + by apply IH; [lia|].
Qed.

Lemma walkBackwards_le (history : list ChatMessage) (available : Q) :
  forall (k : nat) (historyTokens : Q),
    (walkBackwards history available k historyTokens <= k)%nat.
Proof.
  induction k as [|i IH]; intros ht; simpl; [lia|].
  destruct (_ && _); [lia|]. specialize (IH (ht +
    match history !! i with Some m => messageTokensOf m | None => 0 end)%Q). lia.
Qed.

(** X1: whatever the budget, the returned list is a suffix of the
    history, in the same order, and it ends with the history's last
    message. *)
Theorem truncate_keeps_most_recent (history : list ChatMessage)
    (modelName : string) (systemPromptLength codeLength : Z) :
  let r := truncateHistoryForTokenLimit history modelName
             systemPromptLength codeLength in
  r `suffix_of` history /\ last r = last history.
Proof.
  unfold truncateHistoryForTokenLimit.
  destruct (availableNumber_cases modelName systemPromptLength codeLength)
    as [[Hin ->]|[Hnin ->]]; [by rewrite drop_0|].
  set (available := availableForHistory modelName systemPromptLength codeLength).
  destruct (Qlt_bool available 100).
  - destruct (last history) as [m|] eqn:Hl.
    + apply last_Some in Hl as [l' ->]. split; [by exists l'|done].
    + apply last_None in Hl as ->. done.
  - split; [apply suffix_drop|].
    pose proof (walkBackwards_spec history available (length history) 0%Q
                  (le_n _)) as Hw.
    rewrite drop_all in Hw. specialize (Hw (Qeq_refl _)).
    destruct Hw as (_ & Hpos & _); [intros; lia|].
    set (s := walkBackwards history available (length history) 0) in *.
    rewrite !last_lookup, lookup_drop, length_drop.
    destruct Hpos as [Hz|Hs]; [rewrite Hz|]; f_equal; lia.
Qed.

(** X2: a history whose estimate is within the budget (with at least
    100 tokens available) is returned unchanged. *)
Theorem truncate_unchanged_when_fits (history : list ChatMessage)
    (modelName : string) (systemPromptLength codeLength : Z) :
  (100 <= availableForHistory modelName systemPromptLength codeLength)%Q ->
  (estimatedTokens history
   <= availableForHistory modelName systemPromptLength codeLength)%Q ->
  truncateHistoryForTokenLimit history modelName systemPromptLength codeLength
  = history.
Proof.
  intros Havail Hfit. unfold truncateHistoryForTokenLimit.
  destruct (availableNumber_cases modelName systemPromptLength codeLength)
    as [[Hin ->]|[Hnin ->]]; [by rewrite drop_0|].
  assert (Qlt_bool (availableForHistory modelName systemPromptLength codeLength)
                   100 = false) as ->.
  { unfold Qlt_bool. apply negb_false_iff. by apply Qle_bool_iff. }
  rewrite (walkBackwards_fits history _ Hfit); [done|lia|].
  by rewrite drop_all.
Qed.

Lemma truncate_unchanged_when_fits_witness :
  truncateHistoryForTokenLimit threeShort "gpt-4" 400 0 = threeShort.
Proof.
  apply truncate_unchanged_when_fits; vm_compute; discriminate.
Defined.

(** X3: truncating an already truncated history (same model, same
    prompt and code lengths) changes nothing. *)
Theorem truncate_idempotent (history : list ChatMessage)
    (modelName : string) (systemPromptLength codeLength : Z) :
  let r := truncateHistoryForTokenLimit history modelName
             systemPromptLength codeLength in
  truncateHistoryForTokenLimit r modelName systemPromptLength codeLength = r.
Proof.
  unfold truncateHistoryForTokenLimit.
  destruct (availableNumber_cases modelName systemPromptLength codeLength)
    as [[Hin ->]|[Hnin ->]]; [by rewrite !drop_0|].
  set (available := availableForHistory modelName systemPromptLength codeLength).
  destruct (Qlt_bool available 100).
  - destruct (last history) as [m|]; done.
  - set (s := walkBackwards history available (length history) 0).
    assert (Hs : (s <= length history)%nat) by apply walkBackwards_le.
    rewrite length_drop.
    rewrite (walkBackwards_on_suffix history available s).
    + by rewrite drop_0.
    + lia.
    + replace (length history - s + s)%nat with (length history) by lia.
      subst s. lia.
Qed.

(** X4: every model name other than gpt-4, unknown names included
    (names of inherited object properties set aside), is given the
    4096-token limit of gpt-3.5-turbo and truncated accordingly. *)
Theorem unknown_model_uses_default_limit (history : list ChatMessage)
    (modelName : string) (systemPromptLength codeLength : Z) :
  modelName <> "gpt-4" ->
  modelName ∉ ObjectKeys.objectPrototypeKeys ->
  maxTokensOf modelName = 4096%Q
  /\ truncateHistoryForTokenLimit history modelName systemPromptLength codeLength
     = truncateHistoryForTokenLimit history "gpt-3.5-turbo"
         systemPromptLength codeLength.
Proof.
  intros Hne Hnin.
  assert (Hmax : maxTokensOf modelName = 4096%Q).
  { unfold maxTokensOf, MODEL_TOKEN_LIMITS.
    destruct (decide (modelName = "gpt-3.5-turbo")) as [->|Hne'].
    - by rewrite lookup_insert_eq.
    - rewrite lookup_insert_ne by done.
      by rewrite lookup_singleton_ne. }
  split; [exact Hmax|].
  unfold truncateHistoryForTokenLimit, availableNumber.
  rewrite (decide_False (P := modelName ∈ ObjectKeys.objectPrototypeKeys))
    by exact Hnin.
  rewrite (decide_False
             (P := "gpt-3.5-turbo" ∈ ObjectKeys.objectPrototypeKeys))
    by (apply not_objectPrototypeKey; reflexivity).
  unfold availableForHistory. by rewrite Hmax.
Qed.

Lemma unknown_model_uses_default_limit_witness :
  maxTokensOf "openai/gpt-4" = 4096%Q.
Proof.
  apply (unknown_model_uses_default_limit [] "openai/gpt-4" 0 0);
    [discriminate|].
  unfold ObjectKeys.objectPrototypeKeys. rewrite !elem_of_cons, elem_of_nil.
  intros H. repeat (destruct H as [H|H]; [discriminate H|]). exact H.
Defined.

End TruncationMore.

(* ===================================================================== *)
(** * Further properties of ChatHistory *)
(* ===================================================================== *)

Module ChatHistoryMore.
Import ChatHistory ChatHistoryOps ChatHistoryProps.

Section WithExternals.
Context {Unknown IdGen : Type}.
Variable generateSnowflakeId : IdGen -> string * IdGen.

Local Abbreviation State := (State Unknown IdGen).
Local Abbreviation History := (History Unknown IdGen).
Local Abbreviation add := (add generateSnowflakeId).
Local Abbreviation addAll := (addAll generateSnowflakeId).

Lemma truncateIfNeeded_length (st : State) :
  length (messages (truncateIfNeeded st)) <= MAX_MESSAGES.
Proof.
  unfold truncateIfNeeded. case_decide; [done|]. simpl.
  rewrite length_app, length_drop. unfold MAX_MESSAGES, TRUNCATE_TO in *.
  destruct (messages st !! 0%nat); [case_decide|]; simpl; lia.
Qed.

Lemma truncateIfNeeded_last (st : State) :
  last (messages (truncateIfNeeded st)) = last (messages st).
Proof.
  unfold truncateIfNeeded. case_decide as Hlen; [done|]. simpl.
  assert (Hd : drop (length (messages st) - TRUNCATE_TO) (messages st) <> []).
  { intros Hnil. apply (f_equal length) in Hnil. rewrite length_drop in Hnil.
    unfold MAX_MESSAGES, TRUNCATE_TO in *. simpl in Hnil. lia. }
  rewrite last_app.
  destruct (last (drop _ _)) as [x|] eqn:Hl; [|by apply last_None in Hl].
  rewrite <- Hl, !last_lookup, lookup_drop, length_drop. f_equal.
  unfold MAX_MESSAGES, TRUNCATE_TO in *. lia.
Qed.

(** X5: whatever the state before (a history loaded with any number of
    messages included), after one [add] of a message the history holds
    at most [MAX_MESSAGES] messages, and the message just added is its
    last one. *)
Theorem add_bounds_any_history (st : State) (r : ref) :
  length (messages (add (Some r) st).2) <= MAX_MESSAGES
  /\ last (messages (add (Some r) st).2) = Some r.
Proof.
  destruct (add_messages generateSnowflakeId r st) as (st1 & Hm & _ & ->).
  split; [apply truncateIfNeeded_length|].
  by rewrite truncateIfNeeded_last, Hm, last_snoc.
Qed.

Lemma add_keeps_system_head (message : option ref) (st : State) (hd : ref) :
  messages st !! 0%nat = Some hd ->
  type (objects st hd) = Some System ->
  messages (add message st).2 !! 0%nat = Some hd
  /\ type (objects (add message st).2 hd) = Some System.
Proof.
  intros Hhd Hsys. destruct message as [r|]; [|done].
  split; [|by apply add_keeps_type].
  pose proof (add_keeps_type generateSnowflakeId r hd st System Hsys) as Hsys'.
  destruct (add_messages generateSnowflakeId r st) as (st1 & Hm & Ho & Heq).
  rewrite Heq in *. rewrite truncateIfNeeded_objects in Hsys'.
  assert (Hhd1 : messages st1 !! 0%nat = Some hd)
    by (rewrite Hm; by apply lookup_app_l_Some).
  unfold truncateIfNeeded. case_decide; [done|]. simpl.
  rewrite Hhd1, decide_True by done. done.
Qed.

(** X6: once the history starts with a System message, it starts with
    that same message, still of type System, after any further sequence
    of [add] calls, truncations included. *)
Theorem system_head_survives_adds
    (calls : list (option ref)) (st : State) (hd : ref) :
  messages st !! 0%nat = Some hd ->
  type (objects st hd) = Some System ->
  messages (addAll calls st) !! 0%nat = Some hd
  /\ type (objects (addAll calls st) hd) = Some System.
Proof.
  intros Hhd Hsys.
  induction calls as [|message calls [IH1 IH2]] using rev_ind; [done|].
  rewrite (addAll_snoc generateSnowflakeId). by apply add_keeps_system_head.
Qed.

(** X7: [removeLast] undoes an [add] that did not trigger truncation;
    [clear] empties the history whatever it held. *)
Theorem removeLast_undoes_add (st : State) (r : ref) :
  length (messages st) < MAX_MESSAGES ->
  messages (removeLast (add (Some r) st).2) = messages st
  /\ messages (clear (add (Some r) st).2) = [].
Proof.
  intros Hlen. split; [|done].
  destruct (add_messages generateSnowflakeId r st) as (st1 & Hm & _ & ->).
  rewrite truncateIfNeeded_small by (rewrite Hm, length_app; simpl; lia).
  simpl. rewrite Hm. apply removelast_last.
Qed.

(** ** updateLast *)

(** X8: [updateLast] never changes which messages the history holds nor
    the identifier and type of the last one; a given non-empty content
    replaces the content of the last message and an empty or missing one
    leaves it; given metadata are merged over the old ones, new entries
    winning and old entries under other keys staying. *)
Theorem updateLast_merges_into_last
    (st : State) (d : UpdateData Unknown) (r : ref) :
  last (messages st) = Some r ->
  let st' := (updateLast (Some d) st).2 in
  let o := objects st r in
  let o' := objects st' r in
  (updateLast (Some d) st).1 = Returned ()
  /\ messages st' = messages st
  /\ snowflakeId o' = snowflakeId o /\ type o' = type o
  /\ content o' = default (content o) (contentGiven d)
  /\ (newMetadata d = None -> metadata o' = metadata o)
  /\ (forall m, newMetadata d = Some m ->
        exists m', metadata o' = Some m' /\
          forall k, m' !! k =
            match m !! k with
            | Some v => Some v
            | None => default ∅ (metadata o) !! k
            end)
  /\ (forall r', r' <> r -> objects st' r' = objects st r').
Proof.
  intros Hlast. unfold updateLast. rewrite Hlast. simpl.
  rewrite fn_lookup_insert.
  split; [done|]. split; [done|].
  split; [by destruct (contentGiven d), (newMetadata d)|].
  split; [by destruct (contentGiven d), (newMetadata d)|].
  split; [by destruct (contentGiven d), (newMetadata d)|].
  split; [intros ->; by destruct (contentGiven d)|].
  split.
  - intros m ->. eexists. split; [reflexivity|]. intros k.
    rewrite lookup_union.
    destruct (contentGiven d); simpl;
      destruct (m !! k), (default ∅ (metadata (objects st r)) !! k); done.
  - intros r' Hne. rewrite fn_lookup_insert_ne; [done|congruence].
Qed.

(** X9: on an empty history [updateLast] throws, changing nothing, as
    soon as there is a content or metadata to store; without an argument
    it always throws. *)
Theorem updateLast_throws_on_empty (st : State) (d : UpdateData Unknown) :
  updateLast None st = (Threw, st)
  /\ (messages st = [] ->
      contentGiven d <> None \/ newMetadata d <> None ->
      updateLast (Some d) st = (Threw, st)).
Proof.
  split; [done|]. intros Hnil Hgiven. unfold updateLast. rewrite Hnil. simpl.
  destruct (contentGiven d), (newMetadata d); try done.
  destruct Hgiven; done.
Qed.

(** ** Activities *)

(** X10: [removeActivity] removes every activity with the given id and
    keeps the others in their order; listeners are notified exactly when
    something was removed; removing an id that was not there before an
    [addActivity] of it gives back the former list. *)
Theorem removeActivity_removes_all
    (h : History) (id : string) (a : ChatHistoryActivity) :
  let h' := removeActivity id h in
  (forall x, x ∈ activities h' <-> x ∈ activities h /\ activityId x <> id)
  /\ activities h' `sublist_of` activities h
  /\ (notified (log h') = notified (log h) <->
      Forall (fun x => activityId x <> id) (activities h))
  /\ (Forall (fun x => activityId x <> activityId a) (activities h) ->
      activities (removeActivity (activityId a) (addActivity a h))
      = activities h).
Proof.
  intros h'. split; [|split; [|split]].
  - intros x. subst h'. unfold removeActivity. case_decide; simpl;
      rewrite list_elem_of_filter; tauto.
  - subst h'. unfold removeActivity. case_decide; simpl; apply sublist_filter.
  - subst h'. unfold removeActivity.
    pose proof (length_filter (fun x => activityId x <> id) (activities h)) as Hle.
    case_decide as Hlen; simpl.
    + split.
      * intros Heq. apply (f_equal length) in Heq.
        rewrite length_app in Heq. simpl in Heq. lia.
      * intros Hall. exfalso. apply Hlen. f_equal.
        clear Hle Hlen. induction Hall as [|x l Hx _ IH]; [done|].
        rewrite filter_cons, decide_True by done. by f_equal.
    + split; [intros _|done].
      clear Hle. revert Hlen.
      induction (activities h) as [|x l IH]; [done|].
      rewrite filter_cons. case_decide as Hx; simpl.
      * intros [= Hl]. constructor; [done|by apply IH].
      * intros Hl. pose proof (length_filter (fun x => activityId x <> id) l). lia.
  - intros Hall. unfold removeActivity, addActivity. simpl.
    assert (Hf : filter (fun x => activityId x <> activityId a)
                   (activities h ++ [a]) = activities h).
    { rewrite filter_app, filter_cons, decide_False by (intros H; by apply H).
      rewrite filter_nil, app_nil_r.
      induction Hall as [|x l Hx _ IH]; [done|].
      rewrite filter_cons, decide_True by done. by f_equal. }
    case_decide; simpl; exact Hf.
Qed.

(** ** JSON round trip *)

(** [fromJSON(toJSON(h))] has the messages and the metadata of
    [h] and no activities; [fromJSON] of nothing, or of an object
    without these fields, is an empty history. *)
Lemma json_round_trip (h : History) (j : HistoryJson Unknown) :
  let h' := fromJSON (objects (log h)) (ids (log h)) (Some (toJSON h)) in
  messages (log h') = messages (log h)
  /\ historyMetadata h' = historyMetadata h
  /\ activities h' = []
  /\ messages (log (fromJSON (objects (log h)) (ids (log h)) None)) = []
  /\ (jsonHistory j = None ->
      messages (log (fromJSON (objects (log h)) (ids (log h)) (Some j))) = []).
Proof.
  repeat split. intros Hj. simpl. by rewrite Hj.
Qed.

End WithExternals.

Lemma removeLast_undoes_add_witness :
  messages (removeLast
    (add counterIds (Some 7%nat) (emptyHistory sampleHeap 0%nat)).2) = [].
Proof.
  apply (removeLast_undoes_add counterIds (emptyHistory sampleHeap 0%nat) 7%nat).
  vm_compute. lia.
Defined.

Lemma system_head_survives_adds_witness :
  let st := addAll counterIds (sampleCalls 3) (emptyHistory sampleHeap 0%nat) in
  messages (addAll counterIds (sampleCalls 120) st) !! 0%nat = Some 0%nat.
Proof.
  apply (system_head_survives_adds counterIds (sampleCalls 120)
           (addAll counterIds (sampleCalls 3) (emptyHistory sampleHeap 0%nat))
           0%nat); vm_compute; reflexivity.
Defined.

Lemma updateLast_merges_into_last_witness :
  let st := (add counterIds (Some 1%nat) (emptyHistory sampleHeap 0%nat)).2 in
  let st' := (updateLast (Some (mkUpdateData (Some "Hello") None)) st).2 in
  messages st' = [1%nat] /\ content (objects st' 1%nat) = "Hello".
Proof.
  destruct (updateLast_merges_into_last
              (add counterIds (Some 1%nat) (emptyHistory sampleHeap 0%nat)).2
              (mkUpdateData (Some "Hello") None) 1%nat)
    as (_ & Hm & _ & _ & Hc & _); [reflexivity|].
  split; [exact Hm|exact Hc].
Defined.

Lemma updateLast_throws_on_empty_witness :
  updateLast (Some (mkUpdateData (Some "Hello") None))
             (emptyHistory sampleHeap 0%nat)
  = (Threw, emptyHistory sampleHeap 0%nat).
Proof.
  destruct (updateLast_throws_on_empty (emptyHistory sampleHeap 0%nat)
              (mkUpdateData (Some "Hello") None)) as [_ Hthrow].
  apply Hthrow; [reflexivity|left; discriminate].
Defined.

Lemma removeActivity_removes_all_witness :
  let h := mkHistory (emptyHistory sampleHeap 0%nat)
             [mkActivity "processing" "Thinking..." None] ∅ in
  activities (removeActivity "code-generation"
                (addActivity (mkActivity "code-generation" "Generating code..." None) h))
  = activities h.
Proof.
  destruct (removeActivity_removes_all
              (mkHistory (emptyHistory sampleHeap 0%nat)
                 [mkActivity "processing" "Thinking..." None] ∅)
              "code-generation"
              (mkActivity "code-generation" "Generating code..." None))
    as (_ & _ & _ & Hback).
  apply Hback. repeat constructor. discriminate.
Defined.

End ChatHistoryMore.

(* ===================================================================== *)
(** * Further properties of the lexer and of chatReAct *)
(* ===================================================================== *)

Module LexerMore.
Import Js AiApi CommandLexer ReAct LexerProps.

Lemma string_app_nil_r (s : string) : (s ++ EmptyString)%string = s.
Proof.
  induction s as [|c s IH]; [done|].
  change (String c (s ++ EmptyString)%string = String c s). by f_equal.
Qed.

Lemma string_app_assoc (a b c : string) :
  ((a ++ b) ++ c)%string = (a ++ b ++ c)%string.
Proof.
  induction a as [|x a IH]; [done|].
  change (String x ((a ++ b) ++ c)%string = String x (a ++ b ++ c)%string).
  by f_equal.
Qed.

(** ** The shape of one turn and of the final state *)

Lemma tokenizeStep_cases (input : string) (position position' : nat)
    (cmds cmds' : list ReActCommand) :
  (position < String.length input)%nat ->
  tokenizeStep (S (String.length input)) input position cmds
    = Some (position', cmds') ->
  exists commandType args p4,
    (position < p4)%nat /\
    ((atCloseBracket input p4 = true /\ position' = S p4 /\
      cmds' = if negb (String.eqb commandType EmptyString)
                 && startsUppercase commandType
              then cmds ++ [mkReActCommand commandType args] else cmds)
     \/ (atCloseBracket input p4 = false /\ position' = p4 /\
         (String.length input <= p4)%nat /\
         cmds' = overwriteLast cmds commandType args)).
Proof.
  intros Hlt Hstep.
  destruct (scanCommand_total input (S (String.length input)) position
              (Nat.lt_succ_diag_r _) Hlt)
    as (commandType & args & p4 & Hscan & Hmove & Hend).
  unfold tokenizeStep in Hstep. rewrite Hscan in Hstep. simpl in Hstep.
  exists commandType, args, p4. split; [exact Hmove|].
  destruct (atCloseBracket input p4) eqn:Hclose;
    injection Hstep as <- <-; [left|right]; auto.
Qed.

(** The list [tokenize] returns is the one of a state the loop reaches
    with the input used up. *)
Lemma tokenize_reached (input : string) :
  exists position,
    reaches input position (tokenize input) /\
    (String.length input <= position)%nat.
Proof.
  assert (Hloop : forall fuel position cmds,
    reaches input position cmds ->
    (String.length input - position < fuel)%nat ->
    exists position' result,
      tokenizeLoop fuel input position cmds = Some result /\
      reaches input position' result /\
      (String.length input <= position')%nat).
  { induction fuel as [|fuel IH]; intros position cmds Hreach Hfuel; [lia|].
    simpl. destruct (Nat.ltb_spec position (String.length input)) as [Hlt|Hge].
    - destruct (tokenizeStep_total input (S (String.length input)) position
                  cmds (Nat.lt_succ_diag_r _) Hlt)
        as (position' & cmds' & Hstep & Hmove).
      rewrite Hstep. simpl. apply IH; [|lia].
      by apply (reaches_step input position cmds).
    - by exists position, cmds. }
  destruct (Hloop (S (String.length input)) 0%nat [] (reaches_start input))
    as (position & result & Hrun & Hreach & Hend); [lia|].
  exists position. split; [|done].
  unfold tokenize, tokenizeRun. by rewrite Hrun.
Qed.

(** ** Counting closing brackets *)

Lemma closeBracketsBefore_S (input : string) (position : nat) :
  closeBracketsBefore input (S position)
  = (closeBracketsBefore input position
     + if atCloseBracket input position then 1 else 0)%nat.
Proof.
  unfold closeBracketsBefore. rewrite seq_S, filter_app, length_app. simpl.
  rewrite filter_cons, filter_nil.
  destruct (atCloseBracket input position); reflexivity.
Qed.

Lemma closeBracketsBefore_mono (input : string) (p q : nat) :
  (p <= q)%nat -> (closeBracketsBefore input p <= closeBracketsBefore input q)%nat.
Proof.
  induction 1 as [|q _ IH]; [done|]. rewrite closeBracketsBefore_S. lia.
Qed.

Lemma closeBracketsBefore_beyond (input : string) (p : nat) :
  (String.length input <= p)%nat ->
  closeBracketsBefore input p = countCloseBrackets input.
Proof.
  induction 1 as [|q Hq IH]; [done|].
  rewrite closeBracketsBefore_S, IH. unfold atCloseBracket.
  destruct (peek input q) as [ch|] eqn:Hp; [|lia].
  apply peek_Some_lt in Hp. lia.
Qed.

Lemma reaches_count (input : string) (position : nat) (cmds : list ReActCommand) :
  reaches input position cmds ->
  (length cmds <= closeBracketsBefore input position)%nat.
Proof.
  induction 1 as [|position cmds position' cmds' _ IH Hlt Hstep]; [simpl; lia|].
  destruct (tokenizeStep_cases input position position' cmds cmds' Hlt Hstep)
    as (ty & args & p4 & Hmove & [(Hclose & -> & ->)|(Hopen & -> & Hend & ->)]).
  - rewrite closeBracketsBefore_S, Hclose.
    pose proof (closeBracketsBefore_mono input position p4 ltac:(lia)).
    destruct (_ && _); [rewrite length_app; simpl|]; lia.
  - rewrite overwriteLast_length.
    pose proof (closeBracketsBefore_mono input position p4 ltac:(lia)). lia.
Qed.

(** X11: [tokenize] never returns more commands than the input has
    closing brackets; an input without any closing bracket yields no
    command at all. *)
Theorem commands_bounded_by_close_brackets (input : string) :
  (length (tokenize input) <= countCloseBrackets input)%nat
  /\ (countCloseBrackets input = 0%nat -> tokenize input = []).
Proof.
  destruct (tokenize_reached input) as (position & Hreach & Hend).
  apply reaches_count in Hreach.
  rewrite closeBracketsBefore_beyond in Hreach by done.
  split; [done|]. intros Hz. rewrite Hz in Hreach.
  destruct (tokenize input); [done|simpl in Hreach; lia].
Qed.

(** ** Well-formed commands *)

Lemma removelast_overwriteLast (cmds : list ReActCommand)
    (commandType : string) (args : list string) :
  removelast (overwriteLast cmds commandType args) = removelast cmds.
Proof.
  destruct cmds as [|c cmds] using rev_ind; [done|].
  by rewrite overwriteLast_snoc, !removelast_last.
Qed.

Lemma Forall_removelast {A} (P : A -> Prop) (l : list A) :
  Forall P l -> Forall P (removelast l).
Proof.
  intros H. destruct l as [|x l] using rev_ind; [done|].
  rewrite removelast_last. by apply Forall_app in H as [H _].
Qed.

Lemma reaches_wellFormed (input : string) (position : nat)
    (cmds : list ReActCommand) :
  reaches input position cmds ->
  ((position < String.length input)%nat -> Forall wellFormed cmds)
  /\ Forall wellFormed (removelast cmds).
Proof.
  induction 1 as [|position cmds position' cmds' _ [IH _] Hlt Hstep];
    [by split|].
  specialize (IH Hlt).
  destruct (tokenizeStep_cases input position position' cmds cmds' Hlt Hstep)
    as (ty & args & p4 & Hmove & [(Hclose & -> & ->)|(Hopen & -> & Hend & ->)]).
  - assert (Hall : Forall wellFormed
              (if negb (String.eqb ty EmptyString) && startsUppercase ty
               then cmds ++ [mkReActCommand ty args] else cmds)).
    { destruct (negb (String.eqb ty EmptyString) && startsUppercase ty) eqn:Hv;
        [|done].
      apply andb_true_iff in Hv as [Hne Hup]. apply Forall_app. split; [done|].
      constructor; [|done]. split; [|done]. simpl.
      destruct (String.eqb_spec ty EmptyString); done. }
    split; [done|by apply Forall_removelast].
  - split; [lia|]. rewrite removelast_overwriteLast. by apply Forall_removelast.
Qed.

(** X12: every command [tokenize] returns, except possibly the last
    one, has a non-empty type that starts with an uppercase letter. *)
Theorem all_but_last_command_wellFormed (input : string) :
  Forall wellFormed (removelast (tokenize input)).
Proof.
  destruct (tokenize_reached input) as (position & Hreach & _).
  by apply reaches_wellFormed in Hreach as [_ H].
Qed.

(** ** Appending without change *)

(** X13: an [append] after which the command list is what it was
    reports nothing; so does appending the empty string. *)
Theorem append_quiet_when_unchanged
    (lexer : Lexer) (ch : string) (chunks : list string) :
  (tokenize (buffer lexer ++ ch) = commands lexer -> (append lexer ch).1 = [])
  /\ (append (appendAll newLexer chunks) EmptyString).1 = [].
Proof.
  assert (Hquiet : forall lx c,
    tokenize (buffer lx ++ c) = commands lx -> (append lx c).1 = []).
  { intros lx c Hsame. unfold append. simpl. rewrite Hsame.
    rewrite Nat.ltb_irrefl, Nat.min_id. simpl.
    rewrite (changed_are_filtered (commands lx) (commands lx)).
    - induction (seq 0 (length (commands lx))) as [|i l IH]; [done|].
      rewrite filter_cons, decide_False by (intros H; by apply H). done.
    - apply Forall_forall. intros i Hi. apply elem_of_seq in Hi. lia. }
  split; [apply Hquiet|].
  apply Hquiet. rewrite string_app_nil_r.
  destruct (appendAll_state chunks) as [-> ->]. done.
Qed.

Lemma commands_bounded_by_close_brackets_witness :
  tokenize completeThenOpen = [mkReActCommand "B" ["y"]]
  /\ tokenize "Go[unfinished" = [].
Proof.
  destruct (commands_bounded_by_close_brackets "Go[unfinished") as [_ Hnone].
  split; [reflexivity|]. apply Hnone. reflexivity.
Defined.

Lemma append_quiet_when_unchanged_witness :
  (append (mkLexer "Go[" []) "x").1 = [].
Proof.
  destruct (append_quiet_when_unchanged (mkLexer "Go[" []) "x" []) as [Hquiet _].
  apply Hquiet. vm_compute. reflexivity.
Defined.

End LexerMore.

(* ===================================================================== *)
(** * Further properties of the transport *)
(* ===================================================================== *)

Module AiApiMore.
Import Js AiApi StreamViews DatabaseSchemaExtractor AiApiProps.

(** ** The retry loop under any transport *)

Lemma onerror_cases (cfg : RetryConfig) (e : string) (draw : Q) (st : RetryState) :
  (exists t ts, onerror cfg e draw st = (Rethrow t, st, ts))
  \/ ((0 < tries st)%Z /\ e <> "FatalError" /\
      onerror cfg e draw st
      = (RetryAfter (calculateRetryDelay cfg (currentAttempt st + 1) draw),
         mkRetryState (tries st - 1) (currentAttempt st + 1), [])).
Proof.
  unfold onerror.
  destruct (decide (e = "FatalError")); [left; by eexists _, _|].
  destruct (decide (e = "RetriableError")).
  all: destruct (Z.leb_spec (tries st) 0); [left; by eexists _, _|right; done].
Qed.

Lemma fetchLoop_any_transport (cfg : RetryConfig)
    (transport : nat -> Attempt) (random : nat -> Q) :
  forall (fuel n : nat) (st : RetryState) (waits : list Q)
         (shown : list string) (run : Run),
    fetchLoop cfg fuel transport random n st waits shown = Some run ->
    currentAttempt st = Z.of_nat n ->
    length waits = n ->
    (forall i d, waits !! i = Some d ->
       d = calculateRetryDelay cfg (Z.of_nat i + 1) (random i)) ->
    (n < attempts run)%nat
    /\ (attempts run <= n + Z.to_nat (tries st) + 1)%nat
    /\ length (delays run) = (attempts run - 1)%nat
    /\ (forall i d, delays run !! i = Some d ->
          d = calculateRetryDelay cfg (Z.of_nat i + 1) (random i)).
Proof.
  induction fuel as [|fuel IH]; intros n st waits shown run Hrun Hcur Hlen Hw;
    [discriminate|].
  simpl in Hrun. destruct (attemptError (transport n)) as [e|].
  - destruct (onerror_cases cfg e (random n) st)
      as [(t & ts & Herr)|(Hpos & _ & Herr)]; rewrite Herr in Hrun.
    + injection Hrun as <-. simpl.
      split; [lia|]. split; [lia|]. split; [lia|done].
    + apply IH in Hrun as (H1 & H2 & H3 & H4); simpl.
      * simpl in H2. split; [lia|]. split; [lia|]. split; done.
      * simpl. lia.
      * rewrite length_app. simpl. lia.
      * intros i d Hi. apply lookup_app_Some in Hi as [Hi|[Hge Hi]].
        -- by apply Hw.
        -- rewrite Hlen in *. destruct (i - n)%nat as [|j] eqn:Hj; [|done].
           injection Hi as <-. assert (i = n) as -> by lia.
           by rewrite Hcur.
  - injection Hrun as <-. simpl.
    split; [lia|]. split; [lia|]. split; [lia|done].
Qed.

(** X14: whatever the transport does, [directChatOpenAi] ends after at
    least one and at most [maxRetries + 1] connection attempts, waits
    exactly once between two consecutive attempts, and the wait after
    attempt number [i] (from 0) is [calculateRetryDelay(i + 1)]: the
    attempt counter is incremented before the delay is computed, so the
    first wait is already based on [initialDelayMs * backoffMultiplier]. *)
Theorem retry_ceiling_any_transport (cfg : RetryConfig)
    (transport : nat -> Attempt) (random : nat -> Q) :
  exists run,
    directChatOpenAi cfg transport random = Some run
    /\ (1 <= attempts run <= Z.to_nat (maxRetries cfg) + 1)%nat
    /\ length (delays run) = (attempts run - 1)%nat
    /\ (forall i d, delays run !! i = Some d ->
          d = calculateRetryDelay cfg (Z.of_nat i + 1) (random i)).
Proof.
  destruct (directChatOpenAi_total cfg transport random) as [run Hrun].
  exists run. split; [exact Hrun|].
  apply fetchLoop_any_transport in Hrun as (H1 & H2 & H3 & H4); simpl in *;
    [|done|done|intros i d [=]].
  split; [lia|]. split; done.
Qed.

(** X15: with the configuration of the source and draws of
    [Math.random()] in [[0, 1)], every wait of every run is at least 2000
    ms and at most [maxDelayMs + jitterMs] = 10500 ms. *)
Theorem every_wait_is_bounded
    (transport : nat -> Attempt) (random : nat -> Q) (run : Run) (d : Q) :
  (forall i, (0 <= random i)%Q /\ (random i < 1)%Q) ->
  directChatOpenAi RETRY_CONFIG transport random = Some run ->
  d ∈ delays run ->
  (2000 <= d)%Q /\ (d <= 10500)%Q.
Proof.
  intros Hdraw Hrun Hd.
  pose proof Hrun as Hloop.
  apply fetchLoop_any_transport in Hloop as (_ & Hmax & Hlen & Hform);
    [|done|done|intros i' d' [=]].
  apply list_elem_of_lookup in Hd as [i Hi].
  pose proof (lookup_lt_Some _ _ _ Hi) as Hlt.
  rewrite (Hform i d Hi). destruct (Hdraw i) as [H0 H1].
  simpl in Hmax. assert (Hi3 : (i < 3)%nat) by lia.
  destruct (delay_bounds (Z.of_nat i + 1) (random i) ltac:(lia) H0 ltac:(lra))
    as (_ & Hlow & Hhigh).
  assert (Hb : (2000 <= cappedBackoff RETRY_CONFIG (Z.of_nat i + 1))%Q
               /\ (cappedBackoff RETRY_CONFIG (Z.of_nat i + 1) <= 10000)%Q).
  { destruct i as [|[|[|i]]]; [| | |lia].
    all: vm_compute; split; discriminate. }
  split; lra.
Qed.

Lemma every_wait_is_bounded_witness :
  (2000 <= calculateRetryDelay RETRY_CONFIG 1 0)%Q
  /\ (calculateRetryDelay RETRY_CONFIG 1 0 <= 10500)%Q.
Proof.
  apply (every_wait_is_bounded busyOnce noJitter
           (mkRun 2 Resolved [calculateRetryDelay RETRY_CONFIG 1 0] [])).
  - intros i. vm_compute. split; [discriminate|reflexivity].
  - reflexivity.
  - apply list_elem_of_here.
Defined.

(** When no attempt ever ends in a fatal error or a success, the tries
    run out. *)
Lemma fetchLoop_never_fatal (cfg : RetryConfig)
    (transport : nat -> Attempt) (random : nat -> Q) (errors : nat -> string) :
  (forall k, attemptError (transport k) = Some (errors k)
             /\ errors k <> "FatalError") ->
  forall (fuel n : nat) (st : RetryState) (waits : list Q) (shown : list string),
    (0 <= tries st)%Z ->
    (Z.to_nat (tries st) < fuel)%nat ->
    exists run,
      fetchLoop cfg fuel transport random n st waits shown = Some run /\
      attempts run = (n + Z.to_nat (tries st) + 1)%nat /\
      outcome run =
        Rejected (if decide (errors (n + Z.to_nat (tries st))%nat = "RetriableError")
                  then busyError else errors (n + Z.to_nat (tries st))%nat).
Proof.
  intros Hall. induction fuel as [|fuel IH]; intros n st waits shown Hge Hfuel;
    [lia|].
  simpl. destruct (Hall n) as [-> Hnf].
  destruct (decide (tries st <= 0)%Z) as [Hz|Hpos].
  - assert (Z.to_nat (tries st) = 0%nat) as -> by lia.
    rewrite Nat.add_0_r. unfold onerror. rewrite decide_False by done.
    destruct (decide (errors n = "RetriableError")).
    all: destruct (Z.leb_spec (tries st) 0); [|lia].
    all: eexists; split; [reflexivity|]; simpl; split; [lia|done].
  - destruct (onerror_cases cfg (errors n) (random n) st)
      as [(t & ts & Herr)|(_ & _ & Herr)].
    + exfalso. unfold onerror in Herr. rewrite decide_False in Herr by done.
      destruct (decide (errors n = "RetriableError")).
      all: destruct (Z.leb_spec (tries st) 0); [lia|discriminate].
    + rewrite Herr.
      destruct (IH (S n) (mkRetryState (tries st - 1) (currentAttempt st + 1))
                  (waits ++ [calculateRetryDelay cfg (currentAttempt st + 1)
                                                 (random n)])
                  (shown ++ [])) as (run & Hrun & Hatt & Hout); simpl; [lia|lia|].
      exists run. split; [exact Hrun|]. simpl in *.
      replace (n + Z.to_nat (tries st))%nat
        with (S n + Z.to_nat (tries st - 1))%nat by lia.
      split; [lia|done].
Qed.

(** X16: if every connection attempt fails and none of the failures is
    fatal (any mix of retriable responses and other errors such as a
    failed fetch), exactly [maxRetries + 1] attempts are made; the
    operation is then rejected with the service-busy text when the last
    failure was a retriable response and with the last error itself
    otherwise. *)
Theorem non_fatal_failures_exhaust_retries (cfg : RetryConfig)
    (transport : nat -> Attempt) (random : nat -> Q) (errors : nat -> string) :
  (0 <= maxRetries cfg)%Z ->
  (forall k, attemptError (transport k) = Some (errors k)
             /\ errors k <> "FatalError") ->
  exists run,
    directChatOpenAi cfg transport random = Some run /\
    attempts run = S (Z.to_nat (maxRetries cfg)) /\
    outcome run =
      Rejected (if decide (errors (Z.to_nat (maxRetries cfg)) = "RetriableError")
                then busyError else errors (Z.to_nat (maxRetries cfg))).
Proof.
  intros Hmax Hall.
  destruct (fetchLoop_never_fatal cfg transport random errors Hall
              (S (Z.to_nat (maxRetries cfg))) 0
              (mkRetryState (maxRetries cfg) 0) [] [])
    as (run & Hrun & Hatt & Hout); simpl; [lia|lia|].
  exists run. split; [exact Hrun|]. simpl in *. split; [lia|done].
Qed.

Lemma non_fatal_failures_exhaust_retries_witness :
  exists run,
    directChatOpenAi RETRY_CONFIG
      (fun _ => FetchFails "TypeError: Failed to fetch") noJitter = Some run /\
    attempts run = 4%nat /\
    outcome run = Rejected "TypeError: Failed to fetch".
Proof.
  apply (non_fatal_failures_exhaust_retries RETRY_CONFIG
           (fun _ => FetchFails "TypeError: Failed to fetch") noJitter
           (fun _ => "TypeError: Failed to fetch")).
  - simpl. lia.
  - intros k. split; [reflexivity|discriminate].
Defined.

End AiApiMore.

(* ===================================================================== *)
(** * Accounting of a delivered stream, chatReAct, retryDatabaseFetch *)
(* ===================================================================== *)

Module StreamMore.
Import Js AiApi StreamViews CommandLexer ReAct DatabaseSchemaExtractor.
Import LexerProps LexerMore.

Section Messages.
Variable JSON_parse : string -> option JsValue.
Variable numberToString : Q -> string.

Local Abbreviation onmessage := (onmessage JSON_parse numberToString true).
Local Abbreviation deliver := (deliver JSON_parse numberToString true).
Local Abbreviation joinFragments := (joinFragments numberToString).
Local Abbreviation runningTexts := (runningTexts numberToString).

Lemma onmessage_accounting (data : string) (st : StreamState) :
  let out := (onmessage data st).1 in
  let st' := (onmessage data st).2 in
  fullText st' = joinFragments (fullText st) (fragmentsOf out)
  /\ completionTokenCount st'
     = (completionTokenCount st + length (fragmentsOf out))%nat
  /\ Forall (fun d => truthy d = true) (fragmentsOf out)
  /\ callTexts out = runningTexts (fullText st) (fragmentsOf out).
Proof.
  unfold AiApi.onmessage.
  destruct (decide (data = "[DONE]")); [simpl; repeat split; [lia|done]|].
  destruct (JSON_parse data) as [json|]; [|simpl; repeat split; [lia|done]].
  destruct (deltaContent json) as [d|]; [|simpl; repeat split; [lia|done]].
  destruct (truthy d) eqn:Ht; simpl; repeat split; try lia; try done.
  by constructor.
Qed.

Lemma joinFragments_app (text : string) (a b : list JsValue) :
  joinFragments text (a ++ b) = joinFragments (joinFragments text a) b.
Proof. unfold StreamViews.joinFragments. by rewrite foldl_app. Qed.

Lemma runningTexts_app (text : string) (a b : list JsValue) :
  runningTexts text (a ++ b)
  = runningTexts text a ++ runningTexts (joinFragments text a) b.
Proof.
  revert text. induction a as [|d a IH]; intros text; [done|].
  simpl. by rewrite IH.
Qed.

Lemma deliver_accounting (events : list string) (st : StreamState) :
  let out := (deliver events st).1 in
  let st' := (deliver events st).2 in
  fullText st' = joinFragments (fullText st) (fragmentsOf out)
  /\ completionTokenCount st'
     = (completionTokenCount st + length (fragmentsOf out))%nat
  /\ Forall (fun d => truthy d = true) (fragmentsOf out)
  /\ callTexts out = runningTexts (fullText st) (fragmentsOf out).
Proof.
  revert st. induction events as [|data events IH]; intros st.
  - simpl. repeat split; [lia|done].
  - simpl. pose proof (onmessage_accounting data st) as (H1 & H2 & H3 & H4).
    destruct (onmessage data st) as [o s1]. simpl in *.
    specialize (IH s1). destruct (deliver events s1) as [os s2]. simpl in *.
    destruct IH as (I1 & I2 & I3 & I4).
    unfold fragmentsOf, callTexts in *. rewrite !omap_app.
    rewrite joinFragments_app, runningTexts_app, length_app.
    rewrite <- H1, <- H4, <- I4, I1, I2, H2.
    split; [done|]. split; [lia|]. split; [by apply Forall_app|done].
Qed.


(** The callback of [chatReAct] keeps the lexer's buffer equal to the
    collected text and its commands equal to the tokenization of it. *)
Lemma onEffects_ReAct (out : list Effect) :
  forall (acc : string * Lexer),
    Forall (fun d => truthy d = true) (fragmentsOf out) ->
    buffer acc.2 = acc.1 ->
    commands acc.2 = tokenize (buffer acc.2) ->
    let acc' := foldl (onEffectReAct numberToString) acc out in
    acc'.1 = joinFragments acc.1 (fragmentsOf out)
    /\ buffer acc'.2 = acc'.1
    /\ commands acc'.2 = tokenize (buffer acc'.2).
Proof.
  induction out as [|e out IH]; intros acc Htruthy Hbuf Hcmd; [done|].
  simpl. destruct e as [t d| |]; simpl in *; try by apply IH.
  apply Forall_cons in Htruthy as [Hd Htruthy].
  unfold onStreamReAct. rewrite Hd.
  destruct (IH ((acc.1 ++ toString numberToString d)%string,
                (append acc.2 (toString numberToString d)).2))
    as (I1 & I2 & I3); simpl; [done|by rewrite Hbuf|done|].
  done.
Qed.

(** X18: [chatReAct] returns as [fullText] exactly the text the
    transport accumulated for the same events, and as commands the
    one-pass tokenization of that text. *)
Theorem chatReAct_tokenizes_full_text (events : list string) :
  let text := fullText (deliver events initialStream).2 in
  chatReAct JSON_parse numberToString events = (tokenize text, text).
Proof.
  unfold chatReAct.
  pose proof (deliver_accounting events initialStream) as (H1 & _ & H3 & _).
  destruct (onEffects_ReAct (deliver events initialStream).1
              (EmptyString, newLexer) H3 eq_refl eq_refl) as (I1 & I2 & I3).
  simpl in *. rewrite I3, I2, I1, H1. done.
Qed.

End Messages.

(** ** retryDatabaseFetch *)

Lemma retryLoop_spec (maxRetries : Z) (fetch : nat -> bool) :
  forall (remaining attempt : nat) (waits : list Z),
    (Z.of_nat (attempt + remaining) = maxRetries + 1)%Z ->
    waits = (fun k => (1000 * 2 ^ Z.of_nat k)%Z) <$> seq 0 attempt ->
    let '(ok, attempts, waits') :=
      retryLoop remaining attempt maxRetries fetch waits in
    (ok = true <-> exists k, (attempt <= k < attempt + remaining)%nat
                             /\ fetch k = true)
    /\ (attempt <= attempts <= attempt + remaining)%nat
    /\ (ok = true -> fetch (attempts - 1)%nat = true /\ (attempt < attempts)%nat)
    /\ (ok = false -> attempts = (attempt + remaining)%nat)
    /\ (forall k, (attempt <= k)%nat -> (S k < attempts)%nat -> fetch k = false)
    /\ (remaining <> 0%nat ->
        waits' = (fun k => (1000 * 2 ^ Z.of_nat k)%Z) <$> seq 0 (attempts - 1)).
Proof.
  induction remaining as [|remaining IH]; intros attempt waits Hsum Hw; simpl.
  - split; [split; [done|intros (k & Hk & _); lia]|].
    split; [lia|]. split; [done|]. split; [intros _; lia|].
    split; [intros; lia|done].
  - destruct (fetch attempt) eqn:Hf.
    + split; [split; [intros _; exists attempt; split; [lia|done]|done]|].
      replace (S attempt - 1)%nat with attempt by lia.
      split; [lia|]. split; [intros _; split; [done|lia]|].
      split; [done|]. split; [intros; lia|].
      intros _. exact Hw.
    + set (waits' := if (Z.of_nat attempt <? maxRetries)%Z
                     then waits ++ [(1000 * 2 ^ Z.of_nat attempt)%Z] else waits).
      destruct remaining as [|remaining'].
      * simpl. split; [split; [done|]|].
        { intros (k & Hk & Hk'). assert (k = attempt) as -> by lia. congruence. }
        split; [lia|]. split; [done|]. split; [intros _; lia|].
        split; [intros k ? ?; assert (k = attempt) as -> by lia; done|].
        intros _. subst waits'.
        destruct (Z.ltb_spec (Z.of_nat attempt) maxRetries); [lia|].
        by rewrite Nat.sub_0_r.
      * specialize (IH (S attempt) waits').
        destruct (retryLoop (S remaining') (S attempt) maxRetries fetch waits')
          as [[ok attempts] ws].
        destruct IH as (I1 & I2 & I3 & I4 & I5 & I6).
        -- lia.
        -- subst waits'.
           destruct (Z.ltb_spec (Z.of_nat attempt) maxRetries); [|lia].
           rewrite seq_S, fmap_app. simpl. by rewrite Hw.
        -- split.
           { rewrite I1. split; intros (k & Hk & Hk').
             - exists k. split; [lia|done].
             - exists k. split; [|done].
               destruct (decide (k = attempt)) as [->|]; [congruence|lia]. }
           split; [lia|]. split; [intros Hok; destruct (I3 Hok); split; [done|lia]|].
           split; [intros Hok; rewrite (I4 Hok); lia|].
           split.
           { intros k Hk Hk'. destruct (decide (k = attempt)) as [->|]; [done|].
             apply I5; lia. }
           intros _. by apply I6.
Qed.

Lemma sumZ_powers (n : nat) :
  sumZ ((fun k => (1000 * 2 ^ Z.of_nat k)%Z) <$> seq 0 n)
  = (1000 * (2 ^ Z.of_nat n - 1))%Z.
Proof.
  induction n as [|n IH]; [done|].
  rewrite seq_S, fmap_app. unfold sumZ in *. rewrite foldr_app. simpl.
  assert (Hshift : forall (l : list Z) (a : Z),
            foldr Z.add a l = (foldr Z.add 0 l + a)%Z).
  { induction l as [|x l IHl]; intros a; simpl; [lia|]. rewrite IHl. lia. }
  rewrite Hshift, IH.
  rewrite Nat2Z.inj_succ, Z.pow_succ_r by lia. lia.
Qed.

(** X19: [retryDatabaseFetch] returns [true] exactly when one of the
    fetches number 0 to [maxRetries] succeeds, and it stops at the first
    success; it makes at most [maxRetries + 1] fetches; it waits 1000,
    2000, 4000, ... ms after each failed fetch but the last allowed one,
    in total [1000 * (2^w - 1)] ms for [w] waits, one wait fewer than
    fetches. *)
Theorem retryDatabaseFetch_spec (maxRetries : Z) (fetch : nat -> bool) :
  (0 <= maxRetries)%Z ->
  let '(ok, attempts, waits) := retryDatabaseFetch maxRetries fetch in
  (ok = true <-> exists k, (Z.of_nat k <= maxRetries)%Z /\ fetch k = true)
  /\ (1 <= attempts)%nat /\ (Z.of_nat attempts <= maxRetries + 1)%Z
  /\ (ok = true -> fetch (attempts - 1)%nat = true)
  /\ (forall k, (S k < attempts)%nat -> fetch k = false)
  /\ waits = (fun k => (1000 * 2 ^ Z.of_nat k)%Z) <$> seq 0 (attempts - 1)
  /\ sumZ waits = (1000 * (2 ^ Z.of_nat (attempts - 1) - 1))%Z.
Proof.
  intros Hmax. unfold retryDatabaseFetch.
  pose proof (retryLoop_spec maxRetries fetch (Z.to_nat (maxRetries + 1)) 0 [])
    as Hspec.
  destruct (retryLoop (Z.to_nat (maxRetries + 1)) 0 maxRetries fetch [])
    as [[ok attempts] waits].
  destruct Hspec as (H1 & H2 & H3 & H4 & H5 & H6); [lia|done|].
  assert (Hw : waits = (fun k => (1000 * 2 ^ Z.of_nat k)%Z)
                         <$> seq 0 (attempts - 1)) by (apply H6; lia).
  split.
  { rewrite H1. split; intros (k & Hk & Hk'); exists k; (split; [lia|done]). }
  split.
  { destruct ok; [destruct (H3 eq_refl); lia|rewrite (H4 eq_refl); lia]. }
  split; [lia|]. split; [intros Hok; by destruct (H3 Hok)|].
  split; [intros k Hk; apply H5; lia|].
  split; [exact Hw|]. rewrite Hw. apply sumZ_powers.
Qed.

Lemma retryDatabaseFetch_spec_witness :
  retryDatabaseFetch 2 (fun _ => false) = (false, 3%nat, [1000%Z; 2000%Z])
  /\ sumZ (retryDatabaseFetch 2 (fun _ => false)).2 = 3000%Z.
Proof.
  pose proof (retryDatabaseFetch_spec 2 (fun _ => false)) as Hspec.
  destruct (retryDatabaseFetch 2 (fun _ => false)) as [[ok attempts] waits] eqn:Hrun.
  destruct Hspec as (_ & _ & _ & _ & _ & _ & Hsum); [lia|].
  vm_compute in Hrun. injection Hrun as <- <- <-. split; [reflexivity|].
  exact Hsum.
Defined.

End StreamMore.

(* ===================================================================== *)
(** * Further properties of the debounced callbacks *)
(* ===================================================================== *)

Module AiQueryMore.
Import AiQuery AiQueryViews.

Lemma handleAll_app (h : Handlers) (pre post : list ParserEvent)
    (st : DebounceState) :
  handleAll h (pre ++ post) st
  = ((handleAll h pre st).1 ++ (handleAll h post (handleAll h pre st).2).1,
     (handleAll h post (handleAll h pre st).2).2).
Proof.
  revert st. induction pre as [|ev pre IH]; intros st; simpl.
  - by destruct (handleAll h post st).
  - destruct (handle h ev st) as [out st1]. rewrite IH.
    destruct (handleAll h pre st1) as [o1 s1]. simpl.
    destruct (handleAll h post s1) as [o2 s2]. simpl. by rewrite app_assoc.
Qed.

Lemma handle_tags (ev : ParserEvent) (st : DebounceState) :
  filter (fun c => isStream c = false) (handle allHandlers ev st).1
  = filter (fun c => isStream c = false)
           (if isContent ev then [] else [directCallback ev]).
Proof.
  destruct ev as [now t x|t a|t f]; simpl.
  - by destruct (now - lastUpdateTime st <? UPDATE_INTERVAL)%Z.
  - done.
  - by destruct (streamBuffer st) as [[t' x']|].
Qed.

(** X20: with all callbacks supplied, the tag-open and tag-end calls of
    a whole [chatStreamXml] run are exactly the tag events the parser
    reported, in the same order: debouncing never drops, repeats or
    reorders them. *)
Theorem tag_callbacks_are_tag_events (evs : list ParserEvent) :
  filter (fun c => isStream c = false) (chatStreamXml allHandlers evs)
  = directCallback <$> filter (fun ev => isContent ev = false) evs.
Proof.
  unfold chatStreamXml.
  assert (Hall : forall st,
    filter (fun c => isStream c = false) (handleAll allHandlers evs st).1
    = directCallback <$> filter (fun ev => isContent ev = false) evs).
  { induction evs as [|ev evs IH]; intros st; [done|]. simpl.
    pose proof (handle_tags ev st) as Hev.
    destruct (handle allHandlers ev st) as [out st1]. simpl in Hev.
    specialize (IH st1). destruct (handleAll allHandlers evs st1) as [outs st2].
    simpl in *. rewrite filter_app, Hev, IH, filter_cons.
    destruct ev; simpl; done. }
  specialize (Hall initialDebounce).
  destruct (handleAll allHandlers evs initialDebounce) as [outs st]. simpl in *.
  rewrite filter_app, Hall.
  destruct (streamBuffer st) as [[t x]|]; simpl; by rewrite app_nil_r.
Qed.

Lemma held_update_is_delivered (post : list ParserEvent) :
  Forall (fun ev => isContent ev = false) post ->
  forall (st : DebounceState) (t x : string),
    streamBuffer st = Some (t, x) ->
    OnStream t x ∈ (handleAll allHandlers post st).1
    \/ streamBuffer (handleAll allHandlers post st).2 = Some (t, x).
Proof.
  induction 1 as [|ev post Hev _ IH]; intros st t x Hbuf; [by right|].
  simpl. destruct ev as [now t' x'|t' a|t' f]; [done| |]; simpl.
  - specialize (IH st t x Hbuf).
    destruct (handleAll allHandlers post st) as [outs st2]. simpl in *.
    destruct IH as [IH|IH]; [left; by apply elem_of_cons; right|by right].
  - rewrite Hbuf. simpl.
    destruct (handleAll allHandlers post _) as [outs st2]. simpl.
    left. apply elem_of_cons. by left.
Qed.

Lemma held_update_is_flushed_by_tag_end (post : list ParserEvent) :
  Forall (fun ev => isContent ev = false) post ->
  (exists t f, TagEnd t f ∈ post) ->
  forall (st : DebounceState) (t x : string),
    streamBuffer st = Some (t, x) ->
    OnStream t x ∈ (handleAll allHandlers post st).1.
Proof.
  induction 1 as [|ev post Hev _ IH]; intros (t0 & f0 & Hin) st t x Hbuf.
  - by apply elem_of_nil in Hin.
  - simpl. destruct ev as [now t' x'|t' a|t' f]; [done| |]; simpl.
    + apply elem_of_cons in Hin as [[=]|Hin].
      specialize (IH ltac:(by exists t0, f0) st t x Hbuf).
      destruct (handleAll allHandlers post st) as [outs st2]. simpl in *.
      by apply elem_of_cons; right.
    + rewrite Hbuf. simpl.
      destruct (handleAll allHandlers post _) as [outs st2]. simpl.
      apply elem_of_cons. by left.
Qed.

Lemma tag_opens_leave_buffer (post : list ParserEvent) :
  Forall (fun ev => isContent ev = false) post ->
  (forall t f, TagEnd t f ∉ post) ->
  forall st : DebounceState, (handleAll allHandlers post st).2 = st.
Proof.
  induction 1 as [|ev post Hev _ IH]; intros Hno st; [done|].
  simpl. destruct ev as [now t' x'|t' a|t' f]; [done| |].
  - simpl. rewrite <- (IH (fun t f Hin => Hno t f (list_elem_of_further _ _ _ Hin)) st) at 2.
    by destruct (handleAll allHandlers post st).
  - exfalso. apply (Hno t' f). apply list_elem_of_here.
Qed.

(** X21: when the stream resolves, the last content update is always
    passed to [onStream], directly or by a flush, however the clock
    runs.  When the stream rejects, the final flush is not reached: the
    update is still delivered if a tag end follows it, and if it was held
    back and no tag end follows it, that call, which ends the trace of
    the resolving run, is missing. *)
Theorem last_content_update_is_delivered
    (pre post : list ParserEvent) (now : Z) (tagName text : string) :
  Forall (fun ev => isContent ev = false) post ->
  let evs := pre ++ Content now tagName text :: post in
  OnStream tagName text ∈ chatStreamXml allHandlers evs
  /\ ((exists t f, TagEnd t f ∈ post) ->
      OnStream tagName text ∈ chatStreamXmlRejected allHandlers evs)
  /\ ((forall t f, TagEnd t f ∉ post) ->
      (now - lastUpdateTime (handleAll allHandlers pre initialDebounce).2
       < UPDATE_INTERVAL)%Z ->
      chatStreamXml allHandlers evs
      = chatStreamXmlRejected allHandlers evs ++ [OnStream tagName text]).
Proof.
  intros Hpost evs. subst evs. unfold chatStreamXml, chatStreamXmlRejected.
  rewrite handleAll_app.
  destruct (handleAll allHandlers pre initialDebounce) as [o1 s1]. simpl.
  destruct (Z.ltb_spec (now - lastUpdateTime s1) UPDATE_INTERVAL) as [Hheld|Hdirect].
  - split; [|split].
    + destruct (held_update_is_delivered post Hpost
                  (mkDebounce (Some (tagName, text)) (lastUpdateTime s1))
                  tagName text eq_refl) as [Hin|Hbuf].
      * destruct (handleAll allHandlers post _) as [o2 s2]. simpl in *.
        rewrite !elem_of_app. auto.
      * destruct (handleAll allHandlers post _) as [o2 s2]. simpl in *.
        rewrite Hbuf. simpl. rewrite !elem_of_app, elem_of_cons. auto.
    + intros Hend.
      pose proof (held_update_is_flushed_by_tag_end post Hpost Hend
                    (mkDebounce (Some (tagName, text)) (lastUpdateTime s1))
                    tagName text eq_refl) as Hin.
      destruct (handleAll allHandlers post _) as [o2 s2]. simpl in *.
      rewrite !elem_of_app. auto.
    + intros Hno _.
      pose proof (tag_opens_leave_buffer post Hpost Hno
                    (mkDebounce (Some (tagName, text)) (lastUpdateTime s1)))
        as Hst.
      destruct (handleAll allHandlers post _) as [o2 s2]. simpl in *.
      by rewrite Hst.
  - split; [|split].
    + destruct (handleAll allHandlers post _) as [o2 s2]. simpl.
      rewrite !elem_of_app, elem_of_cons. auto.
    + intros _. destruct (handleAll allHandlers post _) as [o2 s2]. simpl.
      rewrite !elem_of_app, elem_of_cons. auto.
    + intros _ Hlt. lia.
Qed.

(** The update "ab" comes 5 ms after "a" and is held back; a resolving
    run delivers it by the final flush, a rejecting run never does. *)
Lemma last_content_update_is_delivered_witness :
  OnStream "code" "abc" ∈ chatStreamXml allHandlers staleUpdateStream
  /\ OnStream "code" "abc" ∈ chatStreamXmlRejected allHandlers staleUpdateStream
  /\ chatStreamXml allHandlers
       [Content 1000 "code" "a"; Content 1005 "code" "ab"]
     = [OnStream "code" "a"; OnStream "code" "ab"]
  /\ chatStreamXmlRejected allHandlers
       [Content 1000 "code" "a"; Content 1005 "code" "ab"]
     = [OnStream "code" "a"].
Proof.
  destruct (last_content_update_is_delivered
              [Content 1000 "code" "a"; Content 1005 "code" "ab"]
              [TagEnd "code" "abc"] 1020 "code" "abc")
    as (Hres & Hrej & _); [by repeat constructor|].
  destruct (last_content_update_is_delivered
              [Content 1000 "code" "a"] [] 1005 "code" "ab")
    as (_ & _ & Hlost); [by constructor|].
  split; [exact Hres|]. split.
  - apply Hrej. exists "code", "abc". apply list_elem_of_here.
  - split; [|reflexivity].
    transitivity
      (chatStreamXmlRejected allHandlers
         ([Content 1000 "code" "a"] ++ [Content 1005 "code" "ab"])
       ++ [OnStream "code" "ab"]); [|reflexivity].
    apply Hlost; [|vm_compute; reflexivity].
    intros t f Hin. by apply elem_of_nil in Hin.
Defined.

Lemma handle_stream_calls (ev : ParserEvent) (st : DebounceState) :
  let out := (handle allHandlers ev st).1 in
  let st' := (handle allHandlers ev st).2 in
  (length (filter (fun c => isStream c = true) out) + length (held st')
   <= (if isContent ev then 1 else 0) + length (held st))%nat
  /\ (forall c, isStream c = true -> c ∈ out ++ held st' ->
        c ∈ held st \/ (isContent ev = true /\ c = directCallback ev)).
Proof.
  unfold held.
  destruct ev as [now t x|t a|t f]; simpl.
  - destruct (now - lastUpdateTime st <? UPDATE_INTERVAL)%Z; simpl.
    + split; [destruct (streamBuffer st) as [[? ?]|]; simpl; lia|].
      intros c _ Hc. apply list_elem_of_singleton in Hc. auto.
    + split; [destruct (streamBuffer st) as [[? ?]|]; simpl; lia|].
      intros c _ Hc. apply elem_of_cons in Hc as [->|Hc]; auto.
  - split; [destruct (streamBuffer st) as [[? ?]|]; simpl; lia|].
    intros c Hs Hc. apply elem_of_cons in Hc as [->|Hc]; [done|auto].
  - destruct (streamBuffer st) as [[t' x']|]; simpl.
    + split; [lia|]. intros c Hs Hc.
      apply elem_of_cons in Hc as [->|Hc]; [left; apply list_elem_of_here|].
      apply list_elem_of_singleton in Hc as ->. done.
    + split; [lia|]. intros c Hs Hc.
      apply list_elem_of_singleton in Hc as ->. done.
Qed.

(** X22: [onStream] is called at most once per content event, and only
    with a tag name and text that some content event of the stream
    carried: debouncing neither repeats nor invents an update. *)
Theorem stream_calls_come_from_content_events (evs : list ParserEvent) :
  (length (filter (fun c => isStream c = true) (chatStreamXml allHandlers evs))
   <= length (filter (fun ev => isContent ev = true) evs))%nat
  /\ (forall tagName text,
        OnStream tagName text ∈ chatStreamXml allHandlers evs ->
        exists now, Content now tagName text ∈ evs).
Proof.
  assert (Hall : forall st,
    let out := (handleAll allHandlers evs st).1 in
    let st' := (handleAll allHandlers evs st).2 in
    (length (filter (fun c => isStream c = true) out) + length (held st')
     <= length (filter (fun ev => isContent ev = true) evs)
        + length (held st))%nat
    /\ (forall c, isStream c = true -> c ∈ out ++ held st' ->
          c ∈ held st \/ exists ev, ev ∈ evs /\ isContent ev = true
                                    /\ c = directCallback ev)).
  { induction evs as [|ev evs IH]; intros st.
    - simpl. split; [lia|]. intros c _ Hc. by left.
    - simpl. pose proof (handle_stream_calls ev st) as [Hn Hc].
      destruct (handle allHandlers ev st) as [out st1]. simpl in *.
      specialize (IH st1). destruct (handleAll allHandlers evs st1) as [outs st2].
      simpl in *. destruct IH as [In Ic]. split.
      + rewrite filter_app, length_app, filter_cons.
        destruct (isContent ev); simpl in *; lia.
      + intros c Hs Hin. rewrite <- app_assoc in Hin.
        apply elem_of_app in Hin as [Hin|Hin].
        * destruct (Hc c Hs) as [?|[Hcont ->]];
            [apply elem_of_app; by left|by left|].
          right. exists ev. split; [apply list_elem_of_here|done].
        * destruct (Ic c Hs Hin) as [Hheld|(ev' & Hev' & Hcont & ->)].
          -- destruct (Hc c Hs) as [?|[Hcont ->]];
               [apply elem_of_app; by right|by left|].
             right. exists ev. split; [apply list_elem_of_here|done].
          -- right. exists ev'. split; [by apply list_elem_of_further|done]. }
  specialize (Hall initialDebounce). unfold chatStreamXml.
  destruct (handleAll allHandlers evs initialDebounce) as [outs st].
  simpl in Hall. destruct Hall as [Hn Hc]. split.
  - rewrite filter_app, length_app. unfold held in Hn. simpl.
    destruct (streamBuffer st) as [[t x]|]; simpl in *; lia.
  - intros tagName text Hin.
    destruct (Hc (OnStream tagName text) eq_refl) as [Hheld|(ev & Hev & Hcont & Heq)].
    + unfold held. simpl in Hin. by destruct (streamBuffer st) as [[t x]|].
    + by apply elem_of_nil in Hheld.
    + destruct ev as [now t x| |]; try done. injection Heq as -> ->. by exists now.
Qed.

(** X23: when every content update comes at least 16 ms after the one
    before it (and the first one at least 16 ms after time 0), nothing is
    held back: the callbacks are the parser events, one for one and in
    order. *)
Theorem well_spaced_updates_pass_through (evs : list ParserEvent) :
  wellSpaced 0 evs ->
  chatStreamXml allHandlers evs = directCallback <$> evs.
Proof.
  intros Hspaced. unfold chatStreamXml.
  assert (Hall : forall last,
    wellSpaced last evs ->
    handleAll allHandlers evs (mkDebounce None last)
    = (directCallback <$> evs,
       (handleAll allHandlers evs (mkDebounce None last)).2)
    /\ streamBuffer (handleAll allHandlers evs (mkDebounce None last)).2 = None).
  { clear Hspaced. induction evs as [|ev evs IH]; intros last Hsp; [done|].
    destruct ev as [now t x|t a|t f]; simpl in *.
    - destruct Hsp as [Hnow Hsp]. apply Z.ltb_ge in Hnow. rewrite Hnow.
      destruct (IH now Hsp) as [Hout Hbuf].
      destruct (handleAll allHandlers evs (mkDebounce None now)) as [outs st2].
      simpl in *. injection Hout as ->. done.
    - destruct (IH last Hsp) as [Hout Hbuf].
      destruct (handleAll allHandlers evs (mkDebounce None last)) as [outs st2].
      simpl in *. injection Hout as ->. done.
    - destruct (IH last Hsp) as [Hout Hbuf].
      destruct (handleAll allHandlers evs (mkDebounce None last)) as [outs st2].
      simpl in *. injection Hout as ->. done. }
  destruct (Hall 0%Z Hspaced) as [Hout Hbuf].
  change initialDebounce with (mkDebounce None 0).
  destruct (handleAll allHandlers evs (mkDebounce None 0)) as [outs st].
  simpl in *. injection Hout as ->. rewrite Hbuf. simpl. by rewrite app_nil_r.
Qed.

Lemma stream_calls_come_from_content_events_witness :
  exists now, Content now "code" "ab" ∈ staleUpdateStream.
Proof.
  destruct (stream_calls_come_from_content_events staleUpdateStream)
    as [_ Hfrom].
  apply Hfrom. vm_compute. apply list_elem_of_further, list_elem_of_further,
    list_elem_of_here.
Defined.

Lemma well_spaced_updates_pass_through_witness :
  chatStreamXml allHandlers
    [TagOpen "code" []; Content 1000 "code" "a"; Content 1016 "code" "ab";
     TagEnd "code" "ab"]
  = [OnTagOpen "code" []; OnStream "code" "a"; OnStream "code" "ab";
     OnTagEnd "code" "ab"].
Proof.
  apply (well_spaced_updates_pass_through
           [TagOpen "code" []; Content 1000 "code" "a";
            Content 1016 "code" "ab"; TagEnd "code" "ab"]).
  simpl. vm_compute. repeat split; discriminate.
Defined.

End AiQueryMore.

(* ===================================================================== *)
(** * Further properties of the OpenRouter node *)
(* ===================================================================== *)

Module OpenRouterNodeProps.
Import Js OpenRouterNode OpenRouterNodeMore LexerMore.

(** ** Splitting at line feeds *)

Lemma splitFrom_nonempty (s cur : string) : splitFrom s cur <> [].
Proof.
  revert cur. induction s as [|c s IH]; intros cur; simpl; [done|].
  destruct (Ascii.eqb c LF); [done|apply IH].
Qed.

Lemma removelast_cons_nonempty {A} (x : A) (l : list A) :
  l <> [] -> removelast (x :: l) = x :: removelast l.
Proof. by destruct l. Qed.

Lemma last_cons_nonempty {A} (x d : A) (l : list A) :
  l <> [] -> List.last (x :: l) d = List.last l d.
Proof. by destruct l. Qed.

Lemma splitFrom_app (a b cur : string) :
  splitFrom (a ++ b) cur
  = removelast (splitFrom a cur)
    ++ splitFrom b (List.last (splitFrom a cur) EmptyString).
Proof.
  revert cur. induction a as [|c a IH]; intros cur; [done|].
  change (String c a ++ b)%string with (String c (a ++ b)%string).
  simpl. destruct (Ascii.eqb c LF).
  - rewrite removelast_cons_nonempty, last_cons_nonempty
      by apply splitFrom_nonempty.
    simpl. by rewrite IH.
  - apply IH.
Qed.

Lemma noLineFeed_app (a b : string) :
  noLineFeed a -> noLineFeed b -> noLineFeed (a ++ b).
Proof.
  induction a as [|c a IH]; intros Ha Hb; [done|].
  destruct Ha as [Hc Ha]. split; [done|by apply IH].
Qed.

Lemma splitFrom_noLineFeed (s cur : string) :
  noLineFeed s -> splitFrom s cur = [(cur ++ s)%string].
Proof.
  revert cur. induction s as [|c s IH]; intros cur Hs; simpl.
  - by rewrite string_app_nil_r.
  - destruct Hs as [-> Hs]. rewrite IH by done.
    by rewrite string_app_assoc.
Qed.

Lemma last_piece_noLineFeed (s cur : string) :
  noLineFeed cur -> noLineFeed (List.last (splitFrom s cur) EmptyString).
Proof.
  revert cur. induction s as [|c s IH]; intros cur Hcur; simpl; [done|].
  destruct (Ascii.eqb c LF) eqn:Hc.
  - rewrite last_cons_nonempty by apply splitFrom_nonempty. by apply IH.
  - apply IH. apply noLineFeed_app; [done|]. by split.
Qed.

(** Splitting the buffer followed by a chunk is splitting the chunk with
    the buffer as the piece under way. *)
Lemma split_buffer_chunk (buffer chunk : string) :
  noLineFeed buffer ->
  split (buffer ++ chunk) = splitFrom chunk buffer.
Proof.
  intros Hb. unfold split. rewrite splitFrom_app.
  by rewrite splitFrom_noLineFeed.
Qed.

Section Node.
Variable JSON_parse : string -> option JsValue.
Variable numberToString : Q -> string.

Local Abbreviation handleLine := (handleLine JSON_parse numberToString).
Local Abbreviation processLines := (processLines JSON_parse numberToString).
Local Abbreviation readChunk := (readChunk JSON_parse numberToString).
Local Abbreviation processLinesCloud :=
  (processLinesCloud JSON_parse numberToString).
Local Abbreviation readTextCloud := (readTextCloud JSON_parse numberToString).

Lemma processLines_app (pre post : list string) (st : Internal) :
  processLines (pre ++ post) st
  = if (processLines pre st).1.1 then processLines pre st
    else ((processLines post (processLines pre st).2).1.1,
          (processLines pre st).1.2
            ++ (processLines post (processLines pre st).2).1.2,
          (processLines post (processLines pre st).2).2).
Proof.
  revert st. induction pre as [|line pre IH]; intros st; simpl.
  - by destruct (processLines post st) as [[r o] s].
  - destruct (handleLine line st) as [[returned out] st1].
    destruct returned; [done|].
    rewrite IH. destruct (processLines pre st1) as [[r1 o1] s1]. simpl.
    destruct r1; [done|].
    destruct (processLines post s1) as [[r2 o2] s2]. simpl.
    by rewrite app_assoc.
Qed.

(** Two consecutive chunks can be merged into one. *)
Lemma readChunk_merge (c1 c2 : string) (rest : list string)
    (buffer : string) (st : Internal) :
  noLineFeed buffer ->
  readChunk (c1 :: c2 :: rest) buffer st
  = readChunk ((c1 ++ c2)%string :: rest) buffer st.
Proof.
  intros Hb.
  change (readChunk (c1 :: c2 :: rest) buffer st) with
    (let lines := split (buffer ++ c1) in
     let '(returned, out, st1) := processLines (removelast lines) st in
     if returned then (out, st1)
     else let '(outs, st2) :=
            readChunk (c2 :: rest) (List.last lines EmptyString) st1 in
          (out ++ outs, st2)).
  change (readChunk ((c1 ++ c2)%string :: rest) buffer st) with
    (let lines := split (buffer ++ c1 ++ c2) in
     let '(returned, out, st1) := processLines (removelast lines) st in
     if returned then (out, st1)
     else let '(outs, st2) :=
            readChunk rest (List.last lines EmptyString) st1 in
          (out ++ outs, st2)).
  cbv zeta. rewrite !split_buffer_chunk by done. rewrite splitFrom_app.
  set (L1 := splitFrom c1 buffer).
  set (b1 := List.last L1 EmptyString).
  assert (Hb1 : noLineFeed b1) by (by apply last_piece_noLineFeed).
  set (L2 := splitFrom c2 b1).
  assert (HL2 : L2 <> []) by apply splitFrom_nonempty.
  assert (Hrl : removelast (removelast L1 ++ L2)
                = removelast L1 ++ removelast L2)
    by (by apply removelast_app).
  assert (Hl : List.last (removelast L1 ++ L2) EmptyString
               = List.last L2 EmptyString) by (by apply last_last_app || (
    clear -HL2; induction (removelast L1) as [|x l IH]; [done|];
    simpl; destruct (l ++ L2) eqn:E; [by destruct l, L2|exact IH])).
  rewrite Hrl, Hl, processLines_app.
  destruct (processLines (removelast L1) st) as [[r1 o1] s1]. simpl.
  destruct r1; [done|].
  change (readChunk (c2 :: rest) b1 s1) with
    (let lines := split (b1 ++ c2) in
     let '(returned, out, st1) := processLines (removelast lines) s1 in
     if returned then (out, st1)
     else let '(outs, st2) :=
            readChunk rest (List.last lines EmptyString) st1 in
          (out ++ outs, st2)).
  cbv zeta. rewrite split_buffer_chunk by done. fold L2.
  destruct (processLines (removelast L2) s1) as [[r2 o2] s2]. simpl.
  destruct r2; [done|].
  destruct (readChunk rest (List.last L2 EmptyString) s2) as [outs s3].
  by rewrite app_assoc.
Qed.

Lemma joinChunks_merge (c1 c2 : string) (rest : list string) :
  joinChunks ((c1 ++ c2)%string :: rest) = joinChunks (c1 :: c2 :: rest).
Proof. unfold joinChunks. simpl. apply string_app_assoc. Qed.

Lemma readChunk_joined (chunks : list string) (st : Internal) :
  readChunk chunks EmptyString st
  = readChunk [joinChunks chunks] EmptyString st.
Proof.
  remember (length chunks) as n eqn:Hn. revert chunks Hn.
  induction n as [|n IH]; intros chunks Hn.
  - destruct chunks; [|done]. reflexivity.
  - destruct chunks as [|c1 [|c2 rest]]; [done| |].
    + unfold joinChunks. simpl. by rewrite string_app_nil_r.
    + rewrite readChunk_merge by done.
      rewrite IH by (simpl in *; lia). by rewrite joinChunks_merge.
Qed.

(** X24: how the response text is cut into network chunks does not
    matter: reading any list of chunks has the effects and the final
    state of reading their concatenation as a single chunk. *)
Theorem readChunk_chunk_invariant (chunks : list string) (st : Internal) :
  readChunk chunks EmptyString st
  = readChunk [joinChunks chunks] EmptyString st.
Proof. apply readChunk_joined. Qed.

(** Wherever the first sentinel line stands in the response and however
    the response is cut into chunks, the reader handles the lines before
    it, completes, and handles nothing of what follows. *)
Lemma done_line_ends_reading
    (chunks : list string) (linesBefore linesAfter : list string)
    (unfinished : string) (st : Internal) :
  split (joinChunks chunks)
  = linesBefore ++ doneLine :: linesAfter ++ [unfinished] ->
  (processLines linesBefore st).1.1 = false ->
  readChunk chunks EmptyString st
  = ((processLines linesBefore st).1.2
       ++ [FlagOutputDirty "fullResponse"; SendSignalOnOutput "completed"],
     (complete (processLines linesBefore st).2).2).
Proof.
  intros Hsplit Hbefore. rewrite readChunk_joined.
  unfold OpenRouterNode.readChunk.
  rewrite (split_buffer_chunk EmptyString) by done.
  fold (split (joinChunks chunks)). rewrite Hsplit.
  assert (Hlines : removelast (linesBefore ++ doneLine :: linesAfter ++ [unfinished])
                   = linesBefore ++ doneLine :: linesAfter).
  { replace (linesBefore ++ doneLine :: linesAfter ++ [unfinished])
      with ((linesBefore ++ doneLine :: linesAfter) ++ [unfinished])
      by (by rewrite <- app_assoc).
    by rewrite removelast_last. }
  rewrite Hlines, processLines_app, Hbefore.
  destruct (processLines linesBefore st) as [[r o] s1]. simpl. done.
Qed.

(** X25: the reader only handles lines that end with a line feed: what
    follows the last line feed of the stream is never handled, so a text
    without any line feed (a lone [data: [DONE]] included) has no effect
    at all. *)
Theorem unterminated_last_line_is_ignored
    (head tail text : string) (st : Internal) :
  (noLineFeed tail ->
   readChunk [(head ++ String LF tail)%string] EmptyString st
   = readChunk [(head ++ String LF EmptyString)%string] EmptyString st)
  /\ (noLineFeed text -> readChunk [text] EmptyString st = ([], st)).
Proof.
  split.
  - intros Htail.
    assert (Hlines : forall t, noLineFeed t ->
      removelast (splitFrom (head ++ String LF t) EmptyString)
      = removelast (splitFrom head EmptyString)
        ++ [List.last (splitFrom head EmptyString) EmptyString]).
    { intros t Ht. rewrite splitFrom_app.
      change (splitFrom (String LF t) ?cur)
        with (cur :: splitFrom t EmptyString).
      rewrite (splitFrom_noLineFeed t) by done.
      by rewrite removelast_app. }
    unfold OpenRouterNode.readChunk.
    rewrite !(split_buffer_chunk EmptyString) by done.
    rewrite (Hlines tail Htail), (Hlines EmptyString I).
    destruct (processLines _ st) as [[r o] s]. done.
  - intros Htext. unfold OpenRouterNode.readChunk.
    rewrite (split_buffer_chunk EmptyString) by done.
    rewrite splitFrom_noLineFeed by done. done.
Qed.

(** ** Completion and the stored conversation *)

Lemma handleLine_history (line : string) (st : Internal) :
  let '(returned, out, st') := handleLine line st in
  userMessage st' = userMessage st
  /\ (returned = true ->
      (completedSignal ∈ out) /\ st' = (complete st).2)
  /\ (returned = false ->
      (completedSignal ∉ out) /\ messages st' = messages st
      /\ fullResponse st' = fullResponse st).
Proof.
  unfold OpenRouterNode.handleLine.
  destruct (String.prefix "data: " line); [|by repeat split; try apply not_elem_of_nil].
  destruct (decide (_ = "[DONE]")).
  { simpl. split; [done|]. split; [|done]. intros _. split; [|done].
    apply list_elem_of_further, list_elem_of_here. }
  destruct (JSON_parse _) as [json|]; [|by repeat split; try apply not_elem_of_nil].
  destruct (guardedDeltaContent json) as [d|];
    [|by repeat split; try apply not_elem_of_nil].
  destruct (truthy d); [|by repeat split; try apply not_elem_of_nil].
  simpl. split; [done|]. split; [done|]. intros _. split; [|done].
  intros Hin. apply elem_of_cons in Hin as [[=]|Hin].
  by apply list_elem_of_singleton in Hin.
Qed.

Lemma processLines_history (lines : list string) (st : Internal) :
  let '(returned, out, st') := processLines lines st in
  userMessage st' = userMessage st
  /\ (returned = true ->
      (completedSignal ∈ out) /\
      messages st' = messages st
                     ++ [("user", userMessage st); ("assistant", streamingText st')]
      /\ fullResponse st' = streamingText st')
  /\ (returned = false ->
      (completedSignal ∉ out) /\ messages st' = messages st
      /\ fullResponse st' = fullResponse st).
Proof.
  revert st. induction lines as [|line lines IH]; intros st; simpl.
  - split; [done|]. split; [done|]. intros _. split; [apply not_elem_of_nil|done].
  - pose proof (handleLine_history line st) as Hline.
    destruct (handleLine line st) as [[returned out] st1].
    destruct Hline as (Hu & Ht & Hf). destruct returned.
    + destruct (Ht eq_refl) as [Hin ->]. simpl. by repeat split.
    + destruct (Hf eq_refl) as (Hnot & Hm & Hfr).
      specialize (IH st1). destruct (processLines lines st1) as [[r outs] st2].
      destruct IH as (Iu & It & If). split; [congruence|]. split.
      * intros Hr. destruct (It Hr) as (Hin & Hm' & Hfr').
        split; [apply elem_of_app; by right|]. split; [congruence|done].
      * intros Hr. destruct (If Hr) as (Hnin & Hm' & Hfr').
        split; [|split; congruence].
        intros Hin. apply elem_of_app in Hin as [Hin|Hin]; done.
Qed.

Lemma readChunk_history
    (chunks : list string) (buffer : string) (st : Internal) :
  let '(out, st') := readChunk chunks buffer st in
  userMessage st' = userMessage st
  /\ ((completedSignal ∈ out) ->
      messages st' = messages st
                     ++ [("user", userMessage st); ("assistant", streamingText st')]
      /\ fullResponse st' = streamingText st')
  /\ ((completedSignal ∉ out) ->
      messages st' = messages st /\ fullResponse st' = fullResponse st).
Proof.
  revert buffer st. induction chunks as [|chunk chunks IH]; intros buffer st.
  - simpl. split; [done|]. split; [intros Hin; by apply elem_of_nil in Hin|done].
  - simpl.
    pose proof (processLines_history
                  (removelast (split (buffer ++ chunk))) st) as Hlines.
    destruct (processLines (removelast (split (buffer ++ chunk))) st)
      as [[returned out] st1].
    destruct Hlines as (Hu & Ht & Hf). destruct returned.
    + destruct (Ht eq_refl) as (Hin & Hm & Hfr).
      split; [done|]. split; [done|]. intros Hnot. done.
    + destruct (Hf eq_refl) as (Hnot & Hm & Hfr).
      specialize (IH (List.last (split (buffer ++ chunk)) EmptyString) st1).
      destruct (readChunk chunks _ st1) as [outs st2].
      destruct IH as (Iu & It & If). split; [congruence|]. split.
      * intros Hin. apply elem_of_app in Hin as [Hin|Hin]; [done|].
        destruct (It Hin) as [Hm' Hfr']. split; congruence.
      * intros Hnin. destruct If as [Hm' Hfr'].
        { intros Hin. apply Hnin. apply elem_of_app. by right. }
        split; congruence.
Qed.

(** X26: the stored conversation grows exactly when the reader signals
    "completed", and then by exactly two entries: the user message
    and the assistant's streamed text, which also becomes the full
    response; without that signal the stored conversation and the full
    response are left as they were. *)
Theorem history_grows_only_on_completion
    (chunks : list string) (buffer : string) (st : Internal) :
  let '(out, st') := readChunk chunks buffer st in
  userMessage st' = userMessage st
  /\ ((completedSignal ∈ out) ->
      messages st' = messages st
                     ++ [("user", userMessage st); ("assistant", streamingText st')]
      /\ fullResponse st' = streamingText st')
  /\ ((completedSignal ∉ out) ->
      messages st' = messages st /\ fullResponse st' = fullResponse st).
Proof. apply readChunk_history. Qed.

(** [sendMessage] makes no request and only signals "error"
    when the API key or the user message is empty; otherwise the request
    carries the stored conversation, preceded by the system prompt when
    there is one and followed by the user message, the stored
    conversation itself is not touched and the streamed text is reset. *)
Lemma sendMessage_builds_request (cfg : Settings) (st : Internal) :
  (apiKey cfg = EmptyString \/ userMessage st = EmptyString ->
   sendMessage cfg st = ([SendSignalOnOutput "error"], st, None))
  /\ (apiKey cfg <> EmptyString -> userMessage st <> EmptyString ->
      exists st',
        sendMessage cfg st
        = ([], st',
           Some ((if decide (systemPrompt cfg = EmptyString) then []
                  else [("system", systemPrompt cfg)])
                 ++ messages st ++ [("user", userMessage st)]))
        /\ messages st' = messages st
        /\ streamingText st' = EmptyString
        /\ userMessage st' = userMessage st
        /\ fullResponse st' = fullResponse st).
Proof.
  unfold sendMessage. split.
  - intros [Hk|Hu].
    + by rewrite decide_True.
    + destruct (decide (apiKey cfg = EmptyString)); [done|].
      by rewrite decide_True.
  - intros Hk Hu. rewrite !decide_False by done.
    exists (mkInternal EmptyString (fullResponse st) (messages st)
                       (userMessage st)).
    split; [|done].
    by destruct (decide (systemPrompt cfg = EmptyString)).
Qed.

(** X27: one whole exchange.  With an API key and a user message,
    [sendMessage] requests the stored conversation preceded by the
    system prompt (when there is one) and followed by the user message;
    when the reader then signals "completed", the stored conversation
    is the former one followed by the user message and the assistant's
    text: the system prompt is sent but never stored.  Without API key
    or user message nothing is requested or changed and "error" is
    signalled. *)
Theorem exchange_extends_conversation
    (cfg : Settings) (st : Internal) (chunks : list string) :
  (apiKey cfg = EmptyString \/ userMessage st = EmptyString ->
   sendMessage cfg st = ([SendSignalOnOutput "error"], st, None))
  /\ (apiKey cfg <> EmptyString -> userMessage st <> EmptyString ->
      exists st1,
        sendMessage cfg st
        = ([], st1,
           Some ((if decide (systemPrompt cfg = EmptyString) then []
                  else [("system", systemPrompt cfg)])
                 ++ messages st ++ [("user", userMessage st)]))
        /\ let '(out, st2) := readChunk chunks EmptyString st1 in
           ((completedSignal ∈ out) ->
            messages st2 = messages st
                           ++ [("user", userMessage st);
                               ("assistant", streamingText st2)])
           /\ ((completedSignal ∉ out) -> messages st2 = messages st)).
Proof.
  destruct (sendMessage_builds_request cfg st) as [Hbad Hgood].
  split; [exact Hbad|]. intros Hk Hu.
  destruct (Hgood Hk Hu) as (st1 & Hsend & Hm & _ & Hum & _).
  exists st1. split; [exact Hsend|].
  pose proof (readChunk_history chunks EmptyString st1) as Hread.
  destruct (readChunk chunks EmptyString st1) as [out st2].
  destruct Hread as (_ & Hdone & Hnot). split.
  - intros Hin. destruct (Hdone Hin) as [-> _]. by rewrite Hm, Hum.
  - intros Hnin. destruct (Hnot Hnin) as [-> _]. done.
Qed.

(** ** The cloud-runtime branch *)

Lemma handleLineCloud_agrees (line : string) (st : Internal) :
  (handleLineCloud JSON_parse numberToString line st).1.1
    = (handleLine line st).1.1
  /\ (handleLineCloud JSON_parse numberToString line st).2
     = (handleLine line st).2
  /\ ((handleLine line st).1.1 = false ->
      (handleLineCloud JSON_parse numberToString line st).1.2 = []).
Proof.
  unfold OpenRouterNodeMore.handleLineCloud, OpenRouterNode.handleLine.
  destruct (String.prefix "data: " line); [|done].
  destruct (decide (_ = "[DONE]")); [done|].
  destruct (JSON_parse _) as [json|]; [|done].
  destruct (guardedDeltaContent json) as [d|]; [|done].
  by destruct (truthy d).
Qed.

Lemma processLinesCloud_agrees (lines : list string) (st : Internal) :
  (processLinesCloud lines st).1.1 = (processLines lines st).1.1
  /\ (processLinesCloud lines st).2 = (processLines lines st).2
  /\ ((processLines lines st).1.1 = false ->
      (processLinesCloud lines st).1.2 = []).
Proof.
  revert st. induction lines as [|line lines IH]; intros st; simpl; [done|].
  pose proof (handleLineCloud_agrees line st) as (H1 & H2 & H3).
  destruct (handleLineCloud JSON_parse numberToString line st)
    as [[rc oc] sc].
  destruct (handleLine line st) as [[r o] s]. simpl in *. subst rc sc.
  destruct r; [done|]. rewrite (H3 eq_refl).
  specialize (IH s).
  destruct (processLinesCloud lines s) as [[rc' oc'] sc'].
  destruct (processLines lines s) as [[r' o'] s']. simpl in *.
  destruct IH as (-> & -> & I3). by repeat split.
Qed.

(** X28: the cloud-runtime branch reaches the same internal state as
    the browser reader whenever the sentinel stands on a line that ends
    with a line feed; when the response holds no sentinel at all, it
    still signals "completed" but stores neither the exchange nor
    the full response. *)
Theorem cloud_branch_vs_browser_reader (text : string) (st : Internal) :
  ((processLines (removelast (split text)) st).1.1 = true ->
   (readTextCloud text st).2 = (readChunk [text] EmptyString st).2)
  /\ ((processLines (split text) st).1.1 = false ->
      List.last (readTextCloud text st).1 (FlagOutputDirty "") = completedSignal
      /\ messages (readTextCloud text st).2 = messages st
      /\ fullResponse (readTextCloud text st).2 = fullResponse st).
Proof.
  split.
  - intros Hdone.
    unfold OpenRouterNodeMore.readTextCloud, OpenRouterNode.readChunk.
    rewrite (split_buffer_chunk EmptyString) by done. fold (split text).
    pose proof (processLinesCloud_agrees (split text) st) as (H1 & H2 & _).
    assert (Hsplit : split text
                     = removelast (split text)
                       ++ [List.last (split text) EmptyString])
      by (apply app_removelast_last, splitFrom_nonempty).
    rewrite Hsplit, processLines_app, Hdone in H1, H2.
    rewrite <- Hsplit in H1, H2.
    destruct (processLinesCloud (split text) st) as [[rc oc] sc].
    destruct (processLines (removelast (split text)) st) as [[r o] s].
    simpl in *. subst. done.
  - intros Hnone. unfold OpenRouterNodeMore.readTextCloud.
    pose proof (processLinesCloud_agrees (split text) st) as (H1 & H2 & H3).
    pose proof (processLines_history (split text) st) as Hhist.
    destruct (processLinesCloud (split text) st) as [[rc oc] sc].
    destruct (processLines (split text) st) as [[r o] s].
    simpl in *. subst. rewrite (H3 eq_refl).
    destruct Hhist as (_ & _ & Hf). destruct (Hf eq_refl) as (_ & Hm & Hfr).
    done.
Qed.

End Node.

Lemma unterminated_last_line_is_ignored_witness :
  OpenRouterNode.readChunk AiApi.sampleParse AiApi.sampleNumberToString
    [doneLine] EmptyString (mkInternal "partial" "" [] "hi")
  = ([], mkInternal "partial" "" [] "hi").
Proof.
  apply (unterminated_last_line_is_ignored AiApi.sampleParse
           AiApi.sampleNumberToString EmptyString EmptyString doneLine).
  vm_compute. repeat split.
Defined.

Lemma history_grows_only_on_completion_witness :
  let st' := (OpenRouterNode.readChunk AiApi.sampleParse AiApi.sampleNumberToString
                [("data: " ++ AiApi.helloEvent ++ String LF "data: [DO")%string;
                 ("NE]" ++ String LF EmptyString)%string]
                EmptyString (mkInternal "" "" [] "hi")).2 in
  messages st' = [("user", "hi"); ("assistant", "Hello")]
  /\ fullResponse st' = "Hello".
Proof.
  pose proof (history_grows_only_on_completion AiApi.sampleParse
                AiApi.sampleNumberToString
                [("data: " ++ AiApi.helloEvent ++ String LF "data: [DO")%string;
                 ("NE]" ++ String LF EmptyString)%string]
                EmptyString (mkInternal "" "" [] "hi")) as Hgrow.
  destruct (OpenRouterNode.readChunk _ _ _ _ _) as [out st'] eqn:Hrun.
  destruct Hgrow as (_ & Hdone & _).
  vm_compute in Hrun. injection Hrun as <- <-.
  apply Hdone. apply list_elem_of_further, list_elem_of_further,
    list_elem_of_further, list_elem_of_here.
Defined.

(** With a key, a system prompt and one stored exchange: the request
    carries the system prompt, the stored exchange and the new user
    message; after the streamed answer the stored conversation holds the
    two exchanges and no system prompt.  Without a key: "error". *)
Lemma exchange_extends_conversation_witness :
  let cfg := mkSettings "sk-or-key" "Be brief." in
  let st := mkInternal "Hi!" "Hi!" [("user", "yo"); ("assistant", "Hi!")] "hi" in
  let chunks :=
    [("data: " ++ AiApi.helloEvent ++ String LF "data: [DO")%string;
     ("NE]" ++ String LF EmptyString)%string] in
  (sendMessage cfg st).2
  = Some [("system", "Be brief."); ("user", "yo"); ("assistant", "Hi!");
          ("user", "hi")]
  /\ messages
       (OpenRouterNode.readChunk AiApi.sampleParse AiApi.sampleNumberToString
          chunks EmptyString (sendMessage cfg st).1.2).2
     = [("user", "yo"); ("assistant", "Hi!"); ("user", "hi");
        ("assistant", "Hello")]
  /\ sendMessage (mkSettings "" "Be brief.") (mkInternal "" "" [] "hi")
     = ([SendSignalOnOutput "error"], mkInternal "" "" [] "hi", None).
Proof.
  intros cfg st chunks.
  destruct (exchange_extends_conversation AiApi.sampleParse
              AiApi.sampleNumberToString cfg st chunks) as [_ Hgood].
  destruct (Hgood ltac:(discriminate) ltac:(discriminate))
    as (st1 & Hsend & Hread).
  destruct (exchange_extends_conversation AiApi.sampleParse
              AiApi.sampleNumberToString (mkSettings "" "Be brief.")
              (mkInternal "" "" [] "hi") []) as [Hbad _].
  split; [by rewrite Hsend|]. split; [|apply Hbad; by left].
  rewrite Hsend. simpl.
  destruct (OpenRouterNode.readChunk _ _ chunks EmptyString st1)
    as [out st2] eqn:Hrun.
  destruct Hread as [Hdone _].
  vm_compute in Hsend. injection Hsend as <-.
  vm_compute in Hrun. injection Hrun as <- <-.
  apply Hdone. apply list_elem_of_further, list_elem_of_further,
    list_elem_of_further, list_elem_of_here.
Defined.

Lemma cloud_branch_vs_browser_reader_witness :
  let text := ("data: " ++ AiApi.helloEvent ++ String LF "data: [DONE]"
               ++ String LF EmptyString)%string in
  (readTextCloud AiApi.sampleParse AiApi.sampleNumberToString text
     (mkInternal "" "" [] "hi")).2
  = (OpenRouterNode.readChunk AiApi.sampleParse AiApi.sampleNumberToString
       [text] EmptyString (mkInternal "" "" [] "hi")).2.
Proof.
  apply (cloud_branch_vs_browser_reader AiApi.sampleParse
           AiApi.sampleNumberToString). reflexivity.
Defined.

End OpenRouterNodeProps.

(* ===================================================================== *)
(** * The end-of-stream sentinel *)
(* ===================================================================== *)

Module SentinelProps.
Import Js AiApi.

Section Messages.
Variable JSON_parse : string -> option JsValue.
Variable numberToString : Q -> string.
Variable hasOnStream : bool.

Local Abbreviation onmessage := (onmessage JSON_parse numberToString hasOnStream).
Local Abbreviation deliver := (deliver JSON_parse numberToString hasOnStream).
Local Abbreviation deliverChunks :=
  (deliverChunks JSON_parse numberToString hasOnStream).

(** No event resets the abort flag. *)
Lemma onmessage_keeps_abort (data : string) (st : StreamState) :
  aborted st = true -> aborted (onmessage data st).2 = true.
Proof.
  intros Ha. unfold AiApi.onmessage.
  destruct (decide (data = "[DONE]")); [done|].
  destruct (JSON_parse data) as [json|]; [|done].
  destruct (deltaContent json) as [d|]; [|done].
  by destruct (truthy d).
Qed.

Lemma deliver_keeps_abort (events : list string) (st : StreamState) :
  aborted st = true -> aborted (deliver events st).2 = true.
Proof.
  revert st. induction events as [|data events IH]; intros st Ha; [done|].
  simpl. pose proof (onmessage_keeps_abort data st Ha) as H1.
  destruct (onmessage data st) as [out st1]. simpl in H1.
  specialize (IH st1 H1). by destruct (deliver events st1).
Qed.

(** A chunk that holds the sentinel leaves the controller aborted. *)
Lemma deliver_done_aborts (events : list string) (st : StreamState) :
  "[DONE]" ∈ events -> aborted (deliver events st).2 = true.
Proof.
  intros Hin. apply list_elem_of_split in Hin as (pre & post & ->).
  rewrite StreamProps.deliver_app. simpl.
  destruct (deliver pre st) as [o1 s1]. simpl.
  pose proof (deliver_keeps_abort post
                (mkStreamState (fullText s1) (completionTokenCount s1) true)
                eq_refl) as Hk.
  by destruct (deliver post _).
Qed.

(** No chunk is read after the chunk that held the sentinel. *)
Lemma deliverChunks_stops_after_done
    (before : list (list string)) (events : list string)
    (after : list (list string)) (st : StreamState) :
  "[DONE]" ∈ events ->
  deliverChunks (before ++ events :: after) st
  = deliverChunks (before ++ [events]) st.
Proof.
  intros Hin. revert st. induction before as [|c before IH]; intros st; simpl.
  - pose proof (deliver_done_aborts events st Hin) as Ha.
    destruct (deliver events st) as [out st1]. simpl in Ha. by rewrite Ha.
  - destruct (deliver c st) as [out st1].
    destruct (aborted st1); [done|]. by rewrite IH.
Qed.

End Messages.

(** C7 (as stated) fails: a chunk that carries the sentinel followed by
    one more event.  The handler calls [controller.abort()] at the
    sentinel, but the library hands over the rest of the chunk, and the
    fragment "Hello" that follows the sentinel is passed to [onStream]. *)
Lemma event_after_done_is_forwarded :
  ~ nothingForwardedAfterDone sampleParse sampleNumberToString true
      [] [helloEvent] initialStream.
Proof. unfold nothingForwardedAfterDone. vm_compute. discriminate. Qed.

(** C7 (amended): the sentinel is never passed on and adds nothing to the
    text, and no later chunk of the response is handled.  In
    [directChatOpenAi] the handler calls [controller.abort()] at the
    sentinel and nothing else; the calls, the text and the token count of
    the events handed over are those of the same events without the
    sentinel (events that the same chunk carries after the sentinel are
    handled like any other), and no chunk after the sentinel's chunk is
    read.  The OpenRouter node aborts nothing: wherever the first
    sentinel line stands and however the response is cut into chunks, the
    reader handles the lines before it, stores the exchange, signals
    "completed" and returns without reading on; no later line or chunk is
    handled, no "streaming" signal is sent for the sentinel and the
    streamed text is left as it was. *)
Theorem done_sentinel_ends_stream
    (JSON_parse : string -> option JsValue) (numberToString : Q -> string)
    (hasOnStream : bool) (pre post : list string) (st : StreamState)
    (before after : list (list string)) (events : list string)
    (chunks linesBefore linesAfter : list string) (unfinished : string)
    (node : OpenRouterNode.Internal) :
  let onmessage := onmessage JSON_parse numberToString hasOnStream in
  let deliver := deliver JSON_parse numberToString hasOnStream in
  let deliverChunks := deliverChunks JSON_parse numberToString hasOnStream in
  let processLines := OpenRouterNode.processLines JSON_parse numberToString in
  let readChunk := OpenRouterNode.readChunk JSON_parse numberToString in
  onmessage "[DONE]" st
    = ([], mkStreamState (fullText st) (completionTokenCount st) true)
  /\ (deliver (pre ++ "[DONE]" :: post) st).1 = (deliver (pre ++ post) st).1
  /\ fullText (deliver (pre ++ "[DONE]" :: post) st).2
     = fullText (deliver (pre ++ post) st).2
  /\ completionTokenCount (deliver (pre ++ "[DONE]" :: post) st).2
     = completionTokenCount (deliver (pre ++ post) st).2
  /\ ("[DONE]" ∈ events ->
      deliverChunks (before ++ events :: after) st
      = deliverChunks (before ++ [events]) st)
  /\ (OpenRouterNode.split (OpenRouterNodeMore.joinChunks chunks)
      = linesBefore ++ OpenRouterNode.doneLine :: linesAfter ++ [unfinished] ->
      (processLines linesBefore node).1.1 = false ->
      readChunk chunks EmptyString node
      = ((processLines linesBefore node).1.2
           ++ [OpenRouterNode.FlagOutputDirty "fullResponse";
               OpenRouterNode.SendSignalOnOutput "completed"],
         (OpenRouterNode.complete (processLines linesBefore node).2).2))
  /\ OpenRouterNode.streamingText (OpenRouterNode.complete node).2
     = OpenRouterNode.streamingText node.
Proof.
  intros onmessage deliver deliverChunks processLines readChunk.
  split; [reflexivity|].
  assert (Hsame : (deliver (pre ++ "[DONE]" :: post) st).1
                  = (deliver (pre ++ post) st).1
                  /\ fullText (deliver (pre ++ "[DONE]" :: post) st).2
                     = fullText (deliver (pre ++ post) st).2
                  /\ completionTokenCount (deliver (pre ++ "[DONE]" :: post) st).2
                     = completionTokenCount (deliver (pre ++ post) st).2).
  { subst deliver. rewrite !StreamProps.deliver_app. simpl.
    destruct (AiApi.deliver JSON_parse numberToString hasOnStream pre st)
      as [o1 [t c a]]. simpl.
    destruct (StreamProps.deliver_abort_flag JSON_parse numberToString
                hasOnStream post t c a) as (os & t2 & c2 & a2 & -> & ->).
    done. }
  destruct Hsame as (H1 & H2 & H3).
  split; [exact H1|]. split; [exact H2|]. split; [exact H3|].
  split; [apply deliverChunks_stops_after_done|].
  split; [apply OpenRouterNodeProps.done_line_ends_reading|reflexivity].
Qed.

(** The sentinel split over two chunks, with a delta before it and
    deltas after it: the reader signals one delta and the completion; and
    the transport never handles the chunk after the sentinel's. *)
Lemma done_sentinel_ends_stream_witness :
  OpenRouterNode.readChunk sampleParse sampleNumberToString
    [("data: " ++ helloEvent ++ String OpenRouterNode.LF "data: [DO")%string;
     ("NE]" ++ String OpenRouterNode.LF ("data: " ++ helloEvent)
        ++ String OpenRouterNode.LF "dat")%string;
     ("a: " ++ helloEvent ++ String OpenRouterNode.LF "")%string]
    EmptyString (OpenRouterNode.mkInternal "" "" [] "hi")
  = ([OpenRouterNode.FlagOutputDirty "response";
      OpenRouterNode.SendSignalOnOutput "streaming";
      OpenRouterNode.FlagOutputDirty "fullResponse";
      OpenRouterNode.SendSignalOnOutput "completed"],
     OpenRouterNode.mkInternal "Hello" "Hello"
       [("user", "hi"); ("assistant", "Hello")] "hi")
  /\ deliverChunks sampleParse sampleNumberToString true
       [[helloEvent; "[DONE]"]; [helloEvent]] initialStream
     = ([StreamCall "Hello" (Str "Hello")], mkStreamState "Hello" 1 true).
Proof.
  destruct (done_sentinel_ends_stream sampleParse sampleNumberToString true
              [] [] initialStream
              [] [[helloEvent]] [helloEvent; "[DONE]"]
              [("data: " ++ helloEvent
                  ++ String OpenRouterNode.LF "data: [DO")%string;
               ("NE]" ++ String OpenRouterNode.LF ("data: " ++ helloEvent)
                  ++ String OpenRouterNode.LF "dat")%string;
               ("a: " ++ helloEvent ++ String OpenRouterNode.LF "")%string]
              [("data: " ++ helloEvent)%string]
              [("data: " ++ helloEvent)%string;
               ("data: " ++ helloEvent)%string]
              EmptyString
              (OpenRouterNode.mkInternal "" "" [] "hi"))
    as (_ & _ & _ & _ & Hchunks & Hnode & _).
  split.
  - rewrite Hnode; [reflexivity|vm_compute; reflexivity|reflexivity].
  - simpl app in Hchunks. rewrite Hchunks; [reflexivity|].
    apply list_elem_of_further, list_elem_of_here.
Defined.

End SentinelProps.
